(** * Caption fitting and word wrapping of the meme generator

    A shallow embedding of the three revisions of [drawMeme]/[wrapText]
    found in the repository:

    - [AppTsx]    : src/App.tsx, the fixed-size wrapper with
                    [pushLineWithWordSplit];
    - [CalcLines] : first document of src/unnamed/part_000, the shrinking
                    wrapper built on [calculateLines];
    - [BestFit]   : second document of src/unnamed/part_000, the shrinking
                    wrapper built on [findBestFit].

    JavaScript numbers are modelled as exact rationals ([Q]); rounding of
    IEEE doubles is not modelled.  JavaScript strings are modelled as lists
    of code units below 256 ([list ascii]): ASCII and the Latin-1
    supplement.  White space is as [trim] and [\s] have it on these code
    units.  [toUpperCase] is as JavaScript has it on these code units but
    for three of them, whose upper case is not one code unit below 256
    (181, 223 and 255); that a line holds no lower-case letter is stated
    for captions free of these three ([upperInModel]).  The 2D
    drawing context is an explicit value threaded through every call, and
    [measureText] reads the font that is current in it.  The [while] loops
    that count the font size down run on a budget of turns; the wrappers
    are shown to return within the budget they are given. *)

From Stdlib Require Import QArith Qround ZArith List Ascii String Bool Lia Lqa.
Import ListNotations.

Open Scope Q_scope.

(* ================================================================== *)
(** * Part I. Definitions                                              *)
(* ================================================================== *)

(** ** JavaScript strings *)

Definition jsstring := list ascii.

(** String literals of the development. *)
Definition str (s : string) : jsstring := list_ascii_of_string s.

(** Truthiness of a string: only the empty string is falsy. *)
Definition truthy (s : jsstring) : bool :=
  match s with
  | [] => false
  | _ :: _ => true
  end.

(** [if (s) lines.push(s)]. *)
Definition pushIf (lines : list jsstring) (s : jsstring) : list jsstring :=
  if truthy s then lines ++ [s] else lines.

(** The white space of [String.prototype.trim] and of the class [\s],
    among the code units below 256: TAB, LF, VT, FF, CR, SPACE and the
    no-break space (160). *)
Definition isSpace (c : ascii) : bool :=
  let n := nat_of_ascii c in
  Nat.eqb n 32 || (Nat.leb 9 n && Nat.leb n 13) || Nat.eqb n 160.

(** The code units below 256 that [toUpperCase] changes into one code
    unit below 256: a to z (97 to 122) and a-grave to thorn (224 to 254)
    but for the division sign (247); each goes 32 down. *)
Definition hasUpperBelow (c : ascii) : bool :=
  let n := nat_of_ascii c in
  (Nat.leb 97 n && Nat.leb n 122) ||
  (Nat.leb 224 n && Nat.leb n 254 && negb (Nat.eqb n 247)).

Definition upperChar (c : ascii) : ascii :=
  if hasUpperBelow c then ascii_of_nat (nat_of_ascii c - 32) else c.



(** [String.prototype.toUpperCase]. *)
Definition toUpperCase (s : jsstring) : jsstring := map upperChar s.

Fixpoint trimStart (s : jsstring) : jsstring :=
  match s with
  | [] => []
  | c :: r => if isSpace c then trimStart r else s
  end.

Definition trimEnd (s : jsstring) : jsstring := rev (trimStart (rev s)).

(** [String.prototype.trim]. *)
Definition trim (s : jsstring) : jsstring := trimEnd (trimStart s).

(** [s.split(/\s+/)]: the pieces between maximal runs of white space.
    [cur] is the piece being read, [inGap] tells that the previous code
    unit was white space.  A leading or trailing run yields an empty
    piece, and the empty string yields one empty piece, as in JavaScript. *)
Fixpoint splitWs (cur : jsstring) (inGap : bool) (s : jsstring)
  : list jsstring :=
  match s with
  | [] => [cur]
  | c :: r =>
      if isSpace c
      then if inGap then splitWs [] true r else cur :: splitWs [] true r
      else splitWs (cur ++ [c]) false r
  end.

Definition split_ws (s : jsstring) : list jsstring := splitWs [] false s.

(** [s.split('')]: the code units of [s], one string each. *)
Definition chars (s : jsstring) : list ascii := s.

Definition space : jsstring := str " ".

(** [lines.join(' ')]. *)
Fixpoint joinSp (l : list jsstring) : jsstring :=
  match l with
  | [] => []
  | [x] => x
  | x :: r => x ++ space ++ joinSp r
  end.

(** White-space collapsing, stated independently of [split_ws]: every
    maximal run of white space becomes one SPACE. *)
Fixpoint collapseWs (inGap : bool) (s : jsstring) : jsstring :=
  match s with
  | [] => []
  | c :: r =>
      if isSpace c
      then if inGap then collapseWs true r else " "%char :: collapseWs true r
      else c :: collapseWs false r
  end.

(** The normalized caption: trimmed, upper-cased, white space collapsed. *)
Definition normalize (rawText : jsstring) : jsstring :=
  collapseWs false (toUpperCase (trim rawText)).

(** A string is upper case when [toUpperCase] leaves it alone. *)
Definition isUpper (s : jsstring) : Prop := toUpperCase s = s.

(** [headOk s]: [s] does not start with white space. *)
Definition headOk (s : jsstring) : Prop :=
  match s with
  | [] => True
  | c :: _ => isSpace c = false
  end.

Definition lastOk (s : jsstring) : Prop := headOk (rev s).

(** A word: not empty and free of white space. *)
Definition wordOk (w : jsstring) : Prop :=
  w <> [] /\ Forall (fun c => isSpace c = false) w.

(** The caption after [trim().toUpperCase()]. *)
Definition captionText (rawText : jsstring) : jsstring :=
  toUpperCase (trim rawText).

(** A line: not empty, made of code units that satisfy [P]. *)
Definition lineOf (P : ascii -> Prop) (s : jsstring) : Prop :=
  s <> [] /\ Forall P s.

(** Code units that [toUpperCase] leaves alone. *)
Definition upperUnit (c : ascii) : Prop := upperChar c = c.





(** What [currentLine] holds at index [n] of the loop of [findBestFit]:
    nothing before the first word, afterwards the words [onLine] of the
    line being built, each followed by a SPACE. *)
Definition Pending (n : nat) (currentLine : jsstring)
                   (onLine : list jsstring) : Prop :=
  (n = 0%nat /\ currentLine = [] /\ onLine = []) \/
  ((0 < n)%nat /\ onLine <> [] /\ Forall wordOk onLine /\
   currentLine = joinSp onLine ++ space).

(** Pieces cut greedily: the first code unit of each piece did not fit
    at the end of the piece before it. *)
Fixpoint chunksMaximal (width : jsstring -> Q) (W : Q)
                       (pieces : list jsstring) : Prop :=
  match pieces with
  | [] => True
  | a :: rest =>
      match rest with
      | (c :: _) :: _ => W < width (a ++ [c])
      | _ => True
      end /\ chunksMaximal width W rest
  end.

(** ** JavaScript numbers *)

(** [a > b] on numbers. *)
Definition Qgtb (a b : Q) : bool := negb (Qle_bool a b).

Definition ofNat (n : nat) : Q := inject_Z (Z.of_nat n).

(** ** The 2D drawing context *)

Record Font := mkFont {
  fontWeight : Z;
  fontPx : Q;
  fontFamily : string
}.

Inductive Align := AlignStart | AlignCenter.
Inductive Baseline := BaseAlphabetic | BaseTop | BaseMiddle.

Record Rect := mkRect { rectX : Q; rectY : Q; rectW : Q; rectH : Q }.

(** The part of the drawing state that [save] and [restore] handle. *)
Record DrawState := mkDrawState {
  font : Font;
  textAlign : Align;
  textBaseline : Baseline;
  fillStyle : string;
  clipRegion : list Rect
}.

(** One [fillText] call, with the state it was issued in. *)
Record FillText := mkFillText {
  ftText : jsstring;
  ftX : Q;
  ftY : Q;
  ftState : DrawState
}.

Record Canvas := mkCanvas {
  state : DrawState;
  stack : list DrawState;
  painted : list FillText
}.

Definition withState (cv : Canvas) (f : DrawState -> DrawState) : Canvas :=
  mkCanvas (f (state cv)) (stack cv) (painted cv).

Definition setFont (cv : Canvas) (f : Font) : Canvas :=
  withState cv (fun s =>
    mkDrawState f (textAlign s) (textBaseline s) (fillStyle s) (clipRegion s)).

Definition setTextAlign (cv : Canvas) (a : Align) : Canvas :=
  withState cv (fun s =>
    mkDrawState (font s) a (textBaseline s) (fillStyle s) (clipRegion s)).

Definition setTextBaseline (cv : Canvas) (b : Baseline) : Canvas :=
  withState cv (fun s =>
    mkDrawState (font s) (textAlign s) b (fillStyle s) (clipRegion s)).

Definition setFillStyle (cv : Canvas) (c : string) : Canvas :=
  withState cv (fun s =>
    mkDrawState (font s) (textAlign s) (textBaseline s) c (clipRegion s)).

Definition save (cv : Canvas) : Canvas :=
  mkCanvas (state cv) (state cv :: stack cv) (painted cv).

Definition restore (cv : Canvas) : Canvas :=
  match stack cv with
  | [] => cv
  | s :: rest => mkCanvas s rest (painted cv)
  end.

(** [beginPath(); rect(x, y, w, h); clip()]. *)
Definition clipRect (cv : Canvas) (r : Rect) : Canvas :=
  withState cv (fun s =>
    mkDrawState (font s) (textAlign s) (textBaseline s) (fillStyle s)
                (r :: clipRegion s)).

Definition fillText (cv : Canvas) (t : jsstring) (x y : Q) : Canvas :=
  mkCanvas (state cv) (stack cv)
           (painted cv ++ [mkFillText t x y (state cv)]).

(** [lines.forEach((line, index) => fillText(line, centerX,
    startY + index * lineHeight))]. *)
Fixpoint paintLines (cv : Canvas) (lines : list jsstring) (index : nat)
                    (centerX startY lineHeight : Q) : Canvas :=
  match lines with
  | [] => cv
  | line :: rest =>
      let lineY := startY + ofNat index * lineHeight in
      paintLines (fillText cv line centerX lineY) rest (S index)
                 centerX startY lineHeight
  end.

(** The state of a context whose canvas has just been resized. *)
Definition defaultState : DrawState :=
  mkDrawState (mkFont 400 10 "sans-serif") AlignStart BaseAlphabetic
              "#000000" [].

Definition freshCanvas : Canvas := mkCanvas defaultState [] [].

(** What a fit hands to the painter. *)
Record FitResult := mkFit {
  fontSize : Q;
  lines : list jsstring;
  lineHeight : Q;
  blockHeight : Q
}.

Record MemeText := mkMemeText { top : jsstring; bottom : jsstring }.

(** ** Geometry of painted text *)

(** Horizontal midpoint of a painted line of measured width [w]. *)
Definition hMid (op : FillText) (w : Q) : Q :=
  match textAlign (ftState op) with
  | AlignCenter => ftX op
  | AlignStart => ftX op + w / 2
  end.

(** Top edge of the line box of height [lh] of a painted line. *)
Definition lineTop (op : FillText) (lh : Q) : option Q :=
  match textBaseline (ftState op) with
  | BaseTop => Some (ftY op)
  | BaseMiddle => Some (ftY op - lh / 2)
  | BaseAlphabetic => None
  end.

Definition lineBottom (op : FillText) (lh : Q) : option Q :=
  match lineTop op lh with
  | Some t => Some (t + lh)
  | None => None
  end.

(** Vertical midpoint of the block made of the line boxes of [ops]. *)
Definition blockMid (ops : list FillText) (lh : Q) : option Q :=
  match ops with
  | [] => None
  | first :: _ =>
      match lineTop first lh, lineBottom (last ops first) lh with
      | Some t, Some b => Some ((t + b) / 2)
      | _, _ => None
      end
  end.

(** The [fillText] calls that painting [ls] issues from index [index] on,
    in drawing state [st]. *)
Fixpoint lineOps (st : DrawState) (ls : list jsstring) (index : nat)
                 (centerX startY lh : Q) : list FillText :=
  match ls with
  | [] => []
  | line :: rest =>
      mkFillText line centerX (startY + ofNat index * lh) st
        :: lineOps st rest (S index) centerX startY lh
  end.

(** The painted lines [ops] show the lines [ls], line [i] at
    [startY + i * lh], each centred on [centerX], and the block they form
    is centred on [centerY]. *)
Definition Centered (ops : list FillText) (ls : list jsstring)
                    (centerX centerY startY lh : Q) : Prop :=
  List.length ops = List.length ls /\
  (forall i op, nth_error ops i = Some op ->
     nth_error ls i = Some (ftText op) /\
     ftY op == startY + ofNat i * lh /\
     forall w, hMid op w == centerX) /\
  (ls <> [] -> exists m, blockMid ops lh = Some m /\ m == centerY).

(* ------------------------------------------------------------------ *)
(** ** src/App.tsx: fixed font size, forced splitting of wide words    *)
(* ------------------------------------------------------------------ *)

Module AppTsx.

Definition fontString (fSize : Q) : Font :=
  mkFont 800 fSize "Inter, Arial Black, Gadget, sans-serif".

Section Breaker.
(** [width s] is [context.measureText(s).width] at the font pinned by
    [wrapText]; the loop re-assigns the same font on every turn. *)
Variable width : jsstring -> Q.
Variable targetMaxWidth : Q.

(** The loop of [pushLineWithWordSplit] over the code units of the word.
    [lines] is the array of the enclosing [wrapText], which the helper
    pushes to; the returned string is the helper's return value. *)
Fixpoint splitChars (cs : list ascii) (lines : list jsstring)
                    (charLine : jsstring) : list jsstring * jsstring :=
  match cs with
  | [] => (lines, charLine)
  | char :: rest =>
      let testCharLine := charLine ++ [char] in
      if Qgtb (width testCharLine) targetMaxWidth
      then splitChars rest (pushIf lines charLine) [char]
      else splitChars rest lines testCharLine
  end.

Definition pushLineWithWordSplit (lines : list jsstring)
                                 (wordToSplit : jsstring)
  : list jsstring * jsstring :=
  splitChars (chars wordToSplit) lines [].

(** The [for (const word of words)] loop.  The third component is a
    ghost flag, absent from the source: it records whether
    [pushLineWithWordSplit] has run. *)
Fixpoint wrapWords (words : list jsstring) (lines : list jsstring)
                   (currentLine : jsstring) (split : bool)
  : list jsstring * jsstring * bool :=
  match words with
  | [] => (lines, currentLine, split)
  | word :: rest =>
      let testLine :=
        if truthy currentLine then currentLine ++ space ++ word else word in
      if Qgtb (width testLine) targetMaxWidth then
        if truthy currentLine then
          let lines1 := lines ++ [currentLine] in
          if Qgtb (width word) targetMaxWidth then
            let '(lines2, charLine) := pushLineWithWordSplit lines1 word in
            wrapWords rest lines2 charLine true
          else
            wrapWords rest lines1 word split
        else
          let '(lines2, charLine) := pushLineWithWordSplit lines word in
          wrapWords rest lines2 charLine true
      else
        wrapWords rest lines testLine split
  end.

(** The loop followed by [if (currentLine) lines.push(currentLine)]. *)
Definition breakLinesFlag (words : list jsstring)
  : list jsstring * bool :=
  let '(lines, currentLine, split) := wrapWords words [] [] false in
  (pushIf lines currentLine, split).

Definition breakLines (words : list jsstring) : list jsstring :=
  fst (breakLinesFlag words).

Definition splitTriggered (words : list jsstring) : bool :=
  snd (breakLinesFlag words).
End Breaker.

Section WrapText.
Variable measure : Font -> jsstring -> Q.

Definition measureText (cv : Canvas) (s : jsstring) : Q :=
  measure (font (state cv)) s.

Definition targetMaxWidth (boxWidth : Q) : Q :=
  let paddingX := boxWidth * 0.15 in
  (boxWidth - paddingX * 2) * 0.97.

(** The fitting part of [wrapText], up to [totalHeight]: the context
    after the font has been pinned, and the layout; [None] is the early
    [return] on blank text. *)
Definition layout (context : Canvas) (rawText : jsstring)
                  (boxWidth fSize : Q) : Canvas * option FitResult :=
  let text := toUpperCase (trim rawText) in
  if negb (truthy text) then (context, None) else
  let context := setFont context (fontString fSize) in
  let words := split_ws text in
  let lineHeight := fSize * 1.15 in
  let lines :=
    breakLines (measureText context) (targetMaxWidth boxWidth) words in
  let totalHeight := ofNat (List.length lines) * lineHeight in
  (context, Some (mkFit fSize lines lineHeight totalHeight)).

Definition startY (centerY : Q) (r : FitResult) : Q :=
  centerY - blockHeight r / 2 + lineHeight r / 2.

Definition wrapText (context : Canvas) (rawText : jsstring)
                    (centerX centerY boxWidth boxHeight fSize : Q)
  : Canvas :=
  match layout context rawText boxWidth fSize with
  | (context, None) => context
  | (context, Some r) =>
      let context := setTextAlign context AlignCenter in
      let context := setTextBaseline context BaseMiddle in
      let context := setFillStyle context "#000000" in
      let context := setFont context (fontString fSize) in
      let context := save context in
      let context :=
        clipRect context
          (mkRect (centerX - boxWidth / 2 + 5) (centerY - boxHeight / 2 + 5)
                  (boxWidth - 10) (boxHeight - 10)) in
      let context :=
        paintLines context (lines r) 0 centerX (startY centerY r)
                   (lineHeight r) in
      restore context
  end.

Definition baseFontSize (canvasHeight : Z) : Q :=
  inject_Z (Qfloor (inject_Z canvasHeight * 0.065)).

Definition currentFontSize (canvasHeight : Z) (fontSizeScale : Q) : Q :=
  baseFontSize canvasHeight * fontSizeScale.

(** [drawMeme] once image and fonts are there: the canvas takes the
    image's natural size, which resets the context, and the two
    captions are wrapped into the right-hand quadrants. *)
Definition drawMeme (canvasWidth canvasHeight : Z) (memeText : MemeText)
                    (fontSizeScale : Q) : Canvas :=
  let ctx := freshCanvas in
  let fSize := currentFontSize canvasHeight fontSizeScale in
  let panelWidth := inject_Z canvasWidth / 2 in
  let panelHeight := inject_Z canvasHeight / 2 in
  let rightCenterX := inject_Z canvasWidth * 0.75 in
  let topCenterY := inject_Z canvasHeight * 0.25 in
  let bottomCenterY := inject_Z canvasHeight * 0.75 in
  let ctx :=
    if truthy (top memeText)
    then wrapText ctx (top memeText) rightCenterX topCenterY
                  panelWidth panelHeight fSize
    else ctx in
  if truthy (bottom memeText)
  then wrapText ctx (bottom memeText) rightCenterX bottomCenterY
                panelWidth panelHeight fSize
  else ctx.
End WrapText.

End AppTsx.

(** ** Loops that count a font size down

    [while (currentFontSize > floor) { ...; currentFontSize -= 1 }] is
    modelled with a budget of loop turns; [scanFuel] is the budget the
    wrappers run with.  [None] means that the budget ran out. *)

Definition scanFuel (initialSize floor : Q) : nat :=
  Z.to_nat (Qceiling (initialSize - floor)).

(** The sizes that a scan from [initialSize] tries: [initialSize],
    [initialSize - 1], ... *)
Fixpoint stepDown (k : nat) (f : Q) : Q :=
  match k with
  | O => f
  | S k' => stepDown k' (f - 1)
  end.

(** The variables [currentFontSize], [lines], [lineHeight] and
    [totalBlockHeight] that the shrinking revisions of [wrapText] declare
    with [let] and update while fitting. *)
Record FitVars := mkVars {
  currentFontSize : Q;
  varLines : list jsstring;
  varLineHeight : Q;
  totalBlockHeight : Q
}.

Definition initVars (initialFontSize : Q) : FitVars :=
  mkVars initialFontSize [] 0 0.

Definition fontStringUI (fSize : Q) : Font :=
  mkFont 800 fSize "Inter, Segoe UI, Roboto, Helvetica, Arial, sans-serif".

(* ------------------------------------------------------------------ *)
(** ** src/unnamed/part_000, first document: [calculateLines]          *)
(* ------------------------------------------------------------------ *)

Module CalcLines.

Record CalcResult := mkCalc {
  calcLines : list jsstring;
  totalHeight : Q;
  calcLineHeight : Q
}.

Section Breaker.
Variable width : jsstring -> Q.
Variable maxWidth : Q.

(** The [for] loop of [calculateLines]; [None] is [return null]. *)
Fixpoint forWords (words : list jsstring) (currentLines : list jsstring)
                  (currentLine : jsstring)
  : option (list jsstring * jsstring) :=
  match words with
  | [] => Some (currentLines, currentLine)
  | word :: rest =>
      let testLine :=
        currentLine ++ (if truthy currentLine then space else []) ++ word in
      if Qgtb (width testLine) maxWidth then
        if Qgtb (width word) maxWidth then None
        else if truthy currentLine
             then forWords rest (currentLines ++ [currentLine]) word
             else forWords rest (currentLines ++ [word]) currentLine
      else forWords rest currentLines testLine
  end.

Definition breakLines (words : list jsstring) : option (list jsstring) :=
  match forWords words [] [] with
  | None => None
  | Some (currentLines, currentLine) =>
      Some (pushIf currentLines currentLine)
  end.
End Breaker.

Section WrapText.
Variable measure : Font -> jsstring -> Q.

Definition measureText (cv : Canvas) (s : jsstring) : Q :=
  measure (font (state cv)) s.

Definition maxWidth (boxWidth : Q) : Q :=
  let hPadding := boxWidth * 0.15 in boxWidth - hPadding * 2.

Definition maxHeight (boxHeight : Q) : Q :=
  let vPadding := boxHeight * 0.15 in boxHeight - vPadding * 2.

Definition calculateLines (context : Canvas) (words : list jsstring)
                          (boxWidth fSize : Q)
  : Canvas * option CalcResult :=
  let context := setFont context (fontStringUI fSize) in
  let lHeight := fSize * 1.15 in
  match breakLines (measureText context) (maxWidth boxWidth) words with
  | None => (context, None)
  | Some currentLines =>
      (context,
       Some (mkCalc currentLines
                    (ofNat (List.length currentLines) * lHeight) lHeight))
  end.

(** [while (currentFontSize > 8) { ... }].  The last component counts
    the turns of the loop (a ghost value). *)
Fixpoint shrink (fuel : nat) (words : list jsstring)
                (boxWidth boxHeight : Q)
                (context : Canvas) (v : FitVars) (turns : nat)
  : option (Canvas * FitVars * nat) :=
  if Qgtb (currentFontSize v) 8 then
    match fuel with
    | O => None
    | S fuel' =>
        let '(context, result) :=
          calculateLines context words boxWidth (currentFontSize v) in
        let next :=
          mkVars (currentFontSize v - 1) (varLines v) (varLineHeight v)
                 (totalBlockHeight v) in
        match result with
        | Some r =>
            if Qle_bool (totalHeight r) (maxHeight boxHeight)
            then Some (context,
                       mkVars (currentFontSize v) (calcLines r)
                              (calcLineHeight r) (totalHeight r),
                       S turns)
            else shrink fuel' words boxWidth boxHeight context next
                        (S turns)
        | None =>
            shrink fuel' words boxWidth boxHeight context next (S turns)
        end
    end
  else Some (context, v, turns).

(** [wrapText] up to the end of the shrinking loop; the outer [None] is
    an exhausted budget, the inner one the early [return] on blank
    text. *)
Definition fit (context : Canvas) (rawText : jsstring)
               (boxWidth boxHeight initialFontSize : Q)
  : option (Canvas * option (FitVars * nat)) :=
  let text := toUpperCase (trim rawText) in
  if negb (truthy text) then Some (context, None) else
  let words := split_ws text in
  match shrink (scanFuel initialFontSize 8) words boxWidth boxHeight
               context (initVars initialFontSize) 0 with
  | None => None
  | Some (context, v, turns) => Some (context, Some (v, turns))
  end.

Definition paint (context : Canvas) (v : FitVars)
                 (centerX centerY boxWidth boxHeight : Q) : Canvas :=
  if Nat.eqb (List.length (varLines v)) 0 then context else
  let context := setTextAlign context AlignCenter in
  let context := setTextBaseline context BaseTop in
  let context := setFillStyle context "#000000" in
  let startY := centerY - totalBlockHeight v / 2 in
  let context := save context in
  let context :=
    clipRect context
      (mkRect (centerX - boxWidth / 2) (centerY - boxHeight / 2)
              boxWidth boxHeight) in
  let context :=
    paintLines context (varLines v) 0 centerX startY (varLineHeight v) in
  restore context.

Definition wrapText (context : Canvas) (rawText : jsstring)
                    (centerX centerY boxWidth boxHeight initialFontSize : Q)
  : option Canvas :=
  match fit context rawText boxWidth boxHeight initialFontSize with
  | None => None
  | Some (context, None) => Some context
  | Some (context, Some (v, _)) =>
      Some (paint context v centerX centerY boxWidth boxHeight)
  end.

Definition baseFontSize (canvasHeight : Z) : Q :=
  inject_Z (Qfloor (inject_Z canvasHeight * 0.055)).

Definition scaledFontSize (canvasHeight : Z) (fontSizeScale : Q) : Q :=
  baseFontSize canvasHeight * fontSizeScale.

Definition drawMeme (canvasWidth canvasHeight : Z) (memeText : MemeText)
                    (fontSizeScale : Q) : option Canvas :=
  let ctx := freshCanvas in
  let panelWidth := inject_Z canvasWidth / 2 in
  let panelHeight := inject_Z canvasHeight / 2 in
  let rightCenterX := inject_Z canvasWidth * 0.75 in
  let topCenterY := inject_Z canvasHeight * 0.25 in
  let bottomCenterY := inject_Z canvasHeight * 0.75 in
  let fSize := scaledFontSize canvasHeight fontSizeScale in
  match (if truthy (top memeText)
         then wrapText ctx (top memeText) rightCenterX topCenterY
                       panelWidth panelHeight fSize
         else Some ctx) with
  | None => None
  | Some ctx =>
      if truthy (bottom memeText)
      then wrapText ctx (bottom memeText) rightCenterX bottomCenterY
                    panelWidth panelHeight fSize
      else Some ctx
  end.
End WrapText.

End CalcLines.

(* ------------------------------------------------------------------ *)
(** ** src/unnamed/part_000, second document: [findBestFit]            *)
(* ------------------------------------------------------------------ *)

Module BestFit.

Section Breaker.
Variable width : jsstring -> Q.
Variable maxWidth : Q.

(** The [for (let n = 0; n < words.length; n++)] loop of [findBestFit],
    from index [n] on.  The second component is the [currentLine] the
    loop ends with, or [None] when the loop was left by [return false]. *)
Fixpoint forWords (n : nat) (words : list jsstring)
                  (lines : list jsstring) (currentLine : jsstring)
  : list jsstring * option jsstring :=
  match words with
  | [] => (lines, Some currentLine)
  | word :: rest =>
      let testLine := currentLine ++ word ++ space in
      if Qgtb (width (trim testLine)) maxWidth && Nat.ltb 0 n then
        let lines1 := lines ++ [trim currentLine] in
        let currentLine1 := word ++ space in
        if Qgtb (width word) maxWidth then (lines1, None)
        else forWords (S n) rest lines1 currentLine1
      else forWords (S n) rest lines testLine
  end.
End Breaker.

Section WrapText.
Variable measure : Font -> jsstring -> Q.

Definition measureText (cv : Canvas) (s : jsstring) : Q :=
  measure (font (state cv)) s.

Definition maxWidth (boxWidth : Q) : Q :=
  let hPadding := boxWidth * 0.12 in boxWidth - hPadding * 2.

Definition maxHeight (boxHeight : Q) : Q :=
  let vPadding := boxHeight * 0.12 in boxHeight - vPadding * 2.

(** One call of [findBestFit].  The closure variables it updates are
    passed in and out; the boolean is its return value and the last
    component counts the runs of the [for] loop (a ghost value). *)
Fixpoint findBestFit (fuel : nat) (words : list jsstring)
                     (boxWidth boxHeight : Q)
                     (context : Canvas) (v : FitVars) (passes : nat)
  : option (bool * Canvas * FitVars * nat) :=
  if Qgtb (currentFontSize v) 6 then
    match fuel with
    | O => None
    | S fuel' =>
        let context := setFont context (fontStringUI (currentFontSize v)) in
        let lineHeight := currentFontSize v * 1.15 in
        match forWords (measureText context) (maxWidth boxWidth)
                       0 words [] [] with
        | (lines, None) =>
            Some (false, context,
                  mkVars (currentFontSize v - 1) lines lineHeight
                         (totalBlockHeight v),
                  S passes)
        | (lines, Some currentLine) =>
            let lines := lines ++ [trim currentLine] in
            let total := ofNat (List.length lines) * lineHeight in
            if Qle_bool total (maxHeight boxHeight)
            then Some (true, context,
                       mkVars (currentFontSize v) lines lineHeight total,
                       S passes)
            else findBestFit fuel' words boxWidth boxHeight context
                   (mkVars (currentFontSize v - 1) lines lineHeight total)
                   (S passes)
        end
    end
  else Some (true, context, v, passes).

(** [while (!findBestFit()) {}]. *)
Fixpoint retry (fuel : nat) (words : list jsstring)
               (boxWidth boxHeight : Q)
               (context : Canvas) (v : FitVars) (passes : nat)
  : option (Canvas * FitVars * nat) :=
  match fuel with
  | O => None
  | S fuel' =>
      match findBestFit (scanFuel (currentFontSize v) 6) words
                        boxWidth boxHeight context v passes with
      | None => None
      | Some (true, context, v, passes) => Some (context, v, passes)
      | Some (false, context, v, passes) =>
          retry fuel' words boxWidth boxHeight context v passes
      end
  end.

Definition fit (context : Canvas) (rawText : jsstring)
               (boxWidth boxHeight initialFontSize : Q)
  : option (Canvas * option (FitVars * nat)) :=
  let text := toUpperCase (trim rawText) in
  let words := split_ws text in
  if Nat.eqb (List.length words) 0 || negb (truthy text)
  then Some (context, None) else
  match retry (S (scanFuel initialFontSize 6)) words boxWidth boxHeight
              context (initVars initialFontSize) 0 with
  | None => None
  | Some (context, v, passes) => Some (context, Some (v, passes))
  end.

Definition paint (context : Canvas) (v : FitVars)
                 (centerX centerY boxWidth boxHeight : Q) : Canvas :=
  let context := setTextAlign context AlignCenter in
  let context := setTextBaseline context BaseTop in
  let context := setFillStyle context "#000000" in
  let startY := centerY - totalBlockHeight v / 2 in
  let context := save context in
  let context :=
    clipRect context
      (mkRect (centerX - boxWidth / 2) (centerY - boxHeight / 2)
              boxWidth boxHeight) in
  let context :=
    paintLines context (varLines v) 0 centerX startY (varLineHeight v) in
  restore context.

Definition wrapText (context : Canvas) (rawText : jsstring)
                    (centerX centerY boxWidth boxHeight initialFontSize : Q)
  : option Canvas :=
  match fit context rawText boxWidth boxHeight initialFontSize with
  | None => None
  | Some (context, None) => Some context
  | Some (context, Some (v, _)) =>
      Some (paint context v centerX centerY boxWidth boxHeight)
  end.

Definition baseFontSize (canvasHeight : Z) : Q :=
  inject_Z (Qfloor (inject_Z canvasHeight * 0.055)).

Definition scaledFontSize (canvasHeight : Z) (fontSizeScale : Q) : Q :=
  baseFontSize canvasHeight * fontSizeScale.

Definition drawMeme (canvasWidth canvasHeight : Z) (memeText : MemeText)
                    (fontSizeScale : Q) : option Canvas :=
  let ctx := freshCanvas in
  let panelWidth := inject_Z canvasWidth / 2 in
  let panelHeight := inject_Z canvasHeight / 2 in
  let rightCenterX := inject_Z canvasWidth * 0.75 in
  let topCenterY := inject_Z canvasHeight * 0.25 in
  let bottomCenterY := inject_Z canvasHeight * 0.75 in
  let fSize := scaledFontSize canvasHeight fontSizeScale in
  match (if truthy (top memeText)
         then wrapText ctx (top memeText) rightCenterX topCenterY
                       panelWidth panelHeight fSize
         else Some ctx) with
  | None => None
  | Some ctx =>
      if truthy (bottom memeText)
      then wrapText ctx (bottom memeText) rightCenterX bottomCenterY
                    panelWidth panelHeight fSize
      else Some ctx
  end.
End WrapText.

End BestFit.

(** ** A concrete measurer and the greedy rule of the specification *)

(** A fixed-pitch font: every code unit is half an em wide. *)
Definition monoMeasure (f : Font) (s : jsstring) : Q :=
  fontPx f * ofNat (List.length s) / 2.

Section GreedyRule.
Variable width : jsstring -> Q.
Variable W : Q.

(** The greedy rule in the words of the specification: the candidate is
    [currentLine + " " + word], or the word alone on an empty line; a
    candidate that fits becomes the current line, otherwise a non-empty
    current line is closed and the word starts a new line. *)
Fixpoint greedyFrom (words : list jsstring) (currentLine : jsstring)
  : list jsstring :=
  match words with
  | [] => if truthy currentLine then [currentLine] else []
  | word :: rest =>
      let candidate :=
        if truthy currentLine then currentLine ++ space ++ word else word in
      if Qle_bool (width candidate) W
      then greedyFrom rest candidate
      else if truthy currentLine
           then currentLine :: greedyFrom rest word
           else greedyFrom rest word
  end.

Definition greedy (words : list jsstring) : list jsstring :=
  greedyFrom words [].
End GreedyRule.

(** ** What the shrinking loops establish *)

(** The wrapped block of the [calculateLines] revision at size [f], when
    the breaker gives one. *)
Definition calcBlock (measure : Font -> jsstring -> Q)
    (words : list jsstring) (boxWidth f : Q) : option (list jsstring) :=
  CalcLines.breakLines (measure (fontStringUI f))
                       (CalcLines.maxWidth boxWidth) words.

(** The block wrapped at size [f] fits the usable width and height. *)
Definition calcFits (measure : Font -> jsstring -> Q)
    (words : list jsstring) (boxWidth boxHeight f : Q) : Prop :=
  exists ls,
    calcBlock measure words boxWidth f = Some ls /\
    Forall (fun l => measure (fontStringUI f) l
                     <= CalcLines.maxWidth boxWidth) ls /\
    ofNat (List.length ls) * (f * 1.15) <= CalcLines.maxHeight boxHeight.

(** What the shrinking loop leaves behind, started with the variables [v]
    after [turns] turns: either the first size of the scan at which the
    block fits, or the variables untouched when no size above 8 fits. *)
Definition ShrinkPost (measure : Font -> jsstring -> Q)
    (words : list jsstring) (boxWidth boxHeight : Q)
    (v : FitVars) (turns : nat) (v' : FitVars) (turns' : nat) : Prop :=
  (exists k ls,
      turns' = (turns + S k)%nat /\
      currentFontSize v' = stepDown k (currentFontSize v) /\
      8 < currentFontSize v' /\
      calcBlock measure words boxWidth (currentFontSize v') = Some ls /\
      v' = mkVars (currentFontSize v') ls (currentFontSize v' * 1.15)
             (ofNat (List.length ls) * (currentFontSize v' * 1.15)) /\
      calcFits measure words boxWidth boxHeight (currentFontSize v') /\
      (forall j, (j < k)%nat ->
         ~ calcFits measure words boxWidth boxHeight
                    (stepDown j (currentFontSize v))))
  \/
  (turns' = (turns + scanFuel (currentFontSize v) 8)%nat /\
   v' = mkVars (stepDown (scanFuel (currentFontSize v) 8)
                         (currentFontSize v))
               (varLines v) (varLineHeight v) (totalBlockHeight v) /\
   currentFontSize v' <= 8 /\
   (forall j, (j < scanFuel (currentFontSize v) 8)%nat ->
      ~ calcFits measure words boxWidth boxHeight
                 (stepDown j (currentFontSize v)))).

(** What holds of the variables when [findBestFit] has returned [true]
    from inside its loop, that is with a size still above 6. *)
Definition BestFitDone (words : list jsstring) (boxHeight : Q)
                       (v : FitVars) : Prop :=
  6 < currentFontSize v ->
  joinSp (varLines v) = joinSp words /\
  varLineHeight v = currentFontSize v * 1.15 /\
  totalBlockHeight v = ofNat (List.length (varLines v)) * varLineHeight v /\
  totalBlockHeight v <= BestFit.maxHeight boxHeight.



(** The size [wrapText] of the [calculateLines] revision paints with, if
    it paints. *)
Definition calcChosenSize (measure : Font -> jsstring -> Q)
    (rawText : jsstring) (boxWidth boxHeight size : Q) : option Q :=
  match CalcLines.fit measure freshCanvas rawText boxWidth boxHeight size with
  | Some (_, Some (v, _)) =>
      if Nat.eqb (List.length (varLines v)) 0 then None
      else Some (currentFontSize v)
  | _ => None
  end.

(** What [drawMeme] of the [findBestFit] revision paints for the top
    caption alone. *)
Definition bestFitPainted (measure : Font -> jsstring -> Q)
    (canvasWidth canvasHeight : Z) (caption : jsstring) (fontSizeScale : Q)
  : option (list FillText) :=
  option_map painted
    (BestFit.drawMeme measure canvasWidth canvasHeight
                      (mkMemeText caption []) fontSizeScale).

(** ** Sample inputs *)

(** Sample inputs: a fixed-pitch font at 20px, where a line of ten code
    units is exactly 100 wide. *)
Definition sampleWidth : jsstring -> Q := monoMeasure (fontStringUI 20).

Definition sampleWords : list jsstring :=
  [str "ONE"; str "DOES"; str "NOT"; str "SIMPLY"].

(** A caption and a box to try the wrappers on: a fixed-pitch font, a
    box of 500 by 500 and a size of 40. *)
Definition sampleCaption : jsstring := str "  one does not simply  ".


(** A caption of one 26-letter word, for a box of 100 by 100. *)
Definition alphabet : jsstring := str "abcdefghijklmnopqrstuvwxyz".

(** A caption of one 20-letter word. *)
Definition wideCaption : jsstring := str "abcdefghijklmnopqrst".

Definition sampleWide : jsstring := str "ABCDEFGH".

(** ** Further notions *)

(** The code units of a string that are not white space, in order. *)
Definition letters (s : jsstring) : jsstring :=
  filter (fun c => negb (isSpace c)) s.

(** The rectangle [rect(centerX - boxWidth / 2, centerY - boxHeight / 2,
    boxWidth, boxHeight)] that the revisions of part_000 clip to. *)
Definition boxRect (centerX centerY boxWidth boxHeight : Q) : Rect :=
  mkRect (centerX - boxWidth / 2) (centerY - boxHeight / 2)
         boxWidth boxHeight.

(** The rectangle that App.tsx clips to: the box, 5 units in on each
    side. *)
Definition insetRect (centerX centerY boxWidth boxHeight : Q) : Rect :=
  mkRect (centerX - boxWidth / 2 + 5) (centerY - boxHeight / 2 + 5)
         (boxWidth - 10) (boxHeight - 10).

(** The drawing state the lines are painted in: font [f], centred,
    baseline [b], black, clipped to [r] inside the clip of [s]. *)
Definition paintState (s : DrawState) (f : Font) (b : Baseline) (r : Rect)
  : DrawState :=
  mkDrawState f AlignCenter b "#000000" (r :: clipRegion s).

(** The drawing state after [restore]: as [paintState], with the clip of
    [s] back. *)
Definition afterState (s : DrawState) (f : Font) (b : Baseline)
  : DrawState :=
  mkDrawState f AlignCenter b "#000000" (clipRegion s).

Definition rectRight (r : Rect) : Q := rectX r + rectW r.

Definition rectBottom (r : Rect) : Q := rectY r + rectH r.

(** Two captions that differ in case and in white space only. *)
Definition looseCaption : jsstring := str "one  does not   simply".

(** The boxes [drawMeme] hands to [wrapText]: the right half of the
    image, upper and lower quadrant; and the clips App.tsx derives from
    them. *)
Definition topBox (canvasWidth canvasHeight : Z) : Rect :=
  boxRect (inject_Z canvasWidth * 0.75) (inject_Z canvasHeight * 0.25)
          (inject_Z canvasWidth / 2) (inject_Z canvasHeight / 2).
Definition bottomBox (canvasWidth canvasHeight : Z) : Rect :=
  boxRect (inject_Z canvasWidth * 0.75) (inject_Z canvasHeight * 0.75)
          (inject_Z canvasWidth / 2) (inject_Z canvasHeight / 2).
Definition topInset (canvasWidth canvasHeight : Z) : Rect :=
  insetRect (inject_Z canvasWidth * 0.75) (inject_Z canvasHeight * 0.25)
            (inject_Z canvasWidth / 2) (inject_Z canvasHeight / 2).
Definition bottomInset (canvasWidth canvasHeight : Z) : Rect :=
  insetRect (inject_Z canvasWidth * 0.75) (inject_Z canvasHeight * 0.75)
            (inject_Z canvasWidth / 2) (inject_Z canvasHeight / 2).
Definition clippedBy (r : Rect) (op : FillText) : Prop :=
  clipRegion (ftState op) = [r].

(* ================================================================== *)
(** * Part II. Properties                                              *)
(* ================================================================== *)

(** ** Numbers *)

Lemma Qgtb_true (a b : Q) : Qgtb a b = true <-> b < a.
Proof.
  unfold Qgtb. rewrite negb_true_iff.
  split; intro H.
  - apply Qnot_le_lt. intro Hle. apply Qle_bool_iff in Hle. congruence.
  - destruct (Qle_bool a b) eqn:E; [|reflexivity].
    apply Qle_bool_iff in E. exfalso. exact (Qlt_not_le _ _ H E).
Qed.

Lemma Qgtb_false (a b : Q) : Qgtb a b = false <-> a <= b.
Proof.
  unfold Qgtb. rewrite negb_false_iff. apply Qle_bool_iff.
Qed.

Lemma Qgtb_Qle_bool (a b : Q) : Qle_bool a b = negb (Qgtb a b).
Proof. unfold Qgtb. now rewrite negb_involutive. Qed.

Lemma ofNat_le (a b : nat) : (a <= b)%nat -> ofNat a <= ofNat b.
Proof.
  intro H. unfold ofNat. rewrite <- Zle_Qle. lia.
Qed.

(** ** Characters and strings *)

Lemma isSpace_upperChar (c : ascii) : isSpace (upperChar c) = isSpace c.
Proof.
  destruct c as [[] [] [] [] [] [] [] []]; reflexivity.
Qed.

Lemma upperChar_idem (c : ascii) : upperChar (upperChar c) = upperChar c.
Proof.
  destruct c as [[] [] [] [] [] [] [] []]; reflexivity.
Qed.

Lemma toUpperCase_isUpper (s : jsstring) : isUpper (toUpperCase s).
Proof.
  unfold isUpper, toUpperCase. rewrite map_map.
  apply map_ext. intro c. apply upperChar_idem.
Qed.

(** A string is upper case exactly when each of its code units is. *)
Lemma isUpper_Forall (s : jsstring) :
  isUpper s <-> Forall (fun c => upperChar c = c) s.
Proof.
  unfold isUpper, toUpperCase. induction s as [|c r IH]; simpl.
  - split; [constructor | reflexivity].
  - split; intro H.
    + injection H as Hc Hr. constructor; [exact Hc | now apply IH].
    + inversion H as [|? ? Hc Hr]; subst. rewrite Hc.
      f_equal. now apply IH.
Qed.

Lemma trimStart_headOk (s : jsstring) : headOk (trimStart s).
Proof.
  induction s as [|c r IH]; simpl; [exact I|].
  destruct (isSpace c) eqn:E; [exact IH | exact E].
Qed.

Lemma trimStart_id (s : jsstring) : headOk s -> trimStart s = s.
Proof.
  destruct s as [|c r]; simpl; [reflexivity|].
  intro H. now rewrite H.
Qed.

Lemma trimStart_suffix (s : jsstring) :
  exists p, s = p ++ trimStart s /\ Forall (fun c => isSpace c = true) p.
Proof.
  induction s as [|c r [p [Hp HF]]]; simpl.
  - exists []. split; [reflexivity | constructor].
  - destruct (isSpace c) eqn:E.
    + exists (c :: p). split; [simpl; now f_equal | now constructor].
    + exists []. split; [reflexivity | constructor].
Qed.

Lemma Forall_trimStart (P : ascii -> Prop) (s : jsstring) :
  Forall P s -> Forall P (trimStart s).
Proof.
  intro H. destruct (trimStart_suffix s) as [p [Hp _]].
  rewrite Hp in H. now apply Forall_app in H.
Qed.

Lemma Forall_trimEnd (P : ascii -> Prop) (s : jsstring) :
  Forall P s -> Forall P (trimEnd s).
Proof.
  intro H. unfold trimEnd. apply Forall_rev, Forall_trimStart, Forall_rev, H.
Qed.

Lemma Forall_trim (P : ascii -> Prop) (s : jsstring) :
  Forall P s -> Forall P (trim s).
Proof. intro H. apply Forall_trimEnd, Forall_trimStart, H. Qed.

Lemma headOk_app (s t : jsstring) : s <> [] -> headOk s -> headOk (s ++ t).
Proof. destruct s; simpl; [congruence | auto]. Qed.

Lemma trimEnd_lastOk (s : jsstring) : lastOk (trimEnd s).
Proof.
  unfold lastOk, trimEnd. rewrite rev_involutive. apply trimStart_headOk.
Qed.

Lemma trimEnd_headOk (s : jsstring) : headOk s -> headOk (trimEnd s).
Proof.
  unfold trimEnd. intro H.
  destruct (trimStart_suffix (rev s)) as [p [Hp HF]].
  assert (Hs : s = rev (trimStart (rev s)) ++ rev p).
  { rewrite <- rev_app_distr, <- Hp. now rewrite rev_involutive. }
  destruct (rev (trimStart (rev s))) as [|c r] eqn:E; [exact I|].
  rewrite Hs in H. exact H.
Qed.

Lemma trim_headOk (s : jsstring) : headOk (trim s).
Proof. apply trimEnd_headOk, trimStart_headOk. Qed.

Lemma trim_lastOk (s : jsstring) : lastOk (trim s).
Proof. apply trimEnd_lastOk. Qed.

(** Trimming a tight string followed by one SPACE gives the string back. *)
Lemma trim_app_space (s : jsstring) :
  s <> [] -> headOk s -> lastOk s -> trim (s ++ space) = s.
Proof.
  intros Hne Hh Hl. unfold trim.
  rewrite trimStart_id by (apply headOk_app; assumption).
  unfold trimEnd. rewrite rev_app_distr. simpl.
  rewrite trimStart_id by exact Hl. apply rev_involutive.
Qed.

Lemma toUpperCase_headOk (s : jsstring) : headOk s -> headOk (toUpperCase s).
Proof.
  destruct s as [|c r]; simpl; [auto|]. now rewrite isSpace_upperChar.
Qed.

Lemma toUpperCase_lastOk (s : jsstring) : lastOk s -> lastOk (toUpperCase s).
Proof.
  unfold lastOk, toUpperCase. rewrite <- map_rev.
  apply toUpperCase_headOk.
Qed.

(** ** Words *)

Lemma wordOk_headOk (w : jsstring) : wordOk w -> headOk w.
Proof.
  intros [_ H]. destruct w; simpl; [exact I|]. now inversion H.
Qed.

Lemma wordOk_lastOk (w : jsstring) : wordOk w -> lastOk w.
Proof.
  intros [_ H]. unfold lastOk. apply Forall_rev in H.
  destruct (rev w); simpl; [exact I|]. now inversion H.
Qed.

Lemma lastOk_tail (c : ascii) (r : jsstring) :
  lastOk (c :: r) -> r <> [] -> lastOk r.
Proof.
  unfold lastOk. simpl. intros H Hne.
  destruct (rev r) as [|d t] eqn:E.
  - apply (f_equal (@rev ascii)) in E. rewrite rev_involutive in E.
    simpl in E. congruence.
  - exact H.
Qed.

Lemma splitWs_nonnil (s cur : jsstring) (gap : bool) : splitWs cur gap s <> [].
Proof.
  revert cur gap. induction s as [|c r IH]; intros cur gap; simpl.
  - discriminate.
  - destruct (isSpace c); [destruct gap|]; try apply IH. discriminate.
Qed.

Lemma splitWs_Forall (P : ascii -> Prop) (s cur : jsstring) (gap : bool) :
  Forall P s -> Forall P cur -> Forall (Forall P) (splitWs cur gap s).
Proof.
  revert cur gap. induction s as [|c r IH]; intros cur gap Hs Hcur; simpl.
  - constructor; [exact Hcur | constructor].
  - inversion Hs as [|? ? Hc Hr]; subst.
    destruct (isSpace c); [destruct gap|].
    + apply IH; [exact Hr | constructor].
    + constructor; [exact Hcur|]. apply IH; [exact Hr | constructor].
    + apply IH; [exact Hr|]. apply Forall_app. split; [exact Hcur|].
      constructor; [exact Hc | constructor].
Qed.

Lemma splitWs_wordOk (s cur : jsstring) (gap : bool) :
  lastOk s -> (gap = true -> s <> []) -> (gap = false -> cur <> []) ->
  Forall (fun c => isSpace c = false) cur ->
  Forall wordOk (splitWs cur gap s).
Proof.
  revert cur gap. induction s as [|c r IH]; intros cur gap Hl Hg Hc HF; simpl.
  - destruct gap; [exfalso; now apply Hg|].
    constructor; [split; auto | constructor].
  - destruct (isSpace c) eqn:E.
    + assert (Hr : r <> []).
      { intro Hr. subst r. unfold lastOk in Hl. simpl in Hl. congruence. }
      assert (Hlr : lastOk r) by (eapply lastOk_tail; eauto).
      destruct gap.
      * apply IH; [exact Hlr | intros _; exact Hr | discriminate | constructor].
      * constructor; [split; auto|].
        apply IH; [exact Hlr | intros _; exact Hr | discriminate | constructor].
    + apply IH.
      * destruct r as [|d t]; [exact I|].
        eapply lastOk_tail; [exact Hl | discriminate].
      * discriminate.
      * intros _. destruct cur; discriminate.
      * apply Forall_app. split; [exact HF|]. constructor; [exact E | constructor].
Qed.

Lemma split_ws_wordOk (s : jsstring) :
  s <> [] -> headOk s -> lastOk s -> Forall wordOk (split_ws s).
Proof.
  intros Hne Hh Hl. unfold split_ws.
  destruct s as [|c r]; [congruence|].
  simpl in Hh. simpl. rewrite Hh. simpl.
  apply splitWs_wordOk.
  - destruct r as [|d t]; [exact I|].
    eapply lastOk_tail; [exact Hl | discriminate].
  - discriminate.
  - discriminate.
  - constructor; [exact Hh | constructor].
Qed.

Lemma truthy_true (s : jsstring) : truthy s = true <-> s <> [].
Proof. destruct s; simpl; split; congruence. Qed.

Lemma truthy_false (s : jsstring) : truthy s = false <-> s = [].
Proof. destruct s; simpl; split; congruence. Qed.

(** The words of a caption that is not blank are words indeed, and they
    are upper case. *)
Lemma caption_words (rawText : jsstring) :
  captionText rawText <> [] ->
  Forall wordOk (split_ws (captionText rawText)) /\
  Forall isUpper (split_ws (captionText rawText)).
Proof.
  intro Hne. split.
  - apply split_ws_wordOk; [exact Hne| |].
    + apply toUpperCase_headOk, trim_headOk.
    + apply toUpperCase_lastOk, trim_lastOk.
  - eapply Forall_impl; [intros w Hw; apply isUpper_Forall; exact Hw|].
    apply splitWs_Forall; [|constructor].
    apply isUpper_Forall, toUpperCase_isUpper.
Qed.

Lemma caption_words_nonnil (rawText : jsstring) :
  split_ws (captionText rawText) <> [].
Proof. apply splitWs_nonnil. Qed.

(** ** Joining lines *)

Lemma joinSp_cons (x : jsstring) (r : list jsstring) :
  r <> [] -> joinSp (x :: r) = x ++ space ++ joinSp r.
Proof. destruct r; [congruence | reflexivity]. Qed.

Lemma joinSp_group_head (g t : list jsstring) :
  g <> [] -> joinSp (joinSp g :: t) = joinSp (g ++ t).
Proof.
  induction g as [|x g IH]; intro Hne; [congruence|].
  destruct g as [|y g'].
  - reflexivity.
  - destruct t as [|z t'].
    + now rewrite app_nil_r.
    + rewrite joinSp_cons by discriminate.
      rewrite (joinSp_cons x (y :: g')) by discriminate.
      change ((x :: y :: g') ++ z :: t') with (x :: ((y :: g') ++ z :: t')).
      rewrite (joinSp_cons x) by discriminate.
      rewrite <- IH by discriminate.
      rewrite (joinSp_cons (joinSp (y :: g'))) by discriminate.
      now rewrite <- !app_assoc.
Qed.

(** Joining is blind to how the words are grouped into lines. *)
Lemma joinSp_group (l g t : list jsstring) :
  g <> [] -> joinSp (l ++ joinSp g :: t) = joinSp (l ++ g ++ t).
Proof.
  intro Hne. induction l as [|a l IH]; simpl app.
  - now apply joinSp_group_head.
  - rewrite !joinSp_cons.
    + now rewrite IH.
    + destruct l, g; simpl; congruence.
    + destruct l; discriminate.
Qed.

Lemma joinSp_splitWs (s cur : jsstring) :
  joinSp (splitWs cur false s) = cur ++ collapseWs false s /\
  joinSp (splitWs [] true s) = collapseWs true s.
Proof.
  revert cur. induction s as [|c r IH]; intro cur; simpl.
  - now rewrite app_nil_r.
  - destruct (isSpace c).
    + split.
      * rewrite joinSp_cons by apply splitWs_nonnil.
        now rewrite (proj2 (IH [])).
      * apply (proj2 (IH [])).
    + split.
      * rewrite (proj1 (IH (cur ++ [c]))). now rewrite <- app_assoc.
      * rewrite (proj1 (IH [c])). reflexivity.
Qed.

(** Joining the words of a caption gives the normalized caption. *)
Lemma joinSp_split_ws (rawText : jsstring) :
  joinSp (split_ws (captionText rawText)) = normalize rawText.
Proof.
  unfold split_ws, normalize, captionText.
  now rewrite (proj1 (joinSp_splitWs _ [])).
Qed.

Lemma pushIf_nil (lines : list jsstring) : pushIf lines [] = lines.
Proof. reflexivity. Qed.

Lemma pushIf_cons (lines : list jsstring) (s : jsstring) :
  s <> [] -> pushIf lines s = lines ++ [s].
Proof. destruct s; [congruence | reflexivity]. Qed.

Lemma pushIf_Forall (P : jsstring -> Prop) (lines : list jsstring)
                    (s : jsstring) :
  Forall P lines -> (s <> [] -> P s) -> Forall P (pushIf lines s).
Proof.
  intros Hl Hs. destruct s as [|c r]; [exact Hl|].
  rewrite pushIf_cons by discriminate.
  apply Forall_app. split; [exact Hl|].
  constructor; [apply Hs; discriminate | constructor].
Qed.

(** Case analysis on the test, or on the pair, at the head of the
    left-hand side of an equation [E]. *)
Ltac case_if E G :=
  match type of E with
  | (if ?c then _ else _) = _ => destruct c eqn:G
  end.

Ltac case_pair E a b Ep :=
  match type of E with
  | (let '(_, _) := ?p in _) = _ => destruct p as [a b] eqn:Ep
  end.

(** ** src/App.tsx: the line breaker *)

Section AppTsxBreaker.
Variable width : jsstring -> Q.
Variable W : Q.

Local Abbreviation fits := (fun s : jsstring => width s <= W).


Lemma wrapWords_flag (words : list jsstring) :
  forall lines currentLine lines' cur' b',
  AppTsx.wrapWords width W words lines currentLine true = (lines', cur', b') ->
  b' = true.
Proof.
  induction words as [|w rest IH]; intros lines cl lines' cur' b' E;
    cbn [AppTsx.wrapWords] in E.
  - now injection E as _ _ <-.
  - repeat match type of E with
           | context [if ?c then _ else _] => destruct c
           | context [let '(_, _) := ?p in _] => destruct p
           end; eapply IH; eassumption.
Qed.

(** Without forced splitting every finished line, and the line being
    built, fits the target width. *)
Lemma wrapWords_fits (words : list jsstring) :
  forall lines currentLine b lines' cur',
  Forall fits lines -> (currentLine = [] \/ fits currentLine) ->
  AppTsx.wrapWords width W words lines currentLine b
    = (lines', cur', false) ->
  Forall fits lines' /\ (cur' = [] \/ fits cur').
Proof.
  induction words as [|w rest IH]; intros lines cl b lines' cur' Hl Hc E;
    cbn [AppTsx.wrapWords] in E.
  - injection E as <- <- _. auto.
  - destruct (truthy cl) eqn:T; cbv iota in E.
    + case_if E G.
      * case_if E Gw.
        -- case_pair E l2 c2 Sp.
           apply wrapWords_flag in E. discriminate.
        -- apply IH in E; auto.
           ++ apply Forall_app. split; [exact Hl|].
              constructor; [|constructor].
              destruct Hc as [Hc|Hc]; [|exact Hc].
              subst cl. discriminate.
           ++ right. now apply Qgtb_false in Gw.
      * apply IH in E; auto. right. now apply Qgtb_false in G.
    + case_if E Gw.
      * case_pair E l2 c2 Sp.
        apply wrapWords_flag in E. discriminate.
      * apply IH in E; auto. right. now apply Qgtb_false in Gw.
Qed.

(** When every word fits, the loop is the greedy rule. *)
Lemma wrapWords_greedy (words : list jsstring) :
  Forall fits words ->
  forall lines currentLine b,
  exists lines' cur',
    AppTsx.wrapWords width W words lines currentLine b = (lines', cur', b) /\
    pushIf lines' cur' = lines ++ greedyFrom width W words currentLine.
Proof.
  induction words as [|w rest IH]; intros Hw lines cl b;
    cbn [AppTsx.wrapWords greedyFrom].
  - exists lines, cl. split; [reflexivity|].
    destruct cl; simpl; [now rewrite app_nil_r | reflexivity].
  - inversion Hw as [|? ? Hfit Hrest]; subst.
    assert (Gw : Qgtb (width w) W = false) by now apply Qgtb_false.
    rewrite !Qgtb_Qle_bool.
    destruct (truthy cl) eqn:T; cbv iota.
    + destruct (Qgtb (width (cl ++ space ++ w)) W) eqn:G; cbn [negb].
      * rewrite Gw.
        destruct (IH Hrest (lines ++ [cl]) w b) as (l' & c' & E & H).
        exists l', c'. split; [exact E|].
        rewrite H. now rewrite <- app_assoc.
      * apply (IH Hrest).
    + rewrite Gw. cbn [negb]. apply (IH Hrest).
Qed.

(** Without forced splitting the lines hold the words, in order. *)
Lemma wrapWords_join (words : list jsstring) :
  Forall (fun w => w <> []) words ->
  forall lines currentLine b lines' cur',
  AppTsx.wrapWords width W words lines currentLine b
    = (lines', cur', false) ->
  joinSp (pushIf lines' cur') = joinSp (pushIf lines currentLine ++ words).
Proof.
  induction words as [|w rest IH]; intros Hw lines cl b lines' cur' E;
    cbn [AppTsx.wrapWords] in E.
  - injection E as <- <- _. now rewrite app_nil_r.
  - inversion Hw as [|? ? Hne Hrest]; subst.
    destruct (truthy cl) eqn:T; cbv iota in E.
    + apply truthy_true in T.
      case_if E G.
      * case_if E Gw.
        -- case_pair E l2 c2 Sp.
           apply wrapWords_flag in E. discriminate.
        -- apply IH in E; [|exact Hrest]. rewrite E.
           rewrite (pushIf_cons _ w) by exact Hne.
           rewrite (pushIf_cons _ cl) by exact T.
           now rewrite <- !app_assoc.
      * apply IH in E; [|exact Hrest]. rewrite E.
        rewrite (pushIf_cons _ cl) by exact T.
        rewrite pushIf_cons by (destruct cl; [congruence | discriminate]).
        rewrite <- !app_assoc. cbn [app].
        change (cl ++ space ++ w) with (joinSp [cl; w]).
        rewrite joinSp_group by discriminate. reflexivity.
    + apply truthy_false in T. subst cl.
      case_if E Gw.
      * case_pair E l2 c2 Sp.
        apply wrapWords_flag in E. discriminate.
      * apply IH in E; [|exact Hrest]. rewrite E.
        rewrite pushIf_nil. rewrite (pushIf_cons _ w) by exact Hne.
        now rewrite <- app_assoc.
Qed.

End AppTsxBreaker.

(** ** part_000, [calculateLines]: the line breaker *)

Section CalcLinesBreaker.
Variable width : jsstring -> Q.
Variable W : Q.

Local Abbreviation fits := (fun s : jsstring => width s <= W).

(** A result that is not [null] has no line wider than [maxWidth]. *)
Lemma forWords_fits (words : list jsstring) :
  forall lines currentLine lines' cur',
  Forall fits lines -> (currentLine = [] \/ fits currentLine) ->
  CalcLines.forWords width W words lines currentLine = Some (lines', cur') ->
  Forall fits lines' /\ (cur' = [] \/ fits cur').
Proof.
  induction words as [|w rest IH]; intros lines cl lines' cur' Hl Hc E;
    cbn [CalcLines.forWords] in E.
  - injection E as <- <-. auto.
  - destruct (truthy cl) eqn:T; cbv iota in E.
    + case_if E G.
      * case_if E Gw; [discriminate|].
        apply IH in E; auto.
        -- apply Forall_app. split; [exact Hl|].
           constructor; [|constructor].
           destruct Hc as [Hc|Hc]; [subst cl; discriminate | exact Hc].
        -- right. now apply Qgtb_false in Gw.
      * apply IH in E; auto. right. now apply Qgtb_false in G.
    + apply truthy_false in T. subst cl. cbn [app] in E.
      case_if E G.
      * discriminate.
      * apply IH in E; auto. right. now apply Qgtb_false in G.
Qed.

(** When every word fits, [calculateLines] is the greedy rule. *)
Lemma forWords_greedy (words : list jsstring) :
  Forall fits words ->
  forall lines currentLine,
  exists lines' cur',
    CalcLines.forWords width W words lines currentLine
      = Some (lines', cur') /\
    pushIf lines' cur' = lines ++ greedyFrom width W words currentLine.
Proof.
  induction words as [|w rest IH]; intros Hw lines cl;
    cbn [CalcLines.forWords greedyFrom].
  - exists lines, cl. split; [reflexivity|].
    destruct cl; simpl; [now rewrite app_nil_r | reflexivity].
  - inversion Hw as [|? ? Hfit Hrest]; subst.
    assert (Gw : Qgtb (width w) W = false) by now apply Qgtb_false.
    rewrite !Qgtb_Qle_bool.
    destruct (truthy cl) eqn:T; cbv iota.
    + destruct (Qgtb (width (cl ++ space ++ w)) W) eqn:G; cbn [negb].
      * rewrite Gw.
        destruct (IH Hrest (lines ++ [cl]) w) as (l' & c' & E & H).
        exists l', c'. split; [exact E|].
        rewrite H. now rewrite <- app_assoc.
      * apply (IH Hrest).
    + apply truthy_false in T. subst cl. cbn [app].
      rewrite Gw. cbn [negb]. apply (IH Hrest).
Qed.

(** The lines of a result hold the words, in order. *)
Lemma forWords_join (words : list jsstring) :
  Forall (fun w => w <> []) words ->
  forall lines currentLine lines' cur',
  CalcLines.forWords width W words lines currentLine = Some (lines', cur') ->
  joinSp (pushIf lines' cur') = joinSp (pushIf lines currentLine ++ words).
Proof.
  induction words as [|w rest IH]; intros Hw lines cl lines' cur' E;
    cbn [CalcLines.forWords] in E.
  - injection E as <- <-. now rewrite app_nil_r.
  - inversion Hw as [|? ? Hne Hrest]; subst.
    destruct (truthy cl) eqn:T; cbv iota in E.
    + apply truthy_true in T.
      case_if E G.
      * case_if E Gw; [discriminate|].
        apply IH in E; [|exact Hrest]. rewrite E.
        rewrite (pushIf_cons _ w) by exact Hne.
        rewrite (pushIf_cons _ cl) by exact T.
        now rewrite <- !app_assoc.
      * apply IH in E; [|exact Hrest]. rewrite E.
        rewrite (pushIf_cons _ cl) by exact T.
        rewrite pushIf_cons by (destruct cl; [congruence | discriminate]).
        rewrite <- !app_assoc. cbn [app].
        change (cl ++ space ++ w) with (joinSp [cl; w]).
        rewrite joinSp_group by discriminate. reflexivity.
    + apply truthy_false in T. subst cl. cbn [app] in E.
      case_if E G.
      * discriminate.
      * apply IH in E; [|exact Hrest]. rewrite E.
        rewrite pushIf_nil. rewrite (pushIf_cons _ w) by exact Hne.
        now rewrite <- app_assoc.
Qed.

Lemma forWords_lines (P : ascii -> Prop) (words : list jsstring) :
  P " "%char ->
  Forall (lineOf P) words ->
  forall lines currentLine lines' cur',
  Forall (lineOf P) lines -> Forall P currentLine ->
  CalcLines.forWords width W words lines currentLine = Some (lines', cur') ->
  Forall (lineOf P) lines' /\ Forall P cur' /\
  (words <> [] \/ currentLine <> [] -> cur' <> []).
Proof.
  intro Hsp.
  induction words as [|w rest IH];
    intros Hw lines cl lines' cur' Hl Hc E;
    cbn [CalcLines.forWords] in E.
  - injection E as <- <-.
    split; [exact Hl | split; [exact Hc | intros [H|H]; congruence]].
  - inversion Hw as [|? ? [Hne HPw] Hrest]; subst.
    assert (Hgo : forall l c,
               Forall (lineOf P) l -> Forall P c -> c <> [] ->
               CalcLines.forWords width W rest l c = Some (lines', cur') ->
               Forall (lineOf P) lines' /\ Forall P cur' /\
               (w :: rest <> [] \/ cl <> [] -> cur' <> [])).
    { intros l c Hl' Hc' Hcne E'.
      destruct (IH Hrest _ _ _ _ Hl' Hc' E') as (A & B & C).
      split; [exact A | split; [exact B | intros _; apply C; now right]]. }
    destruct (truthy cl) eqn:T; cbv iota in E.
    + apply truthy_true in T.
      case_if E G.
      * case_if E Gw; [discriminate|].
        refine (Hgo _ _ _ HPw Hne E).
        apply Forall_app. split; [exact Hl|].
        constructor; [split; [exact T | exact Hc] | constructor].
      * refine (Hgo _ _ Hl _ _ E).
        -- apply Forall_app. split; [exact Hc|].
           apply Forall_app. split; [|exact HPw].
           constructor; [exact Hsp | constructor].
        -- destruct cl; [congruence | discriminate].
    + apply truthy_false in T. subst cl. cbn [app] in E.
      case_if E G.
      * discriminate.
      * exact (Hgo _ _ Hl HPw Hne E).
Qed.

(** [null] is returned only at a word that is wider than [maxWidth]. *)
Lemma forWords_None (words : list jsstring) :
  forall lines currentLine,
  CalcLines.forWords width W words lines currentLine = None ->
  Exists (fun w => W < width w) words.
Proof.
  induction words as [|w rest IH]; intros lines cl E;
    cbn [CalcLines.forWords] in E.
  - discriminate.
  - case_if E G.
    + case_if E Gw.
      * left. now apply Qgtb_true in Gw.
      * right. destruct (truthy cl); eapply IH; exact E.
    + right. eapply IH; exact E.
Qed.

(** With a measurer under which a word is never wider than a line that
    ends with it, a word wider than [maxWidth] always gives [null]. *)
Lemma forWords_wide (words : list jsstring) :
  (forall p w, width w <= width (p ++ w)) ->
  Exists (fun w => W < width w) words ->
  forall lines currentLine,
  CalcLines.forWords width W words lines currentLine = None.
Proof.
  intros Hmono. induction words as [|w rest IH]; intros Hex lines cl;
    cbn [CalcLines.forWords].
  - inversion Hex.
  - assert (Hrest : Qgtb (width w) W = false ->
                    Exists (fun w => W < width w) rest).
    { intro Gw. inversion Hex as [? ? Hw|? ? Hr]; subst; [|exact Hr].
      apply Qgtb_false in Gw. exfalso. exact (Qlt_not_le _ _ Hw Gw). }
    destruct (truthy cl) eqn:T; cbv iota.
    + destruct (Qgtb (width w) W) eqn:Gw.
      * assert (G : Qgtb (width (cl ++ space ++ w)) W = true).
        { apply Qgtb_true. apply Qgtb_true in Gw.
          eapply Qlt_le_trans; [exact Gw|].
          rewrite app_assoc. apply Hmono. }
        now rewrite G.
      * destruct (Qgtb (width (cl ++ space ++ w)) W);
          apply IH; apply Hrest; reflexivity.
    + apply truthy_false in T. subst cl. cbn [app].
      destruct (Qgtb (width w) W) eqn:Gw; [reflexivity|].
      apply IH. apply Hrest. reflexivity.
Qed.
End CalcLinesBreaker.

(** ** part_000, [findBestFit]: the line breaker *)

Lemma lastOk_app (s t : jsstring) : t <> [] -> lastOk t -> lastOk (s ++ t).
Proof.
  unfold lastOk. intros Hne H. rewrite rev_app_distr.
  apply headOk_app; [|exact H].
  intro E. apply (f_equal (@rev ascii)) in E.
  rewrite rev_involutive in E. contradiction.
Qed.

Lemma joinSp_snoc (ws : list jsstring) (w : jsstring) :
  ws <> [] -> joinSp (ws ++ [w]) = joinSp ws ++ space ++ w.
Proof.
  induction ws as [|x r IH]; intro Hne; [congruence|].
  destruct r as [|y r'].
  - reflexivity.
  - change ((x :: y :: r') ++ [w]) with (x :: ((y :: r') ++ [w])).
    rewrite joinSp_cons by (destruct r'; discriminate).
    rewrite IH by discriminate.
    rewrite (joinSp_cons x (y :: r')) by discriminate.
    now rewrite <- !app_assoc.
Qed.

(** Words joined by single spaces form a tight, non-empty string. *)
Lemma joinSp_tight (ws : list jsstring) :
  ws <> [] -> Forall wordOk ws ->
  joinSp ws <> [] /\ headOk (joinSp ws) /\ lastOk (joinSp ws).
Proof.
  induction ws as [|x r IH]; intros Hne Hw; [congruence|].
  inversion Hw as [|? ? Hx Hr]; subst.
  destruct r as [|y r'].
  - simpl. split; [apply Hx|].
    split; [now apply wordOk_headOk | now apply wordOk_lastOk].
  - rewrite joinSp_cons by discriminate.
    destruct (IH ltac:(discriminate) Hr) as (A & B & C).
    split; [|split].
    + destruct x; [now destruct Hx | discriminate].
    + apply headOk_app; [apply Hx | now apply wordOk_headOk].
    + apply lastOk_app; [unfold space, str; simpl; discriminate|].
      apply lastOk_app; assumption.
Qed.

Lemma trim_joinSp_space (ws : list jsstring) :
  ws <> [] -> Forall wordOk ws -> trim (joinSp ws ++ space) = joinSp ws.
Proof.
  intros Hne Hw. destruct (joinSp_tight ws Hne Hw) as (A & B & C).
  now apply trim_app_space.
Qed.

Section BestFitBreaker.
Variable width : jsstring -> Q.
Variable W : Q.

(** A loop that runs to its end leaves lines that hold the words, in
    order. *)
Lemma bestFit_forWords_join (words : list jsstring) :
  Forall wordOk words ->
  forall n lines currentLine onLine lines' cur',
  Pending n currentLine onLine -> onLine ++ words <> [] ->
  BestFit.forWords width W n words lines currentLine
    = (lines', Some cur') ->
  joinSp (lines' ++ [trim cur']) = joinSp (lines ++ onLine ++ words).
Proof.
  induction words as [|w rest IH];
    intros Hw n lines cl onLine lines' cur' Hp Hne E;
    cbn [BestFit.forWords] in E.
  - injection E as <- <-. rewrite app_nil_r in *.
    destruct Hp as [(_ & _ & ->)|(_ & Ho & HF & ->)]; [congruence|].
    rewrite trim_joinSp_space by assumption.
    rewrite joinSp_group by assumption. now rewrite app_nil_r.
  - inversion Hw as [|? ? Hww Hrest]; subst.
    destruct Hp as [(-> & -> & ->)|(Hn & Ho & HF & ->)].
    + rewrite andb_false_r in E. cbn [app] in E.
      apply (IH Hrest _ _ _ [w]) in E.
      * exact E.
      * right. repeat split; [lia | discriminate | now constructor].
      * discriminate.
    + assert (Hlt : Nat.ltb 0 n = true) by now apply Nat.ltb_lt.
      rewrite Hlt, andb_true_r in E.
      case_if E G.
      * case_if E Gw; [discriminate|].
        apply (IH Hrest _ _ _ [w]) in E.
        -- rewrite E. rewrite trim_joinSp_space by assumption.
           rewrite <- !app_assoc. cbn [app].
           now rewrite joinSp_group by assumption.
        -- right. repeat split; [lia | discriminate | now constructor].
        -- discriminate.
      * apply (IH Hrest _ _ _ (onLine ++ [w])) in E.
        -- rewrite E. now rewrite <- !app_assoc.
        -- right. split; [lia|]. split; [destruct onLine; discriminate|].
           split; [apply Forall_app; split; [exact HF | now constructor]|].
           rewrite joinSp_snoc by exact Ho. now rewrite <- !app_assoc.
        -- destruct onLine; discriminate.
Qed.

(** Whatever way the loop is left, the lines pushed so far are not
    empty and are made of code units of the words and of SPACE; so is
    the trimmed line the loop ends with. *)
Lemma bestFit_forWords_lines (P : ascii -> Prop) (words : list jsstring) :
  P " "%char ->
  Forall wordOk words -> Forall (Forall P) words ->
  forall n lines currentLine onLine lines' r,
  Pending n currentLine onLine -> Forall P currentLine ->
  Forall (lineOf P) lines ->
  BestFit.forWords width W n words lines currentLine = (lines', r) ->
  Forall (lineOf P) lines' /\
  match r with
  | Some cur' => onLine ++ words <> [] -> lineOf P (trim cur')
  | None => lines' <> []
  end.
Proof.
  intro Hsp.
  induction words as [|w rest IH];
    intros Hw HP n lines cl onLine lines' r Hp Hcl Hl E;
    cbn [BestFit.forWords] in E.
  - injection E as <- <-. split; [exact Hl|].
    rewrite app_nil_r. intro Hne.
    destruct Hp as [(_ & _ & ->)|(_ & Ho & HF & ->)]; [congruence|].
    split; [|now apply Forall_trim].
    rewrite trim_joinSp_space by assumption.
    now apply joinSp_tight.
  - inversion Hw as [|? ? Hww Hrest]; subst.
    inversion HP as [|? ? HPw HPrest]; subst.
    assert (Hsingle : Pending (S n) (w ++ space) [w]).
    { right. repeat split; [lia | discriminate | now constructor]. }
    assert (HPsingle : Forall P (w ++ space)).
    { apply Forall_app. split; [exact HPw|].
      constructor; [exact Hsp | constructor]. }
    destruct Hp as [(-> & -> & ->)|(Hn & Ho & HF & ->)].
    + rewrite andb_false_r in E. cbn [app] in E.
      destruct (IH Hrest HPrest _ _ _ _ _ _ Hsingle HPsingle Hl E)
        as [A B].
      split; [exact A|]. destruct r; [|exact B].
      intros _. apply B. discriminate.
    + assert (Hlt : Nat.ltb 0 n = true) by now apply Nat.ltb_lt.
      rewrite Hlt, andb_true_r in E.
      assert (Hpush : Forall (lineOf P)
                        (lines ++ [trim (joinSp onLine ++ space)])).
      { apply Forall_app. split; [exact Hl|].
        constructor; [|constructor].
        split; [|now apply Forall_trim].
        rewrite trim_joinSp_space by assumption.
        now apply joinSp_tight. }
      case_if E G.
      * case_if E Gw.
        -- injection E as <- <-. split; [exact Hpush|].
           destruct lines; discriminate.
        -- destruct (IH Hrest HPrest _ _ _ _ _ _ Hsingle HPsingle Hpush E)
             as [A B].
           split; [exact A|]. destruct r; [|exact B].
           intros _. apply B. discriminate.
      * assert (Hp' : Pending (S n) ((joinSp onLine ++ space) ++ w ++ space)
                              (onLine ++ [w])).
        { right. split; [lia|]. split; [destruct onLine; discriminate|].
          split; [apply Forall_app; split; [exact HF | now constructor]|].
          rewrite joinSp_snoc by exact Ho. now rewrite <- !app_assoc. }
        assert (HP' : Forall P ((joinSp onLine ++ space) ++ w ++ space)).
        { apply Forall_app. split; [exact Hcl | exact HPsingle]. }
        destruct (IH Hrest HPrest _ _ _ _ _ _ Hp' HP' Hl E) as [A B].
        split; [exact A|]. destruct r; [|exact B].
        intros _. apply B. destruct onLine; discriminate.
Qed.
End BestFitBreaker.

(** ** Counting a font size down *)

Ltac push_inject_Z :=
  unfold Z.sub in *;
  repeat rewrite inject_Z_plus in *;
  repeat rewrite inject_Z_opp in *;
  change (inject_Z 1) with 1 in *;
  change (inject_Z 0) with 0 in *.

Lemma Qceiling_shift (x y : Q) :
  y == x - 1 -> Qceiling y = (Qceiling x - 1)%Z.
Proof.
  intro Hy.
  pose proof (Qle_ceiling x) as Hx1. pose proof (Qceiling_lt x) as Hx2.
  pose proof (Qle_ceiling y) as Hy1. pose proof (Qceiling_lt y) as Hy2.
  assert (A : (Qceiling x - 1 < Qceiling y + 1)%Z).
  { rewrite Zlt_Qlt. push_inject_Z. lra. }
  assert (B : (Qceiling y - 1 < Qceiling x - 1)%Z).
  { rewrite Zlt_Qlt. push_inject_Z. lra. }
  lia.
Qed.

Lemma Qceiling_pos (x : Q) : 0 < x -> (0 < Qceiling x)%Z.
Proof.
  intro H. pose proof (Qle_ceiling x) as Hx.
  rewrite Zlt_Qlt. push_inject_Z. lra.
Qed.

Lemma Qceiling_nonpos (x : Q) : x <= 0 -> (Qceiling x <= 0)%Z.
Proof.
  intro H. pose proof (Qceiling_lt x) as Hx.
  assert (A : (Qceiling x - 1 < 0)%Z).
  { rewrite Zlt_Qlt. push_inject_Z. lra. }
  lia.
Qed.

(** A size above the floor costs one turn more than the next size. *)
Lemma scanFuel_step (f m : Q) :
  m < f -> scanFuel f m = S (scanFuel (f - 1) m).
Proof.
  intro H. unfold scanFuel.
  rewrite (Qceiling_shift (f - m) (f - 1 - m)) by ring.
  assert (0 < Qceiling (f - m))%Z by (apply Qceiling_pos; lra).
  lia.
Qed.

Lemma scanFuel_floor (f m : Q) : f <= m -> scanFuel f m = 0%nat.
Proof.
  intro H. unfold scanFuel.
  assert (Qceiling (f - m) <= 0)%Z by (apply Qceiling_nonpos; lra).
  lia.
Qed.

(** The budget is below [(initialSize - floor) + 1]. *)
Lemma scanFuel_bound (f m : Q) :
  scanFuel f m = 0%nat \/ ofNat (scanFuel f m) < (f - m) + 1.
Proof.
  destruct (Qlt_le_dec m f) as [H|H].
  - right. unfold scanFuel, ofNat.
    assert (Hpos : (0 < Qceiling (f - m))%Z) by (apply Qceiling_pos; lra).
    rewrite Z2Nat.id by lia.
    pose proof (Qceiling_lt (f - m)) as Hc.
    push_inject_Z. lra.
  - left. now apply scanFuel_floor.
Qed.

Lemma stepDown_value (k : nat) (f : Q) : stepDown k f == f - ofNat k.
Proof.
  revert f. induction k as [|k IH]; intro f.
  - unfold ofNat. simpl. change (inject_Z 0) with 0. ring.
  - cbn [stepDown]. rewrite IH. unfold ofNat.
    rewrite Nat2Z.inj_succ. unfold Z.succ. rewrite inject_Z_plus.
    change (inject_Z 1) with 1. ring.
Qed.

(** ** part_000, [calculateLines]: the shrinking loop *)

Section CalcLinesLoop.
Variable measure : Font -> jsstring -> Q.
Variable words : list jsstring.
Variables boxWidth boxHeight : Q.

Lemma calculateLines_eq (context : Canvas) (f : Q) :
  CalcLines.calculateLines measure context words boxWidth f =
  (setFont context (fontStringUI f),
   match calcBlock measure words boxWidth f with
   | None => None
   | Some ls =>
       Some (CalcLines.mkCalc ls (ofNat (List.length ls) * (f * 1.15))
                              (f * 1.15))
   end).
Proof.
  unfold CalcLines.calculateLines, calcBlock.
  change (CalcLines.measureText measure (setFont context (fontStringUI f)))
    with (fun s => measure (fontStringUI f) s).
  destruct (CalcLines.breakLines _ _ words); reflexivity.
Qed.

Lemma calcBlock_fits (f : Q) (ls : list jsstring) :
  calcBlock measure words boxWidth f = Some ls ->
  Forall (fun l => measure (fontStringUI f) l
                   <= CalcLines.maxWidth boxWidth) ls.
Proof.
  unfold calcBlock, CalcLines.breakLines. intro E.
  destruct (CalcLines.forWords _ _ words [] []) as [[l c]|] eqn:F;
    [|discriminate].
  injection E as <-.
  destruct (forWords_fits _ _ _ _ _ _ _ (Forall_nil _) (or_introl eq_refl) F)
    as [A B].
  apply pushIf_Forall; [exact A|].
  intro Hne. destruct B; [congruence | assumption].
Qed.

Lemma shrink_spec (fuel : nat) :
  forall context v turns,
  (scanFuel (currentFontSize v) 8 <= fuel)%nat ->
  exists context' v' turns',
    CalcLines.shrink measure fuel words boxWidth boxHeight context v turns
      = Some (context', v', turns') /\
    ShrinkPost measure words boxWidth boxHeight v turns v' turns'.
Proof.
  induction fuel as [|fuel IH]; intros context v turns Hfuel.
  - assert (Hle : currentFontSize v <= 8).
    { destruct (Qlt_le_dec 8 (currentFontSize v)) as [H|H]; [|exact H].
      rewrite (scanFuel_step _ _ H) in Hfuel. lia. }
    assert (G : Qgtb (currentFontSize v) 8 = false) by now apply Qgtb_false.
    exists context, v, turns. cbn [CalcLines.shrink]. rewrite G.
    split; [reflexivity|]. right.
    rewrite (scanFuel_floor _ _ Hle). cbn [stepDown].
    repeat split; [lia | now destruct v | exact Hle | intros j Hj; lia].
  - cbn [CalcLines.shrink].
    destruct (Qgtb (currentFontSize v) 8) eqn:G.
    + apply Qgtb_true in G.
      rewrite (scanFuel_step _ _ G) in Hfuel.
      rewrite calculateLines_eq.
      set (next := mkVars (currentFontSize v - 1) (varLines v)
                          (varLineHeight v) (totalBlockHeight v)).
      assert (Hnext : forall context0,
        ~ calcFits measure words boxWidth boxHeight (currentFontSize v) ->
        exists context' v' turns',
          CalcLines.shrink measure fuel words boxWidth boxHeight
                           context0 next (S turns)
            = Some (context', v', turns') /\
          ShrinkPost measure words boxWidth boxHeight v turns v' turns').
      { intros context0 Hno.
        destruct (IH context0 next (S turns)) as (c' & v' & t' & E & Hpost).
        { cbn [next currentFontSize]. lia. }
        exists c', v', t'. split; [exact E|].
        destruct Hpost as [(k & ls & Ht & Hf & H8 & Hb & Hv & Hfit & Hmin)
                          |(Ht & Hv & H8 & Hmin)].
        - left. exists (S k), ls. cbn [next currentFontSize] in *.
          repeat split; try assumption; [lia|].
          intros [|j] Hj; [exact Hno|]. apply Hmin. lia.
        - right. cbn [next currentFontSize varLines varLineHeight
                      totalBlockHeight] in *.
          rewrite (scanFuel_step _ _ G).
          repeat split; try assumption; [lia|].
          intros [|j] Hj; [exact Hno|]. apply Hmin. lia. }
      destruct (calcBlock measure words boxWidth (currentFontSize v)) as [ls|] eqn:B.
      * cbn [CalcLines.totalHeight CalcLines.calcLines
             CalcLines.calcLineHeight].
        destruct (Qle_bool (ofNat (List.length ls)
                            * (currentFontSize v * 1.15))
                           (CalcLines.maxHeight boxHeight)) eqn:H.
        -- apply Qle_bool_iff in H.
           eexists _, _, _. split; [reflexivity|].
           left. exists 0%nat, ls. cbn [stepDown currentFontSize].
           assert (Hfit : calcFits measure words boxWidth boxHeight (currentFontSize v)).
           { exists ls. repeat split; try assumption.
             now apply calcBlock_fits. }
           repeat split; try assumption; [lia|].
           intros j Hj. lia.
        -- apply Hnext. intros (ls' & B' & _ & Hh).
           rewrite B in B'. injection B' as <-.
           apply Qle_bool_iff in Hh. congruence.
      * apply Hnext. intros (ls' & B' & _). congruence.
    + apply Qgtb_false in G.
      exists context, v, turns. split; [reflexivity|]. right.
      rewrite (scanFuel_floor _ _ G). cbn [stepDown].
      repeat split; [lia | now destruct v | exact G | intros j Hj; lia].
Qed.

(** The loop only re-pins the font: nothing is painted, nothing saved. *)
Lemma shrink_canvas (fuel : nat) :
  forall context v turns context' v' turns',
  CalcLines.shrink measure fuel words boxWidth boxHeight context v turns
    = Some (context', v', turns') ->
  painted context' = painted context /\ stack context' = stack context.
Proof.
  induction fuel as [|fuel IH]; intros context v turns context' v' turns' E;
    cbn [CalcLines.shrink] in E.
  - destruct (Qgtb (currentFontSize v) 8); [discriminate|].
    injection E as <- _ _. auto.
  - destruct (Qgtb (currentFontSize v) 8).
    + rewrite calculateLines_eq in E.
      destruct (calcBlock measure words boxWidth (currentFontSize v)) as [ls|].
      * destruct (Qle_bool _ _).
        -- injection E as <- _ _. auto.
        -- apply IH in E. exact E.
      * apply IH in E. exact E.
    + injection E as <- _ _. auto.
Qed.

(** The variables and the turn count that the loop ends with do not
    depend on the context the loop was entered with. *)
Lemma shrink_context (fuel : nat) :
  forall context1 context2 v turns,
  option_map (fun r => (snd (fst r), snd r))
    (CalcLines.shrink measure fuel words boxWidth boxHeight
                      context1 v turns) =
  option_map (fun r => (snd (fst r), snd r))
    (CalcLines.shrink measure fuel words boxWidth boxHeight
                      context2 v turns).
Proof.
  induction fuel as [|fuel IH]; intros context1 context2 v turns;
    cbn [CalcLines.shrink].
  - destruct (Qgtb (currentFontSize v) 8); reflexivity.
  - destruct (Qgtb (currentFontSize v) 8); [|reflexivity].
    rewrite !calculateLines_eq.
    destruct (calcBlock measure words boxWidth (currentFontSize v)) as [ls|].
    + destruct (Qle_bool _ _); [reflexivity | apply IH].
    + apply IH.
Qed.
End CalcLinesLoop.

(** ** part_000, [findBestFit]: the shrinking loops *)

Section BestFitLoop.
Variable measure : Font -> jsstring -> Q.
Variable words : list jsstring.
Variables boxWidth boxHeight : Q.
Variable P : ascii -> Prop.
Hypothesis P_space : P " "%char.
Hypothesis words_ok : Forall wordOk words.
Hypothesis words_P : Forall (Forall P) words.
Hypothesis words_some : words <> [].

Lemma findBestFit_spec (fuel : nat) :
  forall context v passes,
  (scanFuel (currentFontSize v) 6 <= fuel)%nat ->
  Forall (lineOf P) (varLines v) ->
  exists b context' v' passes',
    BestFit.findBestFit measure fuel words boxWidth boxHeight
                        context v passes
      = Some (b, context', v', passes') /\
    Forall (lineOf P) (varLines v') /\
    (passes' <= passes + scanFuel (currentFontSize v) 6)%nat /\
    (b = false ->
     (passes' + scanFuel (currentFontSize v') 6
      <= passes + scanFuel (currentFontSize v) 6)%nat /\
     (scanFuel (currentFontSize v') 6
      < scanFuel (currentFontSize v) 6)%nat) /\
    (b = true -> BestFitDone words boxHeight v') /\
    painted context' = painted context /\ stack context' = stack context.
Proof.
  assert (Hidle : forall context v passes,
    currentFontSize v <= 6 -> Forall (lineOf P) (varLines v) ->
    Forall (lineOf P) (varLines v) /\
    (passes <= passes + scanFuel (currentFontSize v) 6)%nat /\
    (true = false ->
     (passes + scanFuel (currentFontSize v) 6
      <= passes + scanFuel (currentFontSize v) 6)%nat /\
     (scanFuel (currentFontSize v) 6
      < scanFuel (currentFontSize v) 6)%nat) /\
    (true = true -> BestFitDone words boxHeight v) /\
    painted context = painted context /\ stack context = stack context).
  { intros context v passes Hle Hlines.
    refine (conj Hlines (conj _ (conj _ (conj _ (conj eq_refl eq_refl))))).
    - lia.
    - discriminate.
    - intros _ H6. exfalso. exact (Qlt_not_le _ _ H6 Hle). }
  induction fuel as [|fuel IH]; intros context v passes Hfuel Hlines;
    cbn [BestFit.findBestFit].
  - assert (Hle : currentFontSize v <= 6).
    { destruct (Qlt_le_dec 6 (currentFontSize v)) as [H|H]; [|exact H].
      rewrite (scanFuel_step _ _ H) in Hfuel. lia. }
    assert (G : Qgtb (currentFontSize v) 6 = false) by now apply Qgtb_false.
    rewrite G. exists true, context, v, passes.
    split; [reflexivity | now apply Hidle].
  - destruct (Qgtb (currentFontSize v) 6) eqn:G.
    + apply Qgtb_true in G.
      pose proof (scanFuel_step _ _ G) as Hstep.
      rewrite Hstep in Hfuel.
      set (ctx := setFont context (fontStringUI (currentFontSize v))).
      destruct (BestFit.forWords (BestFit.measureText measure ctx)
                  (BestFit.maxWidth boxWidth) 0 words [] [])
        as [ls [cur|]] eqn:F.
      * pose proof (bestFit_forWords_lines _ _ P words P_space words_ok
                      words_P 0 [] [] [] ls (Some cur)
                      (or_introl (conj eq_refl (conj eq_refl eq_refl)))
                      (Forall_nil _) (Forall_nil _) F) as [A B].
        cbn [app] in B. specialize (B words_some).
        assert (Hls : Forall (lineOf P) (ls ++ [trim cur])).
        { apply Forall_app. split; [exact A|].
          constructor; [exact B | constructor]. }
        destruct (Qle_bool (ofNat (List.length (ls ++ [trim cur]))
                            * (currentFontSize v * 1.15))
                           (BestFit.maxHeight boxHeight)) eqn:H.
        -- eexists true, ctx, _, _. split; [reflexivity|].
           cbn [varLines currentFontSize].
           refine (conj Hls (conj _ (conj _ (conj _
                     (conj eq_refl eq_refl))))).
           ++ lia.
           ++ discriminate.
           ++ intros _ _.
              cbn [varLines varLineHeight totalBlockHeight currentFontSize].
              refine (conj _ (conj eq_refl (conj eq_refl _))).
              ** apply (bestFit_forWords_join _ _ words words_ok
                          0 [] [] [] ls cur) in F.
                 --- exact F.
                 --- left. auto.
                 --- exact words_some.
              ** now apply Qle_bool_iff in H.
        -- set (next := mkVars (currentFontSize v - 1) (ls ++ [trim cur])
                          (currentFontSize v * 1.15)
                          (ofNat (List.length (ls ++ [trim cur]))
                           * (currentFontSize v * 1.15))).
           destruct (IH ctx next (S passes))
             as (b & c' & v' & p' & E & L & Hp & Hf & Ht & Hpa & Hst).
           { cbn [next currentFontSize]. lia. }
           { exact Hls. }
           exists b, c', v', p'. cbn [next currentFontSize] in *.
           split; [exact E|].
           refine (conj L (conj _ (conj _ (conj Ht (conj Hpa Hst))))).
           ++ lia.
           ++ intro Hb. destruct (Hf Hb). lia.
      * pose proof (bestFit_forWords_lines _ _ P words P_space words_ok
                      words_P 0 [] [] [] ls None
                      (or_introl (conj eq_refl (conj eq_refl eq_refl)))
                      (Forall_nil _) (Forall_nil _) F) as [A B].
        eexists false, ctx, _, _. split; [reflexivity|].
        cbn [varLines currentFontSize].
        refine (conj A (conj _ (conj _ (conj _ (conj eq_refl eq_refl))))).
        ++ lia.
        ++ intros _. rewrite Hstep. lia.
        ++ discriminate.
    + apply Qgtb_false in G.
      exists true, context, v, passes.
      split; [reflexivity | now apply Hidle].
Qed.

Lemma retry_spec (fuel : nat) :
  forall context v passes,
  (scanFuel (currentFontSize v) 6 < fuel)%nat ->
  Forall (lineOf P) (varLines v) ->
  exists context' v' passes',
    BestFit.retry measure fuel words boxWidth boxHeight context v passes
      = Some (context', v', passes') /\
    Forall (lineOf P) (varLines v') /\
    (passes' <= passes + scanFuel (currentFontSize v) 6)%nat /\
    BestFitDone words boxHeight v' /\
    painted context' = painted context /\ stack context' = stack context.
Proof.
  induction fuel as [|fuel IH]; intros context v passes Hfuel Hlines;
    [lia|].
  cbn [BestFit.retry].
  destruct (findBestFit_spec (scanFuel (currentFontSize v) 6)
              context v passes (Nat.le_refl _) Hlines)
    as (b & c' & v' & p' & E & L & Hp & Hf & Ht & Hpa & Hst).
  rewrite E. destruct b.
  - exists c', v', p'.
    exact (conj eq_refl (conj L (conj Hp (conj (Ht eq_refl)
             (conj Hpa Hst))))).
  - destruct (Hf eq_refl) as [Hf1 Hf2].
    destruct (IH c' v' p')
      as (c2 & v2 & p2 & E2 & L2 & Hp2 & Hd2 & Hpa2 & Hst2);
      [lia | exact L|].
    exists c2, v2, p2.
    refine (conj E2 (conj L2 (conj _ (conj Hd2 (conj _ _))))).
    + lia.
    + congruence.
    + congruence.
Qed.
End BestFitLoop.

(** ** Painting *)

Lemma ofNat_S (n : nat) : ofNat (S n) == ofNat n + 1.
Proof.
  unfold ofNat. rewrite Nat2Z.inj_succ. unfold Z.succ.
  rewrite inject_Z_plus. reflexivity.
Qed.

Lemma paintLines_spec (ls : list jsstring) :
  forall cv index centerX startY lh,
  paintLines cv ls index centerX startY lh =
  mkCanvas (state cv) (stack cv)
           (painted cv ++ lineOps (state cv) ls index centerX startY lh).
Proof.
  induction ls as [|l rest IH]; intros cv index centerX startY lh;
    cbn [paintLines lineOps].
  - rewrite app_nil_r. now destruct cv.
  - rewrite IH. cbn [fillText state stack painted].
    now rewrite <- app_assoc.
Qed.

Lemma lineOps_length (st : DrawState) (ls : list jsstring) :
  forall index centerX startY lh,
  List.length (lineOps st ls index centerX startY lh) = List.length ls.
Proof.
  induction ls as [|l rest IH]; intros; cbn [lineOps List.length];
    [reflexivity | now rewrite IH].
Qed.

Lemma lineOps_nth (st : DrawState) (ls : list jsstring) :
  forall index centerX startY lh i op,
  nth_error (lineOps st ls index centerX startY lh) i = Some op ->
  nth_error ls i = Some (ftText op) /\
  ftX op = centerX /\ ftY op = startY + ofNat (index + i) * lh /\
  ftState op = st.
Proof.
  induction ls as [|l rest IH]; intros index centerX startY lh i op E;
    cbn [lineOps] in E.
  - destruct i; discriminate.
  - destruct i as [|i]; cbn [nth_error] in *.
    + injection E as <-. rewrite Nat.add_0_r. now cbn.
    + apply IH in E. rewrite Nat.add_succ_r. exact E.
Qed.

Lemma lineOps_last (st : DrawState) (rest : list jsstring) :
  forall l index centerX startY lh d,
  exists t,
    last (lineOps st (l :: rest) index centerX startY lh) d =
    mkFillText t centerX
               (startY + ofNat (index + List.length rest) * lh) st.
Proof.
  induction rest as [|l' rest IH]; intros l index centerX startY lh d.
  - exists l. cbn. now rewrite Nat.add_0_r.
  - destruct (IH l' (S index) centerX startY lh d) as [t Ht].
    exists t. cbn [List.length].
    rewrite Nat.add_succ_r, <- Nat.add_succ_l, <- Ht. reflexivity.
Qed.

(** Lines painted centre-aligned from [startY], one line height apart,
    form a block centred on [centerY], for both baselines in use. *)
Lemma lineOps_centered (st : DrawState) (ls : list jsstring)
                       (centerX centerY startY lh total : Q) :
  textAlign st = AlignCenter ->
  total == ofNat (List.length ls) * lh ->
  (textBaseline st = BaseTop /\ startY == centerY - total / 2) \/
  (textBaseline st = BaseMiddle /\ startY == centerY - total / 2 + lh / 2) ->
  Centered (lineOps st ls 0 centerX startY lh) ls centerX centerY startY lh.
Proof.
  intros Ha Ht Hb. split; [apply lineOps_length|]. split.
  - intros i op E. apply lineOps_nth in E.
    destruct E as (E1 & E2 & E3 & E4). split; [exact E1|].
    split; [rewrite E3; reflexivity|].
    intro w. unfold hMid. rewrite E4, Ha, E2. reflexivity.
  - intro Hne. destruct ls as [|l rest]; [congruence|].
    destruct (lineOps_last st rest l 0 centerX startY lh
                (mkFillText l centerX (startY + ofNat 0 * lh) st)) as [t Hl].
    cbn [List.length] in Ht. rewrite ofNat_S in Ht.
    unfold blockMid. cbn [lineOps]. cbn [lineOps] in Hl. rewrite Hl.
    unfold lineBottom, lineTop.
    cbn [ftState ftY Nat.add].
    change (ofNat 0) with 0.
    destruct Hb as [[Hb Hs]|[Hb Hs]]; rewrite Hb;
      eexists; (split; [reflexivity|]); rewrite Hs, Ht; field.
Qed.

(** ** The wrappers as a whole *)


Lemma lineOf_upper (l : jsstring) :
  lineOf upperUnit l -> l <> [] /\ isUpper l.
Proof.
  intros [Hne H]. split; [exact Hne | now apply isUpper_Forall].
Qed.


Lemma caption_words_nonempty (rawText : jsstring) :
  captionText rawText <> [] ->
  Forall (fun w => w <> []) (split_ws (captionText rawText)).
Proof.
  intro Hne. destruct (caption_words rawText Hne) as [A _].
  eapply Forall_impl; [|exact A]. intros w [H _]. exact H.
Qed.

Section Wrappers.
Variable measure : Font -> jsstring -> Q.

Lemma appTsx_layout_blank (context : Canvas) (rawText : jsstring)
                          (boxWidth fSize : Q) :
  captionText rawText = [] ->
  AppTsx.layout measure context rawText boxWidth fSize = (context, None).
Proof.
  intro H. unfold AppTsx.layout. fold (captionText rawText).
  now rewrite H.
Qed.

Lemma appTsx_layout_some (context : Canvas) (rawText : jsstring)
                         (boxWidth fSize : Q) :
  captionText rawText <> [] ->
  AppTsx.layout measure context rawText boxWidth fSize =
  (setFont context (AppTsx.fontString fSize),
   Some (mkFit fSize
           (AppTsx.breakLines (measure (AppTsx.fontString fSize))
              (AppTsx.targetMaxWidth boxWidth)
              (split_ws (captionText rawText)))
           (fSize * 1.15)
           (ofNat (List.length
                     (AppTsx.breakLines (measure (AppTsx.fontString fSize))
                        (AppTsx.targetMaxWidth boxWidth)
                        (split_ws (captionText rawText))))
            * (fSize * 1.15)))).
Proof.
  intro H. unfold AppTsx.layout. fold (captionText rawText).
  apply truthy_true in H. rewrite H. reflexivity.
Qed.

Lemma appTsx_wrapText_painted (context : Canvas) (rawText : jsstring)
      (centerX centerY boxWidth boxHeight fSize : Q)
      (context' : Canvas) (r : FitResult) :
  AppTsx.layout measure context rawText boxWidth fSize
    = (context', Some r) ->
  exists st,
    textAlign st = AlignCenter /\ textBaseline st = BaseMiddle /\
    font st = AppTsx.fontString fSize /\
    painted (AppTsx.wrapText measure context rawText centerX centerY
                             boxWidth boxHeight fSize) =
    painted context ++
    lineOps st (lines r) 0 centerX (AppTsx.startY centerY r) (lineHeight r).
Proof.
  intro E. unfold AppTsx.wrapText. rewrite E.
  assert (Hp : painted context' = painted context).
  { unfold AppTsx.layout in E.
    destruct (negb (truthy (toUpperCase (trim rawText))));
      [discriminate|].
    now injection E as <- _. }
  rewrite paintLines_spec. eexists.
  split; [|split; [|split]].
  4: { unfold restore.
       cbn [stack clipRect withState save state painted
            setFont setFillStyle setTextBaseline setTextAlign].
       rewrite Hp. reflexivity. }
  all: reflexivity.
Qed.

Lemma calcLines_fit_blank (context : Canvas) (rawText : jsstring)
                          (boxWidth boxHeight size : Q) :
  captionText rawText = [] ->
  CalcLines.fit measure context rawText boxWidth boxHeight size
    = Some (context, None).
Proof.
  intro H. unfold CalcLines.fit. fold (captionText rawText).
  now rewrite H.
Qed.

Lemma calcLines_fit_some (context : Canvas) (rawText : jsstring)
                         (boxWidth boxHeight size : Q) :
  captionText rawText <> [] ->
  exists context' v turns,
    CalcLines.fit measure context rawText boxWidth boxHeight size
      = Some (context', Some (v, turns)) /\
    ShrinkPost measure (split_ws (captionText rawText)) boxWidth boxHeight
               (initVars size) 0 v turns /\
    painted context' = painted context /\ stack context' = stack context.
Proof.
  intro H. unfold CalcLines.fit. fold (captionText rawText).
  apply truthy_true in H. rewrite H. cbn [negb].
  destruct (shrink_spec measure (split_ws (captionText rawText))
              boxWidth boxHeight (scanFuel size 8) context
              (initVars size) 0 (Nat.le_refl _))
    as (c' & v' & t' & E & Hpost).
  rewrite E. exists c', v', t'. split; [reflexivity|].
  split; [exact Hpost|]. eapply shrink_canvas. exact E.
Qed.

Lemma calcLines_wrapText_painted (context : Canvas) (rawText : jsstring)
      (centerX centerY boxWidth boxHeight size : Q)
      (context' : Canvas) (v : FitVars) (turns : nat) :
  CalcLines.fit measure context rawText boxWidth boxHeight size
    = Some (context', Some (v, turns)) ->
  exists st c,
    textAlign st = AlignCenter /\ textBaseline st = BaseTop /\
    CalcLines.wrapText measure context rawText centerX centerY
                       boxWidth boxHeight size = Some c /\
    painted c =
    painted context ++
    lineOps st (varLines v) 0 centerX (centerY - totalBlockHeight v / 2)
            (varLineHeight v).
Proof.
  intro E. unfold CalcLines.wrapText. rewrite E.
  assert (Hp : painted context' = painted context).
  { unfold CalcLines.fit in E.
    destruct (negb (truthy (toUpperCase (trim rawText))));
      [discriminate|].
    destruct (CalcLines.shrink _ _ _ _ _ _ _ _) as [[[c0 v0] t0]|] eqn:S0;
      [|discriminate].
    injection E as <- _ _. eapply shrink_canvas. exact S0. }
  unfold CalcLines.paint.
  destruct (varLines v) as [|l rest] eqn:L.
  - cbn [List.length Nat.eqb].
    exists (mkDrawState (font defaultState) AlignCenter BaseTop
                        "#000000" []), context'.
    split; [reflexivity|]. split; [reflexivity|]. split; [reflexivity|].
    cbn [lineOps]. rewrite app_nil_r. exact Hp.
  - cbn [List.length Nat.eqb]. rewrite paintLines_spec.
    eexists _, _.
    split; [|split; [|split; [reflexivity|]]].
    3: { unfold restore.
         cbn [stack clipRect withState save state painted
              setFont setFillStyle setTextBaseline setTextAlign].
         rewrite Hp. reflexivity. }
    all: reflexivity.
Qed.
End Wrappers.

Section BestFitWrapper.
Variable measure : Font -> jsstring -> Q.

Lemma bestFit_fit_blank (context : Canvas) (rawText : jsstring)
                        (boxWidth boxHeight size : Q) :
  captionText rawText = [] ->
  BestFit.fit measure context rawText boxWidth boxHeight size
    = Some (context, None).
Proof.
  intro H. unfold BestFit.fit. fold (captionText rawText).
  rewrite H. reflexivity.
Qed.

Lemma bestFit_fit_some (context : Canvas) (rawText : jsstring)
                       (boxWidth boxHeight size : Q) :
  captionText rawText <> [] ->
  exists context' v passes,
    BestFit.fit measure context rawText boxWidth boxHeight size
      = Some (context', Some (v, passes)) /\
    Forall (lineOf upperUnit) (varLines v) /\
    (passes <= scanFuel size 6)%nat /\
    BestFitDone (split_ws (captionText rawText)) boxHeight v /\
    painted context' = painted context.
Proof.
  intro H. unfold BestFit.fit. fold (captionText rawText).
  pose proof (caption_words_nonnil rawText) as Hnn.
  destruct (caption_words rawText H) as [Hw Hu].
  assert (HP : Forall (Forall upperUnit) (split_ws (captionText rawText))).
  { eapply Forall_impl; [|exact Hu]. intros w. apply isUpper_Forall. }
  destruct (split_ws (captionText rawText)) as [|w0 ws] eqn:Ew;
    [congruence|].
  apply truthy_true in H. rewrite H.
  cbn [List.length Nat.eqb orb negb].
  destruct (retry_spec measure (w0 :: ws) boxWidth boxHeight upperUnit
              eq_refl Hw HP Hnn (S (scanFuel size 6)) context
              (initVars size) 0)
    as (c' & v' & p' & E & L & Hp & Hd & Hpa & _).
  { cbn [initVars currentFontSize]. lia. }
  { constructor. }
  rewrite E. exists c', v', p'.
  cbn [initVars currentFontSize] in Hp.
  refine (conj eq_refl (conj L (conj Hp (conj Hd Hpa)))).
Qed.
End BestFitWrapper.


(** ** Where the code units of a line come from *)











(* ================================================================== *)
(** * Part III. The claims                                             *)
(* ================================================================== *)

(** C5. When every word fits the usable width at the font size in use,
    the line breakers of App.tsx and of [calculateLines] are the greedy
    rule: the candidate [currentLine + " " + word] (the word alone on an
    empty line) becomes the current line when it fits, otherwise the
    current line is closed and the word starts a new one.  No word is
    split. *)
Theorem C5_greedy_rule (width : jsstring -> Q) (W : Q)
                       (words : list jsstring) :
  Forall (fun w => width w <= W) words ->
  AppTsx.breakLines width W words = greedy width W words /\
  AppTsx.splitTriggered width W words = false /\
  CalcLines.breakLines width W words = Some (greedy width W words).
Proof.
  intro Hfit. split; [|split].
  - destruct (wrapWords_greedy width W words Hfit [] [] false)
      as (l & c & E & H).
    unfold AppTsx.breakLines, AppTsx.breakLinesFlag. rewrite E.
    exact H.
  - destruct (wrapWords_greedy width W words Hfit [] [] false)
      as (l & c & E & H).
    unfold AppTsx.splitTriggered, AppTsx.breakLinesFlag. now rewrite E.
  - destruct (forWords_greedy width W words Hfit [] []) as (l & c & E & H).
    unfold CalcLines.breakLines. rewrite E. now rewrite H.
Qed.

Lemma C5_greedy_rule_witness :
  Forall (fun w => sampleWidth w <= 100) sampleWords /\
  AppTsx.breakLines sampleWidth 100 sampleWords
    = greedy sampleWidth 100 sampleWords /\
  AppTsx.splitTriggered sampleWidth 100 sampleWords = false /\
  CalcLines.breakLines sampleWidth 100 sampleWords
    = Some (greedy sampleWidth 100 sampleWords).
Proof.
  assert (Hfit : Forall (fun w => sampleWidth w <= 100) sampleWords).
  { repeat (constructor; [vm_compute; discriminate|]). constructor. }
  split; [exact Hfit | exact (C5_greedy_rule _ _ _ Hfit)].
Defined.

Example greedy_sample :
  greedy sampleWidth 100 sampleWords = [str "ONE DOES"; str "NOT SIMPLY"].
Proof. vm_compute. reflexivity. Qed.

(** C6. Layout of a fit.  In App.tsx (baseline in the middle of the line)
    and in the [calculateLines] revision (baseline on top), the block
    height is [lines.length * lineHeight], line [i] is painted at
    [startY + i * lineHeight] with [startY = centerY - blockHeight / 2]
    (plus [lineHeight / 2] for the middle baseline), every line is
    centre-aligned on [centerX], and the vertical midpoint of the block is
    [centerY]. *)
Theorem C6_block_centered (measure : Font -> jsstring -> Q)
    (context : Canvas) (rawText : jsstring)
    (centerX centerY boxWidth boxHeight size : Q) :
  (forall context' r,
     AppTsx.layout measure context rawText boxWidth size
       = (context', Some r) ->
     blockHeight r = ofNat (List.length (lines r)) * lineHeight r /\
     exists ops,
       painted (AppTsx.wrapText measure context rawText centerX centerY
                                boxWidth boxHeight size)
         = painted context ++ ops /\
       Centered ops (lines r) centerX centerY
                (centerY - blockHeight r / 2 + lineHeight r / 2)
                (lineHeight r)) /\
  (forall context' v turns,
     CalcLines.fit measure context rawText boxWidth boxHeight size
       = Some (context', Some (v, turns)) ->
     totalBlockHeight v == ofNat (List.length (varLines v)) * varLineHeight v /\
     exists c ops,
       CalcLines.wrapText measure context rawText centerX centerY
                          boxWidth boxHeight size = Some c /\
       painted c = painted context ++ ops /\
       Centered ops (varLines v) centerX centerY
                (centerY - totalBlockHeight v / 2) (varLineHeight v)).
Proof.
  split.
  - intros context' r E.
    assert (Hh : blockHeight r = ofNat (List.length (lines r)) * lineHeight r).
    { unfold AppTsx.layout in E.
      destruct (negb (truthy (toUpperCase (trim rawText)))); [discriminate|].
      injection E as _ <-. reflexivity. }
    split; [exact Hh|].
    destruct (appTsx_wrapText_painted measure context rawText centerX centerY
                boxWidth boxHeight size context' r E)
      as (st & Ha & Hb & _ & Hp).
    eexists. split; [exact Hp|].
    apply (lineOps_centered st (lines r) centerX centerY _ _ (blockHeight r)).
    + exact Ha.
    + rewrite Hh. reflexivity.
    + right. split; [exact Hb | reflexivity].
  - intros context' v turns E.
    assert (Hh : totalBlockHeight v
                 == ofNat (List.length (varLines v)) * varLineHeight v).
    { assert (Hne : captionText rawText <> []).
      { intro Hb.
        rewrite (calcLines_fit_blank measure context rawText boxWidth
                   boxHeight size Hb) in E. discriminate. }
      destruct (calcLines_fit_some measure context rawText boxWidth boxHeight
                  size Hne) as (c' & v' & t' & E' & Hpost & _).
      rewrite E in E'. injection E' as _ <- _.
      destruct Hpost as [(k & ls & _ & _ & _ & _ & Hv & _)|(_ & Hv & _)];
        rewrite Hv; cbn [totalBlockHeight varLines varLineHeight initVars];
        reflexivity. }
    split; [exact Hh|].
    destruct (calcLines_wrapText_painted measure context rawText centerX
                centerY boxWidth boxHeight size context' v turns E)
      as (st & c & Ha & Hb & Hw & Hp).
    exists c. eexists. split; [exact Hw|]. split; [exact Hp|].
    apply (lineOps_centered st (varLines v) centerX centerY _ _
             (totalBlockHeight v)).
    + exact Ha.
    + exact Hh.
    + left. split; [exact Hb | reflexivity].
Qed.

Lemma C6_block_centered_witness :
  (exists context' r,
     AppTsx.layout monoMeasure freshCanvas sampleCaption 500 40
       = (context', Some r) /\
     blockHeight r = ofNat (List.length (lines r)) * lineHeight r /\
     exists ops,
       painted (AppTsx.wrapText monoMeasure freshCanvas sampleCaption
                                750 250 500 500 40)
         = painted freshCanvas ++ ops /\
       Centered ops (lines r) 750 250
                (250 - blockHeight r / 2 + lineHeight r / 2) (lineHeight r)) /\
  (exists context' v turns,
     CalcLines.fit monoMeasure freshCanvas sampleCaption 500 500 40
       = Some (context', Some (v, turns)) /\
     totalBlockHeight v == ofNat (List.length (varLines v)) * varLineHeight v /\
     exists c ops,
       CalcLines.wrapText monoMeasure freshCanvas sampleCaption
                          750 250 500 500 40 = Some c /\
       painted c = painted freshCanvas ++ ops /\
       Centered ops (varLines v) 750 250
                (250 - totalBlockHeight v / 2) (varLineHeight v)).
Proof.
  split.
  - eexists _, _.
    assert (E : AppTsx.layout monoMeasure freshCanvas sampleCaption 500 40
                = (_, Some _)) by (vm_compute; reflexivity).
    split; [exact E|].
    exact (proj1 (C6_block_centered monoMeasure freshCanvas sampleCaption
                    750 250 500 500 40) _ _ E).
  - eexists _, _, _.
    assert (E : CalcLines.fit monoMeasure freshCanvas sampleCaption 500 500 40
                = Some (_, Some (_, _))) by (vm_compute; reflexivity).
    split; [exact E|].
    exact (proj2 (C6_block_centered monoMeasure freshCanvas sampleCaption
                    750 250 500 500 40) _ _ _ E).
Defined.

(** C8. The fit does not depend on the state the drawing context is in
    when [wrapText] is entered: two calls with the same text, box and
    size give the same font size, lines, line height and block height,
    whatever font or stack the context carried before. *)
Theorem C8_fit_deterministic (measure : Font -> jsstring -> Q)
    (context1 context2 : Canvas) (rawText : jsstring)
    (boxWidth boxHeight size : Q) :
  snd (AppTsx.layout measure context1 rawText boxWidth size)
    = snd (AppTsx.layout measure context2 rawText boxWidth size) /\
  option_map snd
    (CalcLines.fit measure context1 rawText boxWidth boxHeight size)
    = option_map snd
        (CalcLines.fit measure context2 rawText boxWidth boxHeight size).
Proof.
  split.
  - unfold AppTsx.layout.
    destruct (negb (truthy (toUpperCase (trim rawText)))); reflexivity.
  - unfold CalcLines.fit.
    destruct (negb (truthy (toUpperCase (trim rawText)))); [reflexivity|].
    pose proof (shrink_context measure
                  (split_ws (toUpperCase (trim rawText))) boxWidth boxHeight
                  (scanFuel size 8) context1 context2 (initVars size) 0) as H.
    destruct (CalcLines.shrink measure (scanFuel size 8) _ _ _ context1 _ _)
      as [[[c1 v1] t1]|];
    destruct (CalcLines.shrink measure (scanFuel size 8) _ _ _ context2 _ _)
      as [[[c2 v2] t2]|];
      cbn in H; try discriminate; [|reflexivity].
    injection H as -> ->. reflexivity.
Qed.



(** C10. When the greedy wrap succeeds without forced splitting, the
    lines joined by single spaces are the normalized caption (trimmed,
    upper-cased, white space collapsed): no word is lost, doubled or
    moved.  Success means: in App.tsx, [pushLineWithWordSplit] did not
    run; in the [calculateLines] revision, the loop found lines; in the
    [findBestFit] revision, [findBestFit] returned from inside its loop,
    with a size still above 6. *)
Theorem C10_lines_hold_caption (measure : Font -> jsstring -> Q)
    (context : Canvas) (rawText : jsstring) (boxWidth boxHeight size : Q) :
  (forall context' r,
     AppTsx.layout measure context rawText boxWidth size
       = (context', Some r) ->
     AppTsx.splitTriggered (measure (AppTsx.fontString size))
       (AppTsx.targetMaxWidth boxWidth) (split_ws (captionText rawText))
       = false ->
     joinSp (lines r) = normalize rawText) /\
  (forall context' v turns,
     CalcLines.fit measure context rawText boxWidth boxHeight size
       = Some (context', Some (v, turns)) ->
     varLines v <> [] ->
     joinSp (varLines v) = normalize rawText) /\
  (forall context' v passes,
     BestFit.fit measure context rawText boxWidth boxHeight size
       = Some (context', Some (v, passes)) ->
     6 < currentFontSize v ->
     joinSp (varLines v) = normalize rawText).
Proof.
  split; [|split].
  - intros context' r E Hflag.
    assert (Hne : captionText rawText <> []).
    { intro Hb.
      rewrite (appTsx_layout_blank measure context rawText boxWidth size Hb)
        in E. discriminate. }
    rewrite (appTsx_layout_some measure context rawText boxWidth size Hne)
      in E.
    injection E as _ <-. cbn [lines].
    unfold AppTsx.splitTriggered in Hflag.
    unfold AppTsx.breakLines, AppTsx.breakLinesFlag in *.
    destruct (AppTsx.wrapWords _ _ (split_ws (captionText rawText)) [] [] false)
      as [[l c] b] eqn:W. cbn [fst snd] in *. subst b.
    rewrite (wrapWords_join _ _ _ (caption_words_nonempty rawText Hne)
               _ _ _ _ _ W).
    rewrite pushIf_nil. cbn [app]. apply joinSp_split_ws.
  - intros context' v turns E Hlines.
    assert (Hne : captionText rawText <> []).
    { intro Hb.
      rewrite (calcLines_fit_blank measure context rawText boxWidth
                 boxHeight size Hb) in E. discriminate. }
    destruct (calcLines_fit_some measure context rawText boxWidth boxHeight
                size Hne) as (c' & v' & t' & E' & Hpost & _).
    rewrite E in E'. injection E' as _ <- _.
    destruct Hpost as [(k & ls & _ & _ & _ & Hb & Hv & _)|(_ & Hv & _)].
    + rewrite Hv. cbn [varLines].
      unfold calcBlock, CalcLines.breakLines in Hb.
      destruct (CalcLines.forWords _ _ (split_ws (captionText rawText)) [] [])
        as [[l c]|] eqn:F; [|discriminate].
      injection Hb as <-.
      rewrite (forWords_join _ _ _ (caption_words_nonempty rawText Hne)
                 _ _ _ _ F).
      rewrite pushIf_nil. cbn [app]. apply joinSp_split_ws.
    + rewrite Hv in Hlines. cbn [varLines initVars] in Hlines. congruence.
  - intros context' v passes E H6.
    assert (Hne : captionText rawText <> []).
    { intro Hb.
      rewrite (bestFit_fit_blank measure context rawText boxWidth boxHeight
                 size Hb) in E. discriminate. }
    destruct (bestFit_fit_some measure context rawText boxWidth boxHeight
                size Hne) as (c' & v' & p' & E' & _ & _ & Hd & _).
    rewrite E in E'. injection E' as _ <- _.
    destruct (Hd H6) as [Hj _]. rewrite Hj. apply joinSp_split_ws.
Qed.

Lemma C10_lines_hold_caption_witness :
  (exists context' r,
     AppTsx.layout monoMeasure freshCanvas sampleCaption 500 40
       = (context', Some r) /\
     AppTsx.splitTriggered (monoMeasure (AppTsx.fontString 40))
       (AppTsx.targetMaxWidth 500) (split_ws (captionText sampleCaption))
       = false /\
     joinSp (lines r) = normalize sampleCaption) /\
  (exists context' v turns,
     CalcLines.fit monoMeasure freshCanvas sampleCaption 500 500 40
       = Some (context', Some (v, turns)) /\
     varLines v <> [] /\
     joinSp (varLines v) = normalize sampleCaption) /\
  (exists context' v passes,
     BestFit.fit monoMeasure freshCanvas sampleCaption 500 500 40
       = Some (context', Some (v, passes)) /\
     6 < currentFontSize v /\
     joinSp (varLines v) = normalize sampleCaption).
Proof.
  split; [|split].
  - eexists _, _.
    assert (E : AppTsx.layout monoMeasure freshCanvas sampleCaption 500 40
                = (_, Some _)) by (vm_compute; reflexivity).
    assert (F : AppTsx.splitTriggered (monoMeasure (AppTsx.fontString 40))
                  (AppTsx.targetMaxWidth 500)
                  (split_ws (captionText sampleCaption)) = false)
      by (vm_compute; reflexivity).
    split; [exact E|]. split; [exact F|].
    exact (proj1 (C10_lines_hold_caption monoMeasure freshCanvas
                    sampleCaption 500 500 40) _ _ E F).
  - eexists _, _, _.
    assert (E : CalcLines.fit monoMeasure freshCanvas sampleCaption 500 500 40
                = Some (_, Some (_, _))) by (vm_compute; reflexivity).
    assert (L : [str "ONE DOES NOT"; str "SIMPLY"] <> [])
      by discriminate.
    split; [exact E|]. split; [exact L|].
    exact (proj1 (proj2 (C10_lines_hold_caption monoMeasure freshCanvas
                           sampleCaption 500 500 40)) _ _ _ E L).
  - eexists _, _, _.
    assert (E : BestFit.fit monoMeasure freshCanvas sampleCaption 500 500 40
                = Some (_, Some (_, _))) by (vm_compute; reflexivity).
    assert (H6 : 6 < 40) by (vm_compute; reflexivity).
    split; [exact E|]. split; [exact H6|].
    exact (proj2 (proj2 (C10_lines_hold_caption monoMeasure freshCanvas
                           sampleCaption 500 500 40)) _ _ _ E H6).
Defined.

(** ** Over-wide words *)

(** With the fixed-pitch font a string is never narrower than one of its
    suffixes. *)
Lemma monoMeasure_suffix (f : Font) (p w : jsstring) :
  0 <= fontPx f -> monoMeasure f w <= monoMeasure f (p ++ w).
Proof.
  intro Hf. unfold monoMeasure.
  assert (H : ofNat (List.length w) <= ofNat (List.length (p ++ w))).
  { apply ofNat_le. rewrite length_app. lia. }
  apply Qmult_le_compat_r; [|vm_compute; discriminate].
  rewrite (Qmult_comm _ (ofNat (List.length w))),
          (Qmult_comm _ (ofNat (List.length (p ++ w)))).
  now apply Qmult_le_compat_r.
Qed.

Lemma splitChars_greedy (width : jsstring -> Q) (W : Q) (cs : list ascii) :
  (forall d, In d cs -> width [d] <= W) ->
  forall lines charLine lines' tail,
  charLine <> [] -> width charLine <= W ->
  AppTsx.splitChars width W cs lines charLine = (lines', tail) ->
  exists pieces x more,
    lines' = lines ++ pieces /\
    List.concat pieces ++ tail = charLine ++ cs /\
    Forall (fun p => p <> [] /\ width p <= W) (pieces ++ [tail]) /\
    pieces ++ [tail] = (charLine ++ x) :: more /\
    chunksMaximal width W (pieces ++ [tail]).
Proof.
  induction cs as [|c rest IH]; intros Hcs lines cl lines' tail Hne Hfit E;
    cbn [AppTsx.splitChars] in E.
  - injection E as <- <-. exists [], [], [].
    rewrite !app_nil_r. cbn.
    repeat split; auto.
  - assert (Hrest : forall d, In d rest -> width [d] <= W).
    { intros d Hd. apply Hcs. now right. }
    case_if E G.
    + rewrite (pushIf_cons _ cl Hne) in E.
      assert (Hc1 : [c] <> []) by discriminate.
      destruct (IH Hrest _ _ _ _ Hc1 (Hcs c (or_introl eq_refl)) E)
        as (pieces & x & more & -> & Hcat & HF & Hhd & Hmax).
      exists (cl :: pieces), [], (pieces ++ [tail]).
      rewrite app_nil_r, <- app_assoc. cbn [app List.concat].
      split; [reflexivity|]. split; [now rewrite <- app_assoc, Hcat|].
      split; [constructor; [now split | exact HF]|].
      split; [reflexivity|].
      split; [|exact Hmax].
      rewrite Hhd. cbn [app]. now apply Qgtb_true in G.
    + apply Qgtb_false in G.
      assert (Hc2 : cl ++ [c] <> []) by (destruct cl; discriminate).
      destruct (IH Hrest _ _ _ _ Hc2 G E)
        as (pieces & x & more & -> & Hcat & HF & Hhd & Hmax).
      exists pieces, (c :: x), more.
      split; [reflexivity|]. split; [now rewrite Hcat, <- app_assoc|].
      split; [exact HF|]. split; [|exact Hmax].
      rewrite Hhd. now rewrite <- app_assoc.
Qed.

Lemma joinSp_nonnil (g : list jsstring) :
  g <> [] -> Forall (fun w => w <> []) g -> joinSp g <> [].
Proof.
  destruct g as [|x r]; [congruence|]. intros _ H.
  inversion H as [|? ? Hx _]; subst.
  destruct r; cbn [joinSp]; [exact Hx|].
  destruct x; [congruence | discriminate].
Qed.

(** [calculateLines] cuts between words only: the lines it has pushed and
    its current line are whole words joined by single spaces, in the
    order of the words. *)
Lemma forWords_groups (width : jsstring -> Q) (W : Q)
    (words : list jsstring) :
  Forall (fun w => w <> []) words ->
  forall lines currentLine gs g lines' cur',
  lines = map joinSp gs -> Forall (fun x => x <> []) gs ->
  currentLine = joinSp g -> Forall (fun w => w <> []) g ->
  CalcLines.forWords width W words lines currentLine = Some (lines', cur') ->
  exists gs' g',
    lines' = map joinSp gs' /\ Forall (fun x => x <> []) gs' /\
    cur' = joinSp g' /\ Forall (fun w => w <> []) g' /\
    List.concat gs' ++ g' = List.concat gs ++ g ++ words.
Proof.
  induction words as [|w rest IH];
    intros Hw lines cl gs g lines' cur' Hl Hgs Hc Hg E;
    cbn [CalcLines.forWords] in E.
  - injection E as <- <-. exists gs, g. rewrite app_nil_r. auto.
  - assert (Hne : w <> []) by (inversion Hw; assumption).
    assert (Hrest : Forall (fun w => w <> []) rest)
      by (inversion Hw; assumption).
    assert (Hg1 : Forall (fun x : jsstring => x <> []) [w])
      by (constructor; [exact Hne | constructor]).
    destruct (truthy cl) eqn:T; cbv iota in E.
    + apply truthy_true in T.
      assert (Hgne : g <> []) by (intro Hn; subst g; now apply T).
      case_if E G.
      * case_if E Gw; [discriminate|].
        apply (IH Hrest _ _ (gs ++ [g]) [w]) in E.
        -- destruct E as (gs' & g' & A & B & C & D & F).
           exists gs', g'. split; [exact A|]. split; [exact B|].
           split; [exact C|]. split; [exact D|].
           rewrite F, concat_app. cbn [List.concat].
           rewrite app_nil_r, <- !app_assoc. reflexivity.
        -- rewrite map_app. cbn [map]. now rewrite Hl, Hc.
        -- apply Forall_app. split; [exact Hgs|].
           constructor; [exact Hgne | constructor].
        -- reflexivity.
        -- exact Hg1.
      * apply (IH Hrest _ _ gs (g ++ [w])) in E.
        -- destruct E as (gs' & g' & A & B & C & D & F).
           exists gs', g'. split; [exact A|]. split; [exact B|].
           split; [exact C|]. split; [exact D|].
           rewrite F, <- !app_assoc. reflexivity.
        -- exact Hl.
        -- exact Hgs.
        -- rewrite (joinSp_snoc g w Hgne). now rewrite Hc.
        -- apply Forall_app. split; [exact Hg | exact Hg1].
    + apply truthy_false in T.
      assert (Hgnil : g = []).
      { destruct g as [|x r]; [reflexivity|]. exfalso.
        apply (joinSp_nonnil (x :: r)); [discriminate | exact Hg|].
        now rewrite <- Hc. }
      subst g. rewrite T in E. cbn [app] in E.
      case_if E G.
      * discriminate.
      * apply (IH Hrest _ _ gs [w]) in E.
        -- destruct E as (gs' & g' & A & B & C & D & F).
           exists gs', g'. split; [exact A|]. split; [exact B|].
           split; [exact C|]. split; [exact D|]. exact F.
        -- exact Hl.
        -- exact Hgs.
        -- reflexivity.
        -- exact Hg1.
Qed.

(** In the word loop of App.tsx a word wider than the target width goes
    to [pushLineWithWordSplit], after the current line has been pushed. *)
Lemma wrapWords_wide_step (width : jsstring -> Q) (W : Q)
    (word : jsstring) (rest lines : list jsstring)
    (currentLine : jsstring) (split : bool) :
  (forall p w, width w <= width (p ++ w)) ->
  W < width word ->
  AppTsx.wrapWords width W (word :: rest) lines currentLine split =
  let '(lines2, charLine) :=
    AppTsx.pushLineWithWordSplit width W (pushIf lines currentLine) word in
  AppTsx.wrapWords width W rest lines2 charLine true.
Proof.
  intros Hmono Hwide. cbn [AppTsx.wrapWords].
  assert (Gw : Qgtb (width word) W = true) by now apply Qgtb_true.
  destruct (truthy currentLine) eqn:T; cbv iota.
  - assert (G : Qgtb (width (currentLine ++ space ++ word)) W = true).
    { apply Qgtb_true. eapply Qlt_le_trans; [exact Hwide|].
      rewrite app_assoc. apply Hmono. }
    rewrite G, Gw. unfold pushIf. rewrite T. reflexivity.
  - rewrite Gw. unfold pushIf. rewrite T. reflexivity.
Qed.

Lemma wrapWords_wide (width : jsstring -> Q) (W : Q)
    (words : list jsstring) :
  (forall p w, width w <= width (p ++ w)) ->
  Exists (fun w => W < width w) words ->
  forall lines currentLine b lines' cur' b',
  AppTsx.wrapWords width W words lines currentLine b = (lines', cur', b') ->
  b' = true.
Proof.
  intro Hmono.
  induction words as [|w rest IH]; intros Hex lines cl b lines' cur' b' E.
  - inversion Hex.
  - destruct (Qlt_le_dec W (width w)) as [Hwide|Hfit].
    + rewrite (wrapWords_wide_step width W w rest lines cl b Hmono Hwide)
        in E.
      destruct (AppTsx.pushLineWithWordSplit width W (pushIf lines cl) w)
        as [l2 c2].
      exact (wrapWords_flag width W rest _ _ _ _ _ E).
    + assert (Hrest : Exists (fun w => W < width w) rest).
      { inversion Hex as [? ? Hw|? ? Hr]; subst; [|exact Hr].
        exfalso. exact (Qlt_not_le _ _ Hw Hfit). }
      cbn [AppTsx.wrapWords] in E.
      repeat match type of E with
             | context [if ?c then _ else _] => destruct c
             | context [let '(_, _) := ?p in _] => destruct p
             end; eapply (IH Hrest); eassumption.
Qed.

Lemma fits_or_wide (width : jsstring -> Q) (W : Q) (words : list jsstring) :
  Forall (fun w => width w <= W) words \/ Exists (fun w => W < width w) words.
Proof.
  induction words as [|w rest [IH|IH]].
  - left. constructor.
  - destruct (Qlt_le_dec W (width w)) as [H|H].
    + right. now left.
    + left. now constructor.
  - right. now right.
Qed.

(** C2, as amended.  The two policies for a word wider than the usable
    width live in different revisions and are not tied to the minimum
    size.  The measurer is taken to give a string at least the width of
    each of its suffixes, so that a line ending in a word is at least as
    wide as the word; it is a hypothesis of the parts that use it.
    [calculateLines], at whatever size it is called, gives [null] when a
    word is wider than [maxWidth], and only then; the lines it gives are
    whole words joined by single spaces: it never splits a word.  At a
    size above 8 with such a word the shrinking loop goes on with the
    size one unit smaller.  The
    word loop of App.tsx hands a word wider than the target width to
    [pushLineWithWordSplit], the current line pushed first, at the size
    the caption is drawn with; it runs [pushLineWithWordSplit] only when
    some word is that wide.  [pushLineWithWordSplit] appends code units to
    a piece until the next one would overflow, the pieces put together
    are the word, and no piece is wider than the target width as long as
    single code units fit. *)
Theorem C2_wide_word_policy (width : jsstring -> Q) (W : Q) :
  (forall words,
     (forall p w, width w <= width (p ++ w)) ->
     Exists (fun w => W < width w) words ->
     CalcLines.breakLines width W words = None) /\
  (forall words,
     CalcLines.breakLines width W words = None ->
     Exists (fun w => W < width w) words) /\
  (forall words ls,
     Forall (fun w => w <> []) words ->
     CalcLines.breakLines width W words = Some ls ->
     exists groups,
       Forall (fun g => g <> []) groups /\
       List.concat groups = words /\ ls = map joinSp groups) /\
  (forall measure words boxWidth boxHeight fuel context v turns,
     (forall p w, measure (fontStringUI (currentFontSize v)) w
                  <= measure (fontStringUI (currentFontSize v)) (p ++ w)) ->
     8 < currentFontSize v ->
     Exists (fun w => CalcLines.maxWidth boxWidth
                      < measure (fontStringUI (currentFontSize v)) w) words ->
     CalcLines.shrink measure (S fuel) words boxWidth boxHeight
                      context v turns =
     CalcLines.shrink measure fuel words boxWidth boxHeight
       (setFont context (fontStringUI (currentFontSize v)))
       (mkVars (currentFontSize v - 1) (varLines v) (varLineHeight v)
               (totalBlockHeight v))
       (S turns)) /\
  (forall word rest lines currentLine split,
     (forall p w, width w <= width (p ++ w)) ->
     W < width word ->
     AppTsx.wrapWords width W (word :: rest) lines currentLine split =
     let '(lines2, charLine) :=
       AppTsx.pushLineWithWordSplit width W (pushIf lines currentLine) word in
     AppTsx.wrapWords width W rest lines2 charLine true) /\
  (forall words,
     (forall p w, width w <= width (p ++ w)) ->
     Exists (fun w => W < width w) words ->
     AppTsx.splitTriggered width W words = true) /\
  (forall words,
     AppTsx.splitTriggered width W words = true ->
     Exists (fun w => W < width w) words) /\
  (forall lines c word lines' tail,
     (forall d, In d (c :: word) -> width [d] <= W) ->
     AppTsx.pushLineWithWordSplit width W lines (c :: word) = (lines', tail) ->
     exists pieces,
       lines' = lines ++ pieces /\
       List.concat pieces ++ tail = c :: word /\
       Forall (fun p => p <> [] /\ width p <= W) (pieces ++ [tail]) /\
       chunksMaximal width W (pieces ++ [tail])).
Proof.
  split; [|split; [|split; [|split; [|split; [|split; [|split]]]]]].
  - intros words Hmono Hex. unfold CalcLines.breakLines.
    now rewrite (forWords_wide width W words Hmono Hex).
  - intros words E. unfold CalcLines.breakLines in E.
    destruct (CalcLines.forWords width W words [] []) as [[l c]|] eqn:F;
      [discriminate|].
    eapply forWords_None. exact F.
  - intros words ls Hw E. unfold CalcLines.breakLines in E.
    destruct (CalcLines.forWords width W words [] []) as [[l c]|] eqn:F;
      [|discriminate].
    injection E as <-.
    destruct (forWords_groups width W words Hw [] [] [] [] l c
                eq_refl (Forall_nil _) eq_refl (Forall_nil _) F)
      as (gs & g & -> & Hgs & -> & Hg & Hcat).
    cbn [List.concat app] in Hcat.
    destruct g as [|x r].
    + exists gs. rewrite app_nil_r in Hcat. cbn [joinSp].
      rewrite pushIf_nil. auto.
    + exists (gs ++ [x :: r]).
      assert (Hj : joinSp (x :: r) <> [])
        by (apply joinSp_nonnil; [discriminate | exact Hg]).
      rewrite (pushIf_cons _ _ Hj).
      split; [apply Forall_app; split;
              [exact Hgs | constructor; [discriminate | constructor]]|].
      split.
      * rewrite concat_app. cbn [List.concat]. now rewrite app_nil_r.
      * rewrite map_app. reflexivity.
  - intros measure words boxWidth boxHeight fuel context v turns
           Hmono H8 Hex.
    cbn [CalcLines.shrink].
    assert (G : Qgtb (currentFontSize v) 8 = true) by now apply Qgtb_true.
    rewrite G, calculateLines_eq.
    assert (B : calcBlock measure words boxWidth (currentFontSize v) = None).
    { unfold calcBlock, CalcLines.breakLines.
      now rewrite (forWords_wide _ _ words Hmono Hex). }
    rewrite B. reflexivity.
  - intros word rest lines currentLine split Hmono Hwide.
    exact (wrapWords_wide_step width W word rest lines currentLine split
             Hmono Hwide).
  - intros words Hmono Hex.
    unfold AppTsx.splitTriggered, AppTsx.breakLinesFlag.
    destruct (AppTsx.wrapWords width W words [] [] false)
      as [[l c] b] eqn:E. cbn [snd].
    exact (wrapWords_wide width W words Hmono Hex _ _ _ _ _ _ E).
  - intros words E.
    destruct (fits_or_wide width W words) as [Hfit|Hex]; [|exact Hex].
    destruct (wrapWords_greedy width W words Hfit [] [] false)
      as (l & c & E' & _).
    unfold AppTsx.splitTriggered, AppTsx.breakLinesFlag in E.
    rewrite E' in E. discriminate.
  - intros lines c word lines' tail Hcs E.
    unfold AppTsx.pushLineWithWordSplit, chars in E.
    cbn [AppTsx.splitChars app] in E.
    assert (E' : AppTsx.splitChars width W word lines [c] = (lines', tail)).
    { destruct (Qgtb (width [c]) W); exact E. }
    assert (Hc1 : [c] <> []) by discriminate.
    destruct (splitChars_greedy width W word
                (fun d Hd => Hcs d (or_intror Hd)) lines [c] lines' tail
                Hc1 (Hcs c (or_introl eq_refl)) E')
      as (pieces & x & more & Hl & Hcat & HF & _ & Hmax).
    exists pieces. repeat split; assumption.
Qed.

Lemma C2_wide_word_policy_witness :
  ((forall p w, sampleWidth w <= sampleWidth (p ++ w)) /\
   Exists (fun w => 30 < sampleWidth w) [str "A"; sampleWide] /\
   CalcLines.breakLines sampleWidth 30 [str "A"; sampleWide] = None) /\
  (CalcLines.breakLines sampleWidth 30 [sampleWide] = None /\
   Exists (fun w => 30 < sampleWidth w) [sampleWide]) /\
  (Forall (fun w : jsstring => w <> []) sampleWords /\
   CalcLines.breakLines sampleWidth 100 sampleWords
     = Some [str "ONE DOES"; str "NOT SIMPLY"] /\
   exists groups,
     Forall (fun g : list jsstring => g <> []) groups /\
     List.concat groups = sampleWords /\
     [str "ONE DOES"; str "NOT SIMPLY"] = map joinSp groups) /\
  (8 < currentFontSize (initVars 40) /\
   Exists (fun w => CalcLines.maxWidth 100
                    < monoMeasure (fontStringUI 40) w) [sampleWide] /\
   CalcLines.shrink monoMeasure 5 [sampleWide] 100 100
                    freshCanvas (initVars 40) 0 =
   CalcLines.shrink monoMeasure 4 [sampleWide] 100 100
     (setFont freshCanvas (fontStringUI 40))
     (mkVars (40 - 1) [] 0 0) 1) /\
  (30 < sampleWidth sampleWide /\
   AppTsx.wrapWords sampleWidth 30 [sampleWide; str "B"] [] (str "A") false =
   let '(lines2, charLine) :=
     AppTsx.pushLineWithWordSplit sampleWidth 30 (pushIf [] (str "A"))
                                  sampleWide in
   AppTsx.wrapWords sampleWidth 30 [str "B"] lines2 charLine true) /\
  (Exists (fun w => 30 < sampleWidth w) [str "A"; sampleWide] /\
   AppTsx.splitTriggered sampleWidth 30 [str "A"; sampleWide] = true) /\
  (AppTsx.splitTriggered sampleWidth 30 [sampleWide] = true /\
   Exists (fun w => 30 < sampleWidth w) [sampleWide]) /\
  ((forall d, In d sampleWide -> sampleWidth [d] <= 30) /\
   AppTsx.pushLineWithWordSplit sampleWidth 30 [] sampleWide
     = ([str "ABC"; str "DEF"], str "GH") /\
   exists pieces,
     [str "ABC"; str "DEF"] = [] ++ pieces /\
     List.concat pieces ++ str "GH" = sampleWide /\
     Forall (fun p => p <> [] /\ sampleWidth p <= 30) (pieces ++ [str "GH"]) /\
     chunksMaximal sampleWidth 30 (pieces ++ [str "GH"])).
Proof.
  assert (Hm : forall p w, sampleWidth w <= sampleWidth (p ++ w)).
  { intros p w. apply monoMeasure_suffix. vm_compute. discriminate. }
  assert (Hx : Exists (fun w => 30 < sampleWidth w) [str "A"; sampleWide]).
  { right. left. vm_compute. reflexivity. }
  pose (T := C2_wide_word_policy sampleWidth 30).
  split; [|split; [|split; [|split; [|split; [|split; [|split]]]]]].
  - split; [exact Hm|]. split; [exact Hx|].
    exact (proj1 T _ Hm Hx).
  - assert (E : CalcLines.breakLines sampleWidth 30 [sampleWide] = None)
      by (vm_compute; reflexivity).
    split; [exact E|].
    exact (proj1 (proj2 T) _ E).
  - assert (Hw : Forall (fun w : jsstring => w <> []) sampleWords).
    { repeat (constructor; [discriminate|]). constructor. }
    assert (E : CalcLines.breakLines sampleWidth 100 sampleWords
                = Some [str "ONE DOES"; str "NOT SIMPLY"])
      by (vm_compute; reflexivity).
    split; [exact Hw|]. split; [exact E|].
    exact (proj1 (proj2 (proj2 (C2_wide_word_policy sampleWidth 100)))
             _ _ Hw E).
  - assert (H8 : 8 < currentFontSize (initVars 40))
      by (vm_compute; reflexivity).
    assert (Hwide : Exists (fun w => CalcLines.maxWidth 100
                                     < monoMeasure (fontStringUI 40) w)
                           [sampleWide]).
    { left. vm_compute. reflexivity. }
    assert (Hm40 : forall p w,
               monoMeasure (fontStringUI (currentFontSize (initVars 40))) w
               <= monoMeasure (fontStringUI (currentFontSize (initVars 40)))
                              (p ++ w)).
    { intros p w. apply monoMeasure_suffix. vm_compute. discriminate. }
    split; [exact H8|]. split; [exact Hwide|].
    exact (proj1 (proj2 (proj2 (proj2 T))) monoMeasure [sampleWide] 100 100
             4%nat freshCanvas (initVars 40) 0%nat Hm40 H8 Hwide).
  - assert (Hwide : 30 < sampleWidth sampleWide)
      by (vm_compute; reflexivity).
    split; [exact Hwide|].
    exact (proj1 (proj2 (proj2 (proj2 (proj2 T)))) sampleWide [str "B"] []
             (str "A") false Hm Hwide).
  - split; [exact Hx|].
    exact (proj1 (proj2 (proj2 (proj2 (proj2 (proj2 T))))) _ Hm Hx).
  - assert (E : AppTsx.splitTriggered sampleWidth 30 [sampleWide] = true)
      by (vm_compute; reflexivity).
    split; [exact E|].
    exact (proj1 (proj2 (proj2 (proj2 (proj2 (proj2 (proj2 T)))))) _ E).
  - assert (H : forall d, In d sampleWide -> sampleWidth [d] <= 30).
    { intros d Hd. vm_compute in Hd.
      repeat (destruct Hd as [<-|Hd]; [vm_compute; discriminate|]).
      contradiction. }
    assert (E : AppTsx.pushLineWithWordSplit sampleWidth 30 [] sampleWide
                = ([str "ABC"; str "DEF"], str "GH"))
      by (vm_compute; reflexivity).
    split; [exact H|]. split; [exact E|].
    exact (proj2 (proj2 (proj2 (proj2 (proj2 (proj2 (proj2 T))))))
             [] "A"%char (str "BCDEFGH") _ _ H E).
Defined.

(** C2 as stated fails on App.tsx: at a size well above any minimum, a
    word wider than the target width is split in the middle instead of
    making the size infeasible. *)
Lemma C2_counterexample :
  ~ (forall (measure : Font -> jsstring -> Q) (fSize boxWidth : Q)
            (word : jsstring),
       8 < fSize ->
       AppTsx.targetMaxWidth boxWidth
         < measure (AppTsx.fontString fSize) word ->
       AppTsx.splitTriggered (measure (AppTsx.fontString fSize))
         (AppTsx.targetMaxWidth boxWidth) [word] = false).
Proof.
  intro H.
  specialize (H monoMeasure 40 100 sampleWide).
  assert (E : AppTsx.splitTriggered (monoMeasure (AppTsx.fontString 40))
                (AppTsx.targetMaxWidth 100) [sampleWide] = true)
    by (vm_compute; reflexivity).
  rewrite H in E; [discriminate | |]; vm_compute; reflexivity.
Qed.

Example appTsx_splits_wide_word :
  AppTsx.breakLines (monoMeasure (AppTsx.fontString 40))
                    (AppTsx.targetMaxWidth 100) [sampleWide]
  = [str "ABC"; str "DEF"; str "GH"].
Proof. vm_compute. reflexivity. Qed.

(** ** The scan of [calculateLines], decided *)


Lemma calcBlock_nonnil (measure : Font -> jsstring -> Q)
    (words : list jsstring) (boxWidth f : Q) (ls : list jsstring) :
  words <> [] -> Forall (fun w => w <> []) words ->
  calcBlock measure words boxWidth f = Some ls -> ls <> [].
Proof.
  intros Hne Hw B. unfold calcBlock, CalcLines.breakLines in B.
  destruct (CalcLines.forWords _ _ words [] []) as [[l c]|] eqn:F;
    [|discriminate].
  injection B as <-.
  assert (HP : Forall (lineOf (fun _ => True)) words).
  { eapply Forall_impl; [|exact Hw]. intros w H. split; [exact H|].
    apply Forall_forall. auto. }
  destruct (forWords_lines _ _ (fun _ => True) words I HP [] [] l c
              (Forall_nil _) (Forall_nil _) F) as (_ & _ & C).
  rewrite pushIf_cons by (apply C; now left).
  destruct l; discriminate.
Qed.

Lemma stepDown_add (n k : nat) (f : Q) :
  stepDown k (stepDown n f) = stepDown (n + k) f.
Proof.
  revert f. induction n as [|n IH]; intro f; [reflexivity|].
  cbn [stepDown Nat.add]. apply IH.
Qed.

Lemma stepDown_le (k1 k2 : nat) (f : Q) :
  (k2 <= k1)%nat -> stepDown k1 f <= stepDown k2 f.
Proof.
  intro H. rewrite !stepDown_value.
  pose proof (ofNat_le _ _ H). lra.
Qed.

Lemma stepDown_le_start (k : nat) (f : Q) : stepDown k f <= f.
Proof. apply (stepDown_le k 0 f). lia. Qed.

Lemma stepDown_above (m : Q) (k : nat) :
  forall f, m < stepDown k f -> (k < scanFuel f m)%nat.
Proof.
  induction k as [|k IH]; intros f H.
  - cbn in H. rewrite (scanFuel_step _ _ H). lia.
  - assert (Hf : m < f).
    { eapply Qlt_le_trans; [exact H | apply stepDown_le_start]. }
    rewrite (scanFuel_step _ _ Hf).
    cbn [stepDown] in H. apply IH in H. lia.
Qed.

(** The scan of the [calculateLines] revision: [wrapText] always returns;
    when it paints, it paints with the first size of the scan
    [size, size - 1, ...] above 8 at which the block fits width and
    height, after at most [scanFuel size 8] turns of the loop. *)
Lemma calcLines_scan (measure : Font -> jsstring -> Q)
    (context : Canvas) (rawText : jsstring) (boxWidth boxHeight size : Q) :
  captionText rawText <> [] ->
  exists context' v turns,
    CalcLines.fit measure context rawText boxWidth boxHeight size
      = Some (context', Some (v, turns)) /\
    (turns <= scanFuel size 8)%nat /\
    ((varLines v <> [] /\
      exists k,
        (k < scanFuel size 8)%nat /\
        currentFontSize v = stepDown k size /\
        calcFits measure (split_ws (captionText rawText))
                 boxWidth boxHeight (currentFontSize v) /\
        forall j, (j < k)%nat ->
          ~ calcFits measure (split_ws (captionText rawText))
                     boxWidth boxHeight (stepDown j size))
     \/
     (varLines v = [] /\
      forall j, (j < scanFuel size 8)%nat ->
        ~ calcFits measure (split_ws (captionText rawText))
                   boxWidth boxHeight (stepDown j size))).
Proof.
  intro Hne.
  destruct (calcLines_fit_some measure context rawText boxWidth boxHeight
              size Hne) as (c' & v & t & E & Hpost & _).
  exists c', v, t. split; [exact E|].
  unfold ShrinkPost in Hpost.
  cbn [initVars currentFontSize varLines] in Hpost.
  destruct Hpost as [(k & ls & Ht & Hf & H8 & Hb & Hv & Hfit & Hmin)
                    |(Ht & Hv & H8 & Hmin)].
  - rewrite Hf in H8. apply stepDown_above in H8. split; [lia|].
    left. split.
    + rewrite Hv. cbn [varLines].
      eapply calcBlock_nonnil; [apply caption_words_nonnil| |exact Hb].
      now apply caption_words_nonempty.
    + exists k. auto.
  - split; [lia|]. right. split; [|exact Hmin].
    rewrite Hv. reflexivity.
Qed.

(** The scan of the [findBestFit] revision always returns, after at most
    [scanFuel size 6] runs of the line breaker. *)
Lemma bestFit_scan (measure : Font -> jsstring -> Q)
    (context : Canvas) (rawText : jsstring) (boxWidth boxHeight size : Q) :
  exists context' r,
    BestFit.fit measure context rawText boxWidth boxHeight size
      = Some (context', r) /\
    match r with
    | Some (_, passes) => (passes <= scanFuel size 6)%nat
    | None => captionText rawText = []
    end.
Proof.
  destruct (captionText rawText) as [|c r] eqn:Ec.
  - exists context, None. split; [|reflexivity].
    now apply bestFit_fit_blank.
  - assert (Hne : captionText rawText <> []) by (rewrite Ec; discriminate).
    destruct (bestFit_fit_some measure context rawText boxWidth boxHeight
                size Hne) as (c' & v & p & E & _ & Hp & _).
    exists c', (Some (v, p)). split; [exact E | exact Hp].
Qed.





Lemma calcChosenSize_scan (measure : Font -> jsstring -> Q)
    (rawText : jsstring) (boxWidth boxHeight size f : Q) :
  calcChosenSize measure rawText boxWidth boxHeight size = Some f ->
  captionText rawText <> [] /\
  exists k,
    (k < scanFuel size 8)%nat /\ f = stepDown k size /\
    calcFits measure (split_ws (captionText rawText)) boxWidth boxHeight f /\
    forall j, (j < k)%nat ->
      ~ calcFits measure (split_ws (captionText rawText))
                 boxWidth boxHeight (stepDown j size).
Proof.
  unfold calcChosenSize. intro H.
  assert (Hne : captionText rawText <> []).
  { intro Hb.
    rewrite (calcLines_fit_blank measure freshCanvas rawText boxWidth
               boxHeight size Hb) in H. discriminate. }
  split; [exact Hne|].
  destruct (calcLines_scan measure freshCanvas rawText boxWidth boxHeight
              size Hne) as (c' & v & t & E & _ & Hcase).
  rewrite E in H.
  destruct Hcase as [(Hl & k & Hk & Hf & Hfit & Hmin)|(Hl & _)].
  - destruct (varLines v); [congruence|].
    cbn [List.length Nat.eqb] in H. injection H as <-.
    exists k. auto.
  - rewrite Hl in H. discriminate.
Qed.

Lemma calcChosenSize_found (measure : Font -> jsstring -> Q)
    (rawText : jsstring) (boxWidth boxHeight size : Q) (k : nat) :
  captionText rawText <> [] ->
  (k < scanFuel size 8)%nat ->
  calcFits measure (split_ws (captionText rawText)) boxWidth boxHeight
           (stepDown k size) ->
  exists k',
    (k' <= k)%nat /\
    calcChosenSize measure rawText boxWidth boxHeight size
      = Some (stepDown k' size).
Proof.
  intros Hne Hk Hfit. unfold calcChosenSize.
  destruct (calcLines_scan measure freshCanvas rawText boxWidth boxHeight
              size Hne) as (c' & v & t & E & _ & Hcase).
  rewrite E.
  destruct Hcase as [(Hl & k' & Hk' & Hf & _ & Hmin)|(_ & Hno)].
  - exists k'. split.
    + destruct (Nat.le_gt_cases k' k) as [H|H]; [exact H|].
      exfalso. exact (Hmin k H Hfit).
    + destruct (varLines v); [congruence|].
      cbn [List.length Nat.eqb]. now rewrite Hf.
  - exfalso. exact (Hno k Hk Hfit).
Qed.

(** C7, as amended.  In App.tsx the size in use is
    [baseFontSize * fontScale], which does not decrease when the scale
    grows.  In the [calculateLines] revision the size painted with never
    exceeds the initial size, and lowering the initial size by a whole
    number of steps of the scan never raises it; two initial sizes that
    are not a whole number of steps apart are scanned on different grids,
    and there the smaller scale can end on the larger size. *)
Theorem C7_scale_monotone (measure : Font -> jsstring -> Q)
    (rawText : jsstring) (boxWidth boxHeight : Q) :
  (forall canvasHeight s1 s2,
     (0 <= canvasHeight)%Z -> s1 <= s2 ->
     AppTsx.currentFontSize canvasHeight s1
       <= AppTsx.currentFontSize canvasHeight s2) /\
  (forall size f,
     calcChosenSize measure rawText boxWidth boxHeight size = Some f ->
     f <= size) /\
  (forall size n f1,
     calcChosenSize measure rawText boxWidth boxHeight (stepDown n size)
       = Some f1 ->
     exists f2,
       calcChosenSize measure rawText boxWidth boxHeight size = Some f2 /\
       f1 <= f2).
Proof.
  split; [|split].
  - intros h s1 s2 Hh Hs. unfold AppTsx.currentFontSize, AppTsx.baseFontSize.
    assert (Hb : 0 <= inject_Z (Qfloor (inject_Z h * 0.065))).
    { change 0 with (inject_Z 0). rewrite <- Zle_Qle.
      change 0%Z with (Qfloor (inject_Z 0)) at 1.
      apply Qfloor_resp_le. change (inject_Z 0) with 0.
      apply Qmult_le_0_compat; [|vm_compute; discriminate].
      change 0 with (inject_Z 0). now rewrite <- Zle_Qle. }
    rewrite (Qmult_comm _ s1), (Qmult_comm _ s2).
    now apply Qmult_le_compat_r.
  - intros size f H.
    destruct (calcChosenSize_scan _ _ _ _ _ _ H) as (_ & k & _ & -> & _).
    apply stepDown_le_start.
  - intros size n f1 H.
    destruct (calcChosenSize_scan _ _ _ _ _ _ H)
      as (Hne & k & Hk & -> & Hfit & _).
    rewrite stepDown_add in Hfit |- *.
    assert (Hk' : (n + k < scanFuel size 8)%nat).
    { clear - Hk. revert size Hk. induction n as [|n IH]; intros size Hk.
      - exact Hk.
      - cbn [stepDown] in Hk. apply IH in Hk.
        destruct (Qlt_le_dec 8 size) as [H|H].
        + rewrite (scanFuel_step _ _ H). cbn [Nat.add]. lia.
        + rewrite scanFuel_floor in Hk by lra. lia. }
    destruct (calcChosenSize_found measure rawText boxWidth boxHeight size
                (n + k) Hne Hk' Hfit) as (k' & Hle & E).
    exists (stepDown k' size). split; [exact E|].
    now apply stepDown_le.
Qed.

Lemma C7_scale_monotone_witness :
  ((0 <= 1000)%Z /\ 0.5 <= 1 /\
   AppTsx.currentFontSize 1000 0.5 <= AppTsx.currentFontSize 1000 1) /\
  (calcChosenSize monoMeasure alphabet 500 500 55 = Some (stepDown 29 55) /\
   stepDown 29 55 <= 55) /\
  (calcChosenSize monoMeasure alphabet 500 500 (stepDown 20 55)
     = Some (stepDown 29 55) /\
   exists f2,
     calcChosenSize monoMeasure alphabet 500 500 55 = Some f2 /\
     stepDown 29 55 <= f2).
Proof.
  split; [|split].
  - assert (Hh : (0 <= 1000)%Z) by lia.
    assert (Hs : 0.5 <= 1) by (vm_compute; discriminate).
    split; [exact Hh|]. split; [exact Hs|].
    exact (proj1 (C7_scale_monotone monoMeasure alphabet 500 500)
             1000%Z 0.5 1 Hh Hs).
  - assert (E : calcChosenSize monoMeasure alphabet 500 500 55
                = Some (stepDown 29 55)) by (vm_compute; reflexivity).
    split; [exact E|].
    exact (proj1 (proj2 (C7_scale_monotone monoMeasure alphabet 500 500))
             55 _ E).
  - assert (E : calcChosenSize monoMeasure alphabet 500 500 (stepDown 20 55)
                = Some (stepDown 29 55)) by (vm_compute; reflexivity).
    split; [exact E|].
    exact (proj2 (proj2 (C7_scale_monotone monoMeasure alphabet 500 500))
             55 20%nat _ E).
Defined.

(** C7 as stated fails on the [calculateLines] revision: on a 1000 by
    1000 image and with a fixed-pitch font, the 26-letter caption is
    painted at 26.5 for a scale of 0.5 and at 26 for a scale of 1. *)
Lemma C7_counterexample :
  ~ (forall (measure : Font -> jsstring -> Q) (rawText : jsstring)
            (canvasWidth canvasHeight : Z) (s1 s2 f1 f2 : Q),
       s1 <= s2 ->
       calcChosenSize measure rawText
         (inject_Z canvasWidth / 2) (inject_Z canvasHeight / 2)
         (CalcLines.scaledFontSize canvasHeight s1) = Some f1 ->
       calcChosenSize measure rawText
         (inject_Z canvasWidth / 2) (inject_Z canvasHeight / 2)
         (CalcLines.scaledFontSize canvasHeight s2) = Some f2 ->
       f1 <= f2).
Proof.
  intro H.
  specialize (H monoMeasure alphabet 1000%Z 1000%Z 0.5 1
                (stepDown 1 (CalcLines.scaledFontSize 1000 0.5))
                (stepDown 29 (CalcLines.scaledFontSize 1000 1))).
  assert (Hs : 0.5 <= 1) by (vm_compute; discriminate).
  assert (E1 : calcChosenSize monoMeasure alphabet
                 (inject_Z 1000 / 2) (inject_Z 1000 / 2)
                 (CalcLines.scaledFontSize 1000 0.5)
               = Some (stepDown 1 (CalcLines.scaledFontSize 1000 0.5)))
    by (vm_compute; reflexivity).
  assert (E2 : calcChosenSize monoMeasure alphabet
                 (inject_Z 1000 / 2) (inject_Z 1000 / 2)
                 (CalcLines.scaledFontSize 1000 1)
               = Some (stepDown 29 (CalcLines.scaledFontSize 1000 1)))
    by (vm_compute; reflexivity).
  specialize (H Hs E1 E2). vm_compute in H. apply H. reflexivity.
Qed.

Example calcLines_scale_half :
  stepDown 1 (CalcLines.scaledFontSize 1000 0.5) == 26.5.
Proof. vm_compute. reflexivity. Qed.

Example calcLines_scale_one :
  stepDown 29 (CalcLines.scaledFontSize 1000 1) == 26.
Proof. vm_compute. reflexivity. Qed.

(** ** Containment and termination where they hold *)

(** X4. App.tsx: unless [pushLineWithWordSplit] has run, no line is wider
    than the target width at the size in use. *)
Lemma appTsx_lines_fit (measure : Font -> jsstring -> Q)
    (context context' : Canvas) (rawText : jsstring) (boxWidth size : Q)
    (r : FitResult) :
  AppTsx.layout measure context rawText boxWidth size = (context', Some r) ->
  AppTsx.splitTriggered (measure (AppTsx.fontString size))
    (AppTsx.targetMaxWidth boxWidth) (split_ws (captionText rawText))
    = false ->
  fontSize r = size /\
  Forall (fun l => measure (AppTsx.fontString (fontSize r)) l
                   <= AppTsx.targetMaxWidth boxWidth) (lines r).
Proof.
  intros E Hflag.
  assert (Hne : captionText rawText <> []).
  { intro Hb.
    rewrite (appTsx_layout_blank measure context rawText boxWidth size Hb)
      in E. discriminate. }
  rewrite (appTsx_layout_some measure context rawText boxWidth size Hne) in E.
  injection E as _ <-. cbn [lines fontSize]. split; [reflexivity|].
  unfold AppTsx.splitTriggered in Hflag.
  unfold AppTsx.breakLines, AppTsx.breakLinesFlag in *.
  destruct (AppTsx.wrapWords _ _ (split_ws (captionText rawText)) [] [] false)
    as [[l c] b] eqn:W. cbn [fst snd] in *. subst b.
  destruct (wrapWords_fits _ _ _ _ _ _ _ _ (Forall_nil _)
              (or_introl eq_refl) W) as [A B].
  apply pushIf_Forall; [exact A|].
  intro Hc. destruct B; [congruence | assumption].
Qed.

(** [calculateLines] revision: the lines painted fit the usable width
    and height at the size they are painted with. *)
Lemma calcLines_lines_fit (measure : Font -> jsstring -> Q)
    (context context' : Canvas) (rawText : jsstring)
    (boxWidth boxHeight size : Q) (v : FitVars) (turns : nat) :
  CalcLines.fit measure context rawText boxWidth boxHeight size
    = Some (context', Some (v, turns)) ->
  varLines v <> [] ->
  Forall (fun l => measure (fontStringUI (currentFontSize v)) l
                   <= CalcLines.maxWidth boxWidth) (varLines v) /\
  totalBlockHeight v <= CalcLines.maxHeight boxHeight.
Proof.
  intros E Hl.
  assert (Hne : captionText rawText <> []).
  { intro Hb.
    rewrite (calcLines_fit_blank measure context rawText boxWidth
               boxHeight size Hb) in E. discriminate. }
  destruct (calcLines_fit_some measure context rawText boxWidth boxHeight
              size Hne) as (c' & v' & t' & E' & Hpost & _).
  rewrite E in E'. injection E' as _ <- _.
  destruct Hpost as [(k & ls & _ & _ & _ & Hb & Hv & Hfit & _)|(_ & Hv & _)].
  - destruct Hfit as (ls' & Hb' & Hw & Hh).
    rewrite Hb in Hb'. injection Hb' as <-.
    rewrite Hv. cbn [varLines currentFontSize totalBlockHeight].
    split; [exact Hw | exact Hh].
  - rewrite Hv in Hl. cbn [varLines initVars] in Hl. congruence.
Qed.

(** X9. Both scans end within [(initialSize - floor) + 1] runs of the line
    breaker, the floor being 8 for [calculateLines] and 6 for
    [findBestFit]. *)
Lemma scans_within_bound (measure : Font -> jsstring -> Q)
    (context : Canvas) (rawText : jsstring) (boxWidth boxHeight size : Q) :
  (exists context' r,
     CalcLines.fit measure context rawText boxWidth boxHeight size
       = Some (context', r) /\
     match r with
     | Some (_, turns) => turns = 0%nat \/ ofNat turns < (size - 8) + 1
     | None => captionText rawText = []
     end) /\
  (exists context' r,
     BestFit.fit measure context rawText boxWidth boxHeight size
       = Some (context', r) /\
     match r with
     | Some (_, passes) => passes = 0%nat \/ ofNat passes < (size - 6) + 1
     | None => captionText rawText = []
     end).
Proof.
  assert (Hb : forall n floor, (n <= scanFuel size floor)%nat ->
                 n = 0%nat \/ ofNat n < (size - floor) + 1).
  { intros n floor Hn.
    destruct (scanFuel_bound size floor) as [H0|Hlt]; [left; lia|].
    right. eapply Qle_lt_trans; [apply ofNat_le; exact Hn | exact Hlt]. }
  split.
  - destruct (captionText rawText) as [|c r] eqn:Ec.
    + exists context, None. split; [|reflexivity].
      now apply calcLines_fit_blank.
    + assert (Hne : captionText rawText <> []) by (rewrite Ec; discriminate).
      destruct (calcLines_scan measure context rawText boxWidth boxHeight
                  size Hne) as (c' & v & t & E & Ht & _).
      exists c', (Some (v, t)). split; [exact E | now apply Hb].
  - destruct (bestFit_scan measure context rawText boxWidth boxHeight size)
      as (c' & r & E & Hr).
    exists c', r. split; [exact E|].
    destruct r as [[v p]|]; [now apply Hb | exact Hr].
Qed.

(** ** The first word in [findBestFit] *)

(** C1 at its failing input.  On a 1000 by 1000 image, at the default
    scale of 0.8 and with a fixed-pitch font, the [findBestFit] revision
    paints the 20-letter word on one line at size 44, where it measures
    440 against a usable width of 380: the test
    [metrics.width > maxWidth && n > 0] never rejects the first word, and
    this revision has no character splitting. *)
Theorem C1_first_word_overflows :
  exists op,
    bestFitPainted monoMeasure 1000 1000 wideCaption 0.8 = Some [op] /\
    ftText op = toUpperCase wideCaption /\
    fontPx (font (ftState op)) == 44 /\
    monoMeasure (font (ftState op)) (ftText op) == 440 /\
    BestFit.maxWidth (inject_Z 1000 / 2) == 380 /\
    BestFit.maxWidth (inject_Z 1000 / 2)
      < monoMeasure (font (ftState op)) (ftText op).
Proof.
  eexists. split; [vm_compute; reflexivity|].
  repeat split; vm_compute; reflexivity.
Qed.

(** C3 at its failing input.  For the same caption the scan of the
    [findBestFit] revision stops at its first size, 44, although the
    block does not fit the usable width there; six steps further down,
    at 38, the same block fits both width and height, so 44 is not the
    largest size at which the block fits. *)
Theorem C3_scan_stops_on_overflow :
  exists context v passes,
    BestFit.fit monoMeasure freshCanvas wideCaption
                (inject_Z 1000 / 2) (inject_Z 1000 / 2)
                (BestFit.scaledFontSize 1000 0.8)
      = Some (context, Some (v, passes)) /\
    passes = 1%nat /\
    currentFontSize v == 44 /\
    varLines v = [toUpperCase wideCaption] /\
    BestFit.maxWidth (inject_Z 1000 / 2)
      < monoMeasure (fontStringUI (currentFontSize v))
                    (toUpperCase wideCaption) /\
    stepDown 6 (currentFontSize v) == 38 /\
    monoMeasure (fontStringUI (stepDown 6 (currentFontSize v)))
                (toUpperCase wideCaption)
      <= BestFit.maxWidth (inject_Z 1000 / 2) /\
    ofNat 1 * (stepDown 6 (currentFontSize v) * 1.15)
      <= BestFit.maxHeight (inject_Z 1000 / 2).
Proof.
  eexists _, _, _. split; [vm_compute; reflexivity|].
  repeat split; vm_compute; try reflexivity; discriminate.
Qed.

(** When the scan of [findBestFit] runs out of sizes on a wide word that
    is not the first, the lines pushed before [return false] are what is
    painted: on a 200 by 200 image the caption below is painted as the
    single line "A". *)
Example bestFit_exhausted_drops_words :
  exists op,
    bestFitPainted monoMeasure 200 200
                   (str "a abcdefghijklmnopqrstuvwxyz") 0.8 = Some [op] /\
    ftText op = str "A".
Proof.
  eexists. split; vm_compute; reflexivity.
Qed.

(* ================================================================== *)
(** * Part IV. Further properties of the code                          *)
(* ================================================================== *)

(** ** Normalizing and splitting the caption *)



Lemma splitWs_word (w : jsstring) :
  Forall (fun c => isSpace c = false) w ->
  forall cur s, splitWs cur false (w ++ s) = splitWs (cur ++ w) false s.
Proof.
  induction w as [|c w' IH]; intros Hw cur s.
  - now rewrite app_nil_r.
  - inversion Hw as [|? ? Hc Hw']; subst.
    cbn [app splitWs]. rewrite Hc. rewrite (IH Hw').
    now rewrite <- app_assoc.
Qed.

Lemma splitWs_after_gap (w s : jsstring) :
  wordOk w -> splitWs [] true (w ++ s) = splitWs [] false (w ++ s).
Proof.
  intros [Hne Hw]. destruct w as [|c w']; [congruence|].
  inversion Hw as [|? ? Hc _]; subst.
  cbn [app splitWs]. now rewrite Hc.
Qed.

Lemma joinSp_head (w : jsstring) (r : list jsstring) :
  exists s, joinSp (w :: r) = w ++ s.
Proof.
  destruct r as [|y r'].
  - exists []. cbn. now rewrite app_nil_r.
  - exists (space ++ joinSp (y :: r')). reflexivity.
Qed.

Lemma splitWs_joinSp (r : list jsstring) :
  forall w cur,
  wordOk w -> Forall wordOk r ->
  splitWs cur false (joinSp (w :: r)) = (cur ++ w) :: r.
Proof.
  induction r as [|y r' IH]; intros w cur Hw Hr.
  - cbn [joinSp]. rewrite <- (app_nil_r w) at 1.
    rewrite (splitWs_word w (proj2 Hw)). reflexivity.
  - inversion Hr as [|? ? Hy Hr']; subst.
    rewrite joinSp_cons by discriminate.
    rewrite (splitWs_word w (proj2 Hw)).
    change (space ++ joinSp (y :: r'))
      with (" "%char :: joinSp (y :: r')).
    cbn [splitWs]. change (isSpace " "%char) with true. cbv iota.
    f_equal.
    destruct (joinSp_head y r') as [s Hs]. rewrite Hs.
    rewrite (splitWs_after_gap y s Hy). rewrite <- Hs.
    apply (IH y [] Hy Hr').
Qed.

Lemma split_ws_joinSp (words : list jsstring) :
  words <> [] -> Forall wordOk words ->
  split_ws (joinSp words) = words.
Proof.
  intros Hne Hw. destruct words as [|w r]; [congruence|].
  inversion Hw as [|? ? Hw0 Hr]; subst.
  unfold split_ws. apply (splitWs_joinSp r w [] Hw0 Hr).
Qed.

(** X2. Splitting undoes joining: words that are non-empty and free of
    white space, joined by single spaces and split again at white space,
    come back unchanged.  So the normalized caption splits into the very
    words the wrappers work on. *)
Theorem X2_split_join :
  (forall words,
     words <> [] -> Forall wordOk words ->
     split_ws (joinSp words) = words) /\
  (forall rawText,
     captionText rawText <> [] ->
     split_ws (normalize rawText) = split_ws (captionText rawText)).
Proof.
  split; [exact split_ws_joinSp|].
  intros rawText Hne.
  rewrite <- joinSp_split_ws.
  apply split_ws_joinSp; [apply caption_words_nonnil|].
  apply (caption_words rawText Hne).
Qed.

Lemma X2_split_join_witness :
  (sampleWords <> [] /\ Forall wordOk sampleWords /\
   split_ws (joinSp sampleWords) = sampleWords) /\
  (captionText sampleCaption <> [] /\
   split_ws (normalize sampleCaption) = split_ws (captionText sampleCaption)).
Proof.
  split.
  - assert (Hne : sampleWords <> []) by discriminate.
    assert (Hw : Forall wordOk sampleWords).
    { repeat (constructor;
              [split; [discriminate | repeat constructor]|]).
      constructor. }
    split; [exact Hne|]. split; [exact Hw|].
    exact (proj1 X2_split_join sampleWords Hne Hw).
  - assert (H : captionText sampleCaption <> [])
      by (vm_compute; discriminate).
    split; [exact H|].
    exact (proj2 X2_split_join sampleCaption H).
Defined.

Lemma normalize_nil (rawText : jsstring) :
  normalize rawText = [] <-> captionText rawText = [].
Proof.
  unfold normalize. fold (captionText rawText).
  destruct (captionText rawText) as [|c r]; [split; reflexivity|].
  cbn [collapseWs]. destruct (isSpace c); split; discriminate.
Qed.

(** Captions with the same normalized text are blank together and have
    the same words. *)
Lemma normalize_words (raw1 raw2 : jsstring) :
  normalize raw1 = normalize raw2 ->
  truthy (captionText raw1) = truthy (captionText raw2) /\
  split_ws (captionText raw1) = split_ws (captionText raw2).
Proof.
  intro H.
  destruct (captionText raw1) as [|c1 r1] eqn:E1.
  - assert (E2 : captionText raw2 = []).
    { apply normalize_nil. rewrite <- H. now apply normalize_nil. }
    rewrite E2. auto.
  - assert (N1 : captionText raw1 <> []) by (rewrite E1; discriminate).
    assert (N2 : captionText raw2 <> []).
    { intro E2. apply N1. apply normalize_nil. rewrite H.
      now apply normalize_nil. }
    rewrite <- E1. split.
    + apply truthy_true in N1, N2. now rewrite N1, N2.
    + destruct (caption_words raw1 N1) as [W1 _].
      destruct (caption_words raw2 N2) as [W2 _].
      rewrite <- (split_ws_joinSp _ (caption_words_nonnil raw1) W1).
      rewrite <- (split_ws_joinSp _ (caption_words_nonnil raw2) W2).
      now rewrite !joinSp_split_ws, H.
Qed.

(** X3. The wrappers see the caption only through its normalized form:
    two captions with the same text after trimming, upper-casing and
    collapsing of white space are painted identically by all three
    revisions, from the same context. *)
Theorem X3_normalized_caption_decides (measure : Font -> jsstring -> Q)
    (context : Canvas) (raw1 raw2 : jsstring)
    (centerX centerY boxWidth boxHeight size : Q) :
  normalize raw1 = normalize raw2 ->
  AppTsx.wrapText measure context raw1 centerX centerY
                  boxWidth boxHeight size
    = AppTsx.wrapText measure context raw2 centerX centerY
                      boxWidth boxHeight size /\
  CalcLines.wrapText measure context raw1 centerX centerY
                     boxWidth boxHeight size
    = CalcLines.wrapText measure context raw2 centerX centerY
                         boxWidth boxHeight size /\
  BestFit.wrapText measure context raw1 centerX centerY
                   boxWidth boxHeight size
    = BestFit.wrapText measure context raw2 centerX centerY
                       boxWidth boxHeight size.
Proof.
  intro H. destruct (normalize_words raw1 raw2 H) as [Ht Hw].
  unfold captionText in Ht, Hw.
  split; [|split].
  - unfold AppTsx.wrapText, AppTsx.layout. cbv zeta.
    now rewrite Ht, Hw.
  - unfold CalcLines.wrapText, CalcLines.fit. cbv zeta.
    now rewrite Ht, Hw.
  - unfold BestFit.wrapText, BestFit.fit. cbv zeta.
    now rewrite Ht, Hw.
Qed.

Lemma X3_normalized_caption_decides_witness :
  normalize sampleCaption = normalize looseCaption /\
  AppTsx.wrapText monoMeasure freshCanvas sampleCaption 750 250 500 500 40
    = AppTsx.wrapText monoMeasure freshCanvas looseCaption 750 250 500 500 40.
Proof.
  assert (H : normalize sampleCaption = normalize looseCaption)
    by (vm_compute; reflexivity).
  split; [exact H|].
  exact (proj1 (X3_normalized_caption_decides monoMeasure freshCanvas
                  sampleCaption looseCaption 750 250 500 500 40 H)).
Defined.

(** ** src/App.tsx: lines under forced splitting *)

Lemma splitChars_keeps_fit (width : jsstring -> Q) (W : Q) (cs : list ascii) :
  Forall (fun c => width [c] <= W) cs ->
  forall lines charLine lines' tail,
  Forall (fun l => width l <= W) lines ->
  (charLine = [] \/ width charLine <= W) ->
  AppTsx.splitChars width W cs lines charLine = (lines', tail) ->
  Forall (fun l => width l <= W) lines' /\ (tail = [] \/ width tail <= W).
Proof.
  induction cs as [|c rest IH]; intros Hcs lines cl lines' tail Hl Hc E;
    cbn [AppTsx.splitChars] in E.
  - injection E as <- <-. auto.
  - inversion Hcs as [|? ? Hc0 Hrest]; subst.
    case_if E G.
    + apply (IH Hrest) in E; [exact E| |now right].
      apply pushIf_Forall; [exact Hl|].
      intro Hne. destruct Hc; [congruence | assumption].
    + apply (IH Hrest) in E; [exact E | exact Hl|].
      right. now apply Qgtb_false in G.
Qed.

Lemma wrapWords_keeps_fit (width : jsstring -> Q) (W : Q)
                          (words : list jsstring) :
  Forall (Forall (fun c => width [c] <= W)) words ->
  forall lines currentLine b lines' cur' b',
  Forall (fun l => width l <= W) lines ->
  (currentLine = [] \/ width currentLine <= W) ->
  AppTsx.wrapWords width W words lines currentLine b = (lines', cur', b') ->
  Forall (fun l => width l <= W) lines' /\ (cur' = [] \/ width cur' <= W).
Proof.
  induction words as [|w rest IH];
    intros Hw lines cl b lines' cur' b' Hl Hc E;
    cbn [AppTsx.wrapWords] in E.
  - injection E as <- <- _. auto.
  - inversion Hw as [|? ? Hw0 Hrest]; subst.
    assert (Hpush : Forall (fun l => width l <= W) (pushIf lines cl)).
    { apply pushIf_Forall; [exact Hl|].
      intro Hne. destruct Hc; [congruence | assumption]. }
    assert (Hsplit : forall l l2 c2,
               Forall (fun x => width x <= W) l ->
               AppTsx.pushLineWithWordSplit width W l w = (l2, c2) ->
               Forall (fun x => width x <= W) l2 /\
               (c2 = [] \/ width c2 <= W)).
    { intros l l2 c2 Hl' E'. unfold AppTsx.pushLineWithWordSplit in E'.
      exact (splitChars_keeps_fit width W (chars w) Hw0 _ _ _ _ Hl'
               (or_introl eq_refl) E'). }
    destruct (truthy cl) eqn:T; cbv iota in E.
    + apply truthy_true in T. rewrite (pushIf_cons _ _ T) in Hpush.
      case_if E G.
      * case_if E Gw.
        -- case_pair E l2 c2 Sp.
           destruct (Hsplit _ _ _ Hpush Sp) as [A B].
           exact (IH Hrest _ _ _ _ _ _ A B E).
        -- apply Qgtb_false in Gw.
           exact (IH Hrest _ _ _ _ _ _ Hpush (or_intror Gw) E).
      * apply Qgtb_false in G.
        exact (IH Hrest _ _ _ _ _ _ Hl (or_intror G) E).
    + case_if E Gw.
      * case_pair E l2 c2 Sp.
        destruct (Hsplit _ _ _ Hl Sp) as [A B].
        exact (IH Hrest _ _ _ _ _ _ A B E).
      * apply Qgtb_false in Gw.
        exact (IH Hrest _ _ _ _ _ _ Hl (or_intror Gw) E).
Qed.

(** X5. App.tsx keeps every line within the target width, forced
    splitting included, as soon as each single code unit of the caption
    fits the target width at the size in use. *)
Theorem X5_appTsx_lines_contained (measure : Font -> jsstring -> Q)
    (context context' : Canvas) (rawText : jsstring) (boxWidth size : Q)
    (r : FitResult) :
  Forall (fun c => measure (AppTsx.fontString size) [c]
                   <= AppTsx.targetMaxWidth boxWidth)
         (captionText rawText) ->
  AppTsx.layout measure context rawText boxWidth size = (context', Some r) ->
  Forall (fun l => measure (AppTsx.fontString size) l
                   <= AppTsx.targetMaxWidth boxWidth) (lines r).
Proof.
  intros Hc E.
  assert (Hne : captionText rawText <> []).
  { intro Hb.
    rewrite (appTsx_layout_blank measure context rawText boxWidth size Hb)
      in E. discriminate. }
  rewrite (appTsx_layout_some measure context rawText boxWidth size Hne) in E.
  injection E as _ <-. cbn [lines].
  unfold AppTsx.breakLines, AppTsx.breakLinesFlag.
  destruct (AppTsx.wrapWords _ _ (split_ws (captionText rawText)) [] [] false)
    as [[l c] b] eqn:W. cbn [fst].
  assert (Hw : Forall (Forall (fun c => measure (AppTsx.fontString size) [c]
                                        <= AppTsx.targetMaxWidth boxWidth))
                      (split_ws (captionText rawText))).
  { apply splitWs_Forall; [exact Hc | constructor]. }
  destruct (wrapWords_keeps_fit _ _ _ Hw _ _ _ _ _ _ (Forall_nil _)
              (or_introl eq_refl) W) as [A B].
  apply pushIf_Forall; [exact A|].
  intro Hcne. destruct B; [congruence | assumption].
Qed.

Lemma X5_appTsx_lines_contained_witness :
  Forall (fun c => monoMeasure (AppTsx.fontString 40) [c]
                   <= AppTsx.targetMaxWidth 100)
         (captionText alphabet) /\
  AppTsx.layout monoMeasure freshCanvas alphabet 100 40
    = (setFont freshCanvas (AppTsx.fontString 40),
       Some (mkFit 40
               [str "ABC"; str "DEF"; str "GHI"; str "JKL"; str "MNO";
                str "PQR"; str "STU"; str "VWX"; str "YZ"]
               (40 * 1.15) (ofNat 9 * (40 * 1.15)))) /\
  Forall (fun l => monoMeasure (AppTsx.fontString 40) l
                   <= AppTsx.targetMaxWidth 100)
         [str "ABC"; str "DEF"; str "GHI"; str "JKL"; str "MNO";
          str "PQR"; str "STU"; str "VWX"; str "YZ"].
Proof.
  assert (Hc : Forall (fun c => monoMeasure (AppTsx.fontString 40) [c]
                                <= AppTsx.targetMaxWidth 100)
                      (captionText alphabet)).
  { apply Forall_forall. intros c Hin. vm_compute in Hin.
    repeat (destruct Hin as [<-|Hin]; [vm_compute; discriminate|]).
    contradiction. }
  assert (E : AppTsx.layout monoMeasure freshCanvas alphabet 100 40
              = (setFont freshCanvas (AppTsx.fontString 40),
                 Some (mkFit 40
                         [str "ABC"; str "DEF"; str "GHI"; str "JKL";
                          str "MNO"; str "PQR"; str "STU"; str "VWX";
                          str "YZ"]
                         (40 * 1.15) (ofNat 9 * (40 * 1.15)))))
    by reflexivity.
  split; [exact Hc|]. split; [exact E|].
  exact (X5_appTsx_lines_contained monoMeasure _ _ alphabet 100 40 _ Hc E).
Defined.

Lemma appTsx_lines_fit_witness :
  AppTsx.layout monoMeasure freshCanvas sampleCaption 500 40
    = (setFont freshCanvas (AppTsx.fontString 40),
       Some (mkFit 40 [str "ONE DOES NOT"; str "SIMPLY"]
                   (40 * 1.15) (ofNat 2 * (40 * 1.15)))) /\
  AppTsx.splitTriggered (monoMeasure (AppTsx.fontString 40))
    (AppTsx.targetMaxWidth 500) (split_ws (captionText sampleCaption))
    = false /\
  Forall (fun l => monoMeasure (AppTsx.fontString 40) l
                   <= AppTsx.targetMaxWidth 500)
         [str "ONE DOES NOT"; str "SIMPLY"].
Proof.
  assert (E : AppTsx.layout monoMeasure freshCanvas sampleCaption 500 40
              = (setFont freshCanvas (AppTsx.fontString 40),
                 Some (mkFit 40 [str "ONE DOES NOT"; str "SIMPLY"]
                             (40 * 1.15) (ofNat 2 * (40 * 1.15)))))
    by reflexivity.
  assert (F : AppTsx.splitTriggered (monoMeasure (AppTsx.fontString 40))
                (AppTsx.targetMaxWidth 500)
                (split_ws (captionText sampleCaption)) = false)
    by (vm_compute; reflexivity).
  split; [exact E|]. split; [exact F|].
  exact (proj2 (appTsx_lines_fit monoMeasure _ _ sampleCaption 500 40 _ E F)).
Defined.

Lemma letters_app (a b : jsstring) : letters (a ++ b) = letters a ++ letters b.
Proof. apply filter_app. Qed.

Lemma letters_word (w : jsstring) :
  Forall (fun c => isSpace c = false) w -> letters w = w.
Proof.
  induction 1 as [|c r Hc _ IH]; [reflexivity|].
  unfold letters in *. cbn [filter]. rewrite Hc. cbn [negb]. now rewrite IH.
Qed.

Lemma concat_pushIf (lines : list jsstring) (s : jsstring) :
  List.concat (pushIf lines s) = List.concat lines ++ s.
Proof.
  destruct s as [|c r].
  - rewrite pushIf_nil. now rewrite app_nil_r.
  - rewrite pushIf_cons by discriminate.
    rewrite concat_app. cbn [List.concat]. now rewrite app_nil_r.
Qed.

(** [pushLineWithWordSplit] neither loses nor moves a code unit. *)
Lemma splitChars_concat (width : jsstring -> Q) (W : Q) (cs : list ascii) :
  forall lines charLine lines' tail,
  AppTsx.splitChars width W cs lines charLine = (lines', tail) ->
  List.concat lines' ++ tail = List.concat lines ++ charLine ++ cs.
Proof.
  induction cs as [|c rest IH]; intros lines cl lines' tail E;
    cbn [AppTsx.splitChars] in E.
  - injection E as <- <-. now rewrite app_nil_r.
  - case_if E G; apply IH in E; rewrite E.
    + rewrite concat_pushIf. now rewrite <- !app_assoc.
    + now rewrite <- !app_assoc.
Qed.

Lemma wrapWords_letters (width : jsstring -> Q) (W : Q)
                        (words : list jsstring) :
  Forall (Forall (fun c => isSpace c = false)) words ->
  forall lines currentLine b lines' cur' b',
  AppTsx.wrapWords width W words lines currentLine b = (lines', cur', b') ->
  letters (List.concat lines' ++ cur')
  = letters (List.concat lines ++ currentLine) ++ List.concat words.
Proof.
  induction words as [|w rest IH]; intros Hw lines cl b lines' cur' b' E;
    cbn [AppTsx.wrapWords] in E.
  - injection E as <- <- _. cbn [List.concat]. now rewrite app_nil_r.
  - inversion Hw as [|? ? Hw0 Hrest]; subst.
    assert (Hgo : forall L C bb,
               letters (List.concat L ++ C)
               = letters (List.concat lines ++ cl) ++ w ->
               AppTsx.wrapWords width W rest L C bb = (lines', cur', b') ->
               letters (List.concat lines' ++ cur')
               = letters (List.concat lines ++ cl)
                 ++ List.concat (w :: rest)).
    { intros L C bb HK E'. rewrite (IH Hrest _ _ _ _ _ _ E'), HK.
      cbn [List.concat]. now rewrite <- app_assoc. }
    assert (Hsplit : forall L l2 c2,
               AppTsx.pushLineWithWordSplit width W L w = (l2, c2) ->
               letters (List.concat l2 ++ c2)
               = letters (List.concat L) ++ w).
    { intros L l2 c2 E'. unfold AppTsx.pushLineWithWordSplit, chars in E'.
      rewrite (splitChars_concat _ _ _ _ _ _ _ E'). cbn [app].
      now rewrite letters_app, (letters_word w Hw0). }
    destruct (truthy cl) eqn:T; cbv iota in E.
    + apply truthy_true in T.
      assert (Hpush : List.concat (lines ++ [cl]) = List.concat lines ++ cl).
      { rewrite <- (pushIf_cons _ _ T). apply concat_pushIf. }
      case_if E G.
      * case_if E Gw.
        -- case_pair E l2 c2 Sp. refine (Hgo _ _ _ _ E).
           rewrite (Hsplit _ _ _ Sp). now rewrite Hpush.
        -- refine (Hgo _ _ _ _ E).
           rewrite Hpush, letters_app, (letters_word w Hw0). reflexivity.
      * refine (Hgo _ _ _ _ E).
        rewrite !app_assoc, letters_app, (letters_word w Hw0).
        rewrite letters_app. change (letters space) with (@nil ascii).
        now rewrite app_nil_r.
    + apply truthy_false in T. subst cl. rewrite app_nil_r in *.
      case_if E Gw.
      * case_pair E l2 c2 Sp. refine (Hgo _ _ _ _ E).
        exact (Hsplit _ _ _ Sp).
      * refine (Hgo _ _ _ _ E).
        now rewrite letters_app, (letters_word w Hw0).
Qed.

Lemma concat_splitWs (s : jsstring) :
  forall cur,
  List.concat (splitWs cur false s) = cur ++ letters s /\
  List.concat (splitWs [] true s) = letters s.
Proof.
  induction s as [|c r IH]; intro cur; cbn [splitWs letters filter].
  - cbn [List.concat]. now rewrite !app_nil_r.
  - destruct (isSpace c); cbn [negb].
    + split; [|apply (proj2 (IH []))].
      cbn [List.concat]. now rewrite (proj2 (IH [])).
    + split.
      * rewrite (proj1 (IH (cur ++ [c]))). now rewrite <- app_assoc.
      * rewrite (proj1 (IH ([] ++ [c]))). reflexivity.
Qed.

(** X6. App.tsx neither loses, doubles nor moves a code unit of the
    caption, whether or not a word had to be split: the code units of the
    lines that are not white space, read in order, are those of the
    caption. *)
Theorem X6_appTsx_keeps_letters (measure : Font -> jsstring -> Q)
    (context context' : Canvas) (rawText : jsstring) (boxWidth size : Q)
    (r : FitResult) :
  AppTsx.layout measure context rawText boxWidth size = (context', Some r) ->
  letters (List.concat (lines r)) = letters (captionText rawText).
Proof.
  intro E.
  assert (Hne : captionText rawText <> []).
  { intro Hb.
    rewrite (appTsx_layout_blank measure context rawText boxWidth size Hb)
      in E. discriminate. }
  rewrite (appTsx_layout_some measure context rawText boxWidth size Hne) in E.
  injection E as _ <-. cbn [lines].
  unfold AppTsx.breakLines, AppTsx.breakLinesFlag.
  destruct (AppTsx.wrapWords _ _ (split_ws (captionText rawText)) [] [] false)
    as [[l c] b] eqn:W. cbn [fst].
  rewrite concat_pushIf.
  assert (Hw : Forall (Forall (fun c => isSpace c = false))
                      (split_ws (captionText rawText))).
  { destruct (caption_words rawText Hne) as [A _].
    eapply Forall_impl; [|exact A]. intros w [_ H]. exact H. }
  rewrite (wrapWords_letters _ _ _ Hw _ _ _ _ _ _ W).
  cbn [List.concat app letters filter].
  unfold split_ws. now rewrite (proj1 (concat_splitWs _ [])).
Qed.

Lemma X6_appTsx_keeps_letters_witness :
  AppTsx.layout monoMeasure freshCanvas alphabet 100 40
    = (setFont freshCanvas (AppTsx.fontString 40),
       Some (mkFit 40
               [str "ABC"; str "DEF"; str "GHI"; str "JKL"; str "MNO";
                str "PQR"; str "STU"; str "VWX"; str "YZ"]
               (40 * 1.15) (ofNat 9 * (40 * 1.15)))) /\
  letters (List.concat [str "ABC"; str "DEF"; str "GHI"; str "JKL";
                        str "MNO"; str "PQR"; str "STU"; str "VWX";
                        str "YZ"])
    = letters (captionText alphabet).
Proof.
  assert (E : AppTsx.layout monoMeasure freshCanvas alphabet 100 40
              = (setFont freshCanvas (AppTsx.fontString 40),
                 Some (mkFit 40
                         [str "ABC"; str "DEF"; str "GHI"; str "JKL";
                          str "MNO"; str "PQR"; str "STU"; str "VWX";
                          str "YZ"]
                         (40 * 1.15) (ofNat 9 * (40 * 1.15)))))
    by reflexivity.
  split; [exact E|].
  exact (X6_appTsx_keeps_letters monoMeasure _ _ alphabet 100 40 _ E).
Defined.

(** ** What the wrappers do to the drawing context *)

Lemma lineOps_In (st : DrawState) (ls : list jsstring) :
  forall index centerX startY lh op,
  In op (lineOps st ls index centerX startY lh) ->
  ftState op = st /\ ftX op = centerX /\ In (ftText op) ls.
Proof.
  induction ls as [|l rest IH]; intros index centerX startY lh op Hin;
    cbn [lineOps] in Hin.
  - contradiction.
  - destruct Hin as [<-|Hin].
    + cbn. auto.
    + apply IH in Hin. destruct Hin as (A & B & C).
      split; [exact A | split; [exact B | now right]].
Qed.

Lemma appTsx_wrapText_eq (measure : Font -> jsstring -> Q)
    (context context' : Canvas) (rawText : jsstring)
    (centerX centerY boxWidth boxHeight size : Q) (r : FitResult) :
  AppTsx.layout measure context rawText boxWidth size = (context', Some r) ->
  AppTsx.wrapText measure context rawText centerX centerY
                  boxWidth boxHeight size =
  mkCanvas (afterState (state context) (AppTsx.fontString size) BaseMiddle)
           (stack context)
           (painted context ++
            lineOps (paintState (state context) (AppTsx.fontString size)
                                BaseMiddle
                                (insetRect centerX centerY boxWidth boxHeight))
                    (lines r) 0 centerX (AppTsx.startY centerY r)
                    (lineHeight r)).
Proof.
  intro E. unfold AppTsx.wrapText. rewrite E.
  assert (Hc : context' = setFont context (AppTsx.fontString size)).
  { unfold AppTsx.layout in E.
    destruct (negb (truthy (toUpperCase (trim rawText)))); [discriminate|].
    now injection E as <- _. }
  subst context'. rewrite paintLines_spec. reflexivity.
Qed.

Lemma calcLines_paint_eq (context : Canvas) (v : FitVars)
    (centerX centerY boxWidth boxHeight : Q) :
  varLines v <> [] ->
  CalcLines.paint context v centerX centerY boxWidth boxHeight =
  mkCanvas (afterState (state context) (font (state context)) BaseTop)
           (stack context)
           (painted context ++
            lineOps (paintState (state context) (font (state context))
                                BaseTop
                                (boxRect centerX centerY boxWidth boxHeight))
                    (varLines v) 0 centerX
                    (centerY - totalBlockHeight v / 2) (varLineHeight v)).
Proof.
  intro Hne. unfold CalcLines.paint.
  destruct (varLines v) as [|l rest]; [congruence|].
  cbn [List.length Nat.eqb]. rewrite paintLines_spec. reflexivity.
Qed.

Lemma bestFit_paint_eq (context : Canvas) (v : FitVars)
    (centerX centerY boxWidth boxHeight : Q) :
  BestFit.paint context v centerX centerY boxWidth boxHeight =
  mkCanvas (afterState (state context) (font (state context)) BaseTop)
           (stack context)
           (painted context ++
            lineOps (paintState (state context) (font (state context))
                                BaseTop
                                (boxRect centerX centerY boxWidth boxHeight))
                    (varLines v) 0 centerX
                    (centerY - totalBlockHeight v / 2) (varLineHeight v)).
Proof.
  unfold BestFit.paint. rewrite paintLines_spec. reflexivity.
Qed.

(** The shrinking loop of the [calculateLines] revision changes nothing
    of the drawing state but the font, and leaves the font of the size it
    stops at when that size is above 8. *)
Lemma shrink_state (measure : Font -> jsstring -> Q)
    (words : list jsstring) (boxWidth boxHeight : Q) (fuel : nat) :
  forall context v turns context' v' turns',
  CalcLines.shrink measure fuel words boxWidth boxHeight context v turns
    = Some (context', v', turns') ->
  clipRegion (state context') = clipRegion (state context) /\
  (8 < currentFontSize v' ->
   font (state context') = fontStringUI (currentFontSize v')).
Proof.
  induction fuel as [|fuel IH]; intros context v turns context' v' turns' E;
    cbn [CalcLines.shrink] in E.
  - destruct (Qgtb (currentFontSize v) 8) eqn:G; [discriminate|].
    injection E as <- <- _. split; [reflexivity|].
    intro H. apply Qgtb_false in G. exfalso. exact (Qlt_not_le _ _ H G).
  - destruct (Qgtb (currentFontSize v) 8) eqn:G.
    + rewrite calculateLines_eq in E.
      destruct (calcBlock measure words boxWidth (currentFontSize v))
        as [ls|].
      * destruct (Qle_bool _ _).
        -- injection E as <- <- _. cbn. auto.
        -- apply IH in E. exact E.
      * apply IH in E. exact E.
    + injection E as <- <- _. split; [reflexivity|].
      intro H. apply Qgtb_false in G. exfalso. exact (Qlt_not_le _ _ H G).
Qed.

Lemma calcLines_fit_inv (measure : Font -> jsstring -> Q)
    (context context' : Canvas) (rawText : jsstring)
    (boxWidth boxHeight size : Q) (v : FitVars) (turns : nat) :
  CalcLines.fit measure context rawText boxWidth boxHeight size
    = Some (context', Some (v, turns)) ->
  captionText rawText <> [] /\
  CalcLines.shrink measure (scanFuel size 8) (split_ws (captionText rawText))
                   boxWidth boxHeight context (initVars size) 0
    = Some (context', v, turns).
Proof.
  unfold CalcLines.fit. fold (captionText rawText). intro E.
  destruct (captionText rawText) as [|c r] eqn:Ec; [discriminate|].
  split; [discriminate|]. cbn [truthy negb] in E.
  destruct (CalcLines.shrink _ _ _ _ _ _ _ _) as [[[c0 v0] t0]|];
    [|discriminate].
  now injection E as <- <- <-.
Qed.

Lemma bestFit_forWords_abort (width : jsstring -> Q) (W : Q)
                             (words : list jsstring) :
  forall n lines currentLine lines',
  BestFit.forWords width W n words lines currentLine = (lines', None) ->
  lines' <> [].
Proof.
  induction words as [|w rest IH]; intros n lines cl lines' E;
    cbn [BestFit.forWords] in E.
  - discriminate.
  - case_if E G.
    + case_if E Gw.
      * injection E as <-. destruct lines; discriminate.
      * eapply IH. exact E.
    + eapply IH. exact E.
Qed.

(** One call of [findBestFit]: either it does nothing at all, the size
    being at the floor already, or it leaves at least one line and the
    font of a size between the floor and the initial size. *)
Lemma findBestFit_pass (measure : Font -> jsstring -> Q)
    (words : list jsstring) (boxWidth boxHeight size : Q) (fuel : nat) :
  forall context v passes b context' v' passes',
  BestFit.findBestFit measure fuel words boxWidth boxHeight context v passes
    = Some (b, context', v', passes') ->
  currentFontSize v <= size ->
  clipRegion (state context') = clipRegion (state context) /\
  currentFontSize v' <= size /\
  ((context' = context /\ v' = v /\ currentFontSize v <= 6) \/
   (varLines v' <> [] /\
    exists f, font (state context') = fontStringUI f /\ 6 < f /\ f <= size)).
Proof.
  induction fuel as [|fuel IH];
    intros context v passes b context' v' passes' E Hsz;
    cbn [BestFit.findBestFit] in E.
  - destruct (Qgtb (currentFontSize v) 6) eqn:G; [discriminate|].
    injection E as _ <- <- _. apply Qgtb_false in G.
    split; [reflexivity|]. split; [exact Hsz|]. left. auto.
  - destruct (Qgtb (currentFontSize v) 6) eqn:G.
    + apply Qgtb_true in G.
      set (ctx := setFont context (fontStringUI (currentFontSize v))) in *.
      assert (Hfont : exists f, font (state ctx) = fontStringUI f /\
                                6 < f /\ f <= size).
      { exists (currentFontSize v). cbn. auto. }
      destruct (BestFit.forWords (BestFit.measureText measure ctx)
                  (BestFit.maxWidth boxWidth) 0 words [] [])
        as [ls [cur|]] eqn:F.
      * assert (Hls : ls ++ [trim cur] <> [])
          by (destruct ls; discriminate).
        destruct (Qle_bool _ _).
        -- injection E as _ <- <- _. cbn [currentFontSize varLines].
           split; [reflexivity|]. split; [exact Hsz|]. right. auto.
        -- apply IH in E; [|cbn [currentFontSize]; lra].
           cbn [currentFontSize] in E.
           destruct E as (A & B & [(-> & -> & _)|C]).
           ++ split; [reflexivity|]. split; [cbn; lra|].
              right. cbn [varLines]. auto.
           ++ split; [rewrite A; reflexivity|]. split; [exact B|].
              right. exact C.
      * apply bestFit_forWords_abort in F.
        injection E as _ <- <- _. cbn [currentFontSize varLines].
        split; [reflexivity|]. split; [lra|]. right. auto.
    + injection E as _ <- <- _. apply Qgtb_false in G.
      split; [reflexivity|]. split; [exact Hsz|]. left. auto.
Qed.

Lemma retry_pass (measure : Font -> jsstring -> Q)
    (words : list jsstring) (boxWidth boxHeight size : Q) (fuel : nat) :
  forall context v passes context' v' passes',
  BestFit.retry measure fuel words boxWidth boxHeight context v passes
    = Some (context', v', passes') ->
  currentFontSize v <= size ->
  clipRegion (state context') = clipRegion (state context) /\
  ((context' = context /\ v' = v /\ currentFontSize v <= 6) \/
   (varLines v' <> [] /\
    exists f, font (state context') = fontStringUI f /\ 6 < f /\ f <= size)).
Proof.
  induction fuel as [|fuel IH];
    intros context v passes context' v' passes' E Hsz;
    cbn [BestFit.retry] in E; [discriminate|].
  destruct (BestFit.findBestFit measure _ words boxWidth boxHeight
              context v passes) as [[[[b c1] v1] p1]|] eqn:F;
    [|discriminate].
  destruct (findBestFit_pass measure words boxWidth boxHeight size _ _ _ _
              _ _ _ _ F Hsz) as (A & B & C).
  destruct b.
  - injection E as <- <- _. split; [exact A | exact C].
  - apply IH in E; [|exact B].
    destruct E as (A' & [(-> & -> & _)|C']).
    + split; [exact A | exact C].
    + split; [now rewrite A', A | right; exact C'].
Qed.

Lemma bestFit_fit_inv (measure : Font -> jsstring -> Q)
    (context context' : Canvas) (rawText : jsstring)
    (boxWidth boxHeight size : Q) (v : FitVars) (passes : nat) :
  BestFit.fit measure context rawText boxWidth boxHeight size
    = Some (context', Some (v, passes)) ->
  captionText rawText <> [] /\
  BestFit.retry measure (S (scanFuel size 6))
                (split_ws (captionText rawText))
                boxWidth boxHeight context (initVars size) 0
    = Some (context', v, passes).
Proof.
  unfold BestFit.fit. fold (captionText rawText). intro E.
  destruct (Nat.eqb (List.length (split_ws (captionText rawText))) 0
            || negb (truthy (captionText rawText))) eqn:B.
  - discriminate.
  - apply orb_false_elim in B. destruct B as [_ B].
    apply negb_false_iff, truthy_true in B. split; [exact B|].
    destruct (BestFit.retry _ _ _ _ _ _ _ _) as [[[c0 v0] p0]|];
      [|discriminate].
    now injection E as <- <- <-.
Qed.

Lemma stepDown_below (m : Q) (k : nat) :
  forall f, (k < scanFuel f m)%nat -> m < stepDown k f.
Proof.
  induction k as [|k IH]; intros f H.
  - cbn [stepDown]. destruct (Qlt_le_dec m f) as [Hf|Hf]; [exact Hf|].
    rewrite (scanFuel_floor _ _ Hf) in H. lia.
  - assert (Hf : m < f).
    { destruct (Qlt_le_dec m f) as [Hf|Hf]; [exact Hf|].
      rewrite (scanFuel_floor _ _ Hf) in H. lia. }
    rewrite (scanFuel_step _ _ Hf) in H.
    cbn [stepDown]. apply IH. lia.
Qed.

(** ** part_000, [calculateLines]: what is painted *)

(** X7. Whatever the [calculateLines] revision paints is contained: each
    line is painted in the font it was measured with, at a size above 8
    and not above the initial size, its width in that font is at most the
    usable width, and the lines together are at most the usable height. *)
Theorem X7_calcLines_painted_contained (measure : Font -> jsstring -> Q)
    (context : Canvas) (rawText : jsstring)
    (centerX centerY boxWidth boxHeight size : Q) :
  exists c ops,
    CalcLines.wrapText measure context rawText centerX centerY
                       boxWidth boxHeight size = Some c /\
    painted c = painted context ++ ops /\
    Forall (fun op =>
              8 < fontPx (font (ftState op)) /\
              fontPx (font (ftState op)) <= size /\
              measure (font (ftState op)) (ftText op)
                <= CalcLines.maxWidth boxWidth /\
              ofNat (List.length ops) * (fontPx (font (ftState op)) * 1.15)
                <= CalcLines.maxHeight boxHeight) ops.
Proof.
  unfold CalcLines.wrapText.
  assert (Hd : captionText rawText = [] \/ captionText rawText <> []).
  { destruct (captionText rawText); [left | right]; congruence. }
  destruct Hd as [Ec|Hne].
  - rewrite (calcLines_fit_blank measure context rawText boxWidth boxHeight
               size Ec).
    exists context, []. rewrite app_nil_r. auto.
  - destruct (calcLines_fit_some measure context rawText boxWidth boxHeight
                size Hne) as (c' & v & t & E & Hpost & Hpa & _).
    destruct (calcLines_fit_inv measure _ _ _ _ _ _ _ _ E) as [_ Hs].
    destruct (shrink_state measure _ _ _ _ _ _ _ _ _ _ Hs) as [_ Hfont].
    rewrite E. unfold ShrinkPost in Hpost.
    cbn [initVars currentFontSize varLines] in Hpost.
    destruct Hpost as [(k & ls & _ & Hf & H8 & Hb & Hv & Hfit & _)
                      |(_ & Hv & _)].
    + assert (Hls : varLines v <> []).
      { rewrite Hv. cbn [varLines].
        eapply calcBlock_nonnil; [apply caption_words_nonnil| |exact Hb].
        now apply caption_words_nonempty. }
      eexists _, _. split; [reflexivity|].
      rewrite (calcLines_paint_eq c' v _ _ _ _ Hls). cbn [painted].
      rewrite Hpa. split; [reflexivity|].
      destruct Hfit as (ls' & Hb' & Hw & Hh).
      rewrite Hb in Hb'. injection Hb' as <-.
      apply Forall_forall. intros op Hin.
      rewrite lineOps_length.
      apply lineOps_In in Hin. destruct Hin as (Hst & _ & Htxt).
      rewrite Hst. cbn [paintState font]. rewrite (Hfont H8).
      cbn [fontStringUI fontPx].
      rewrite Hv in Htxt |- *. cbn [varLines] in *.
      rewrite Forall_forall in Hw.
      split; [exact H8|]. split; [rewrite Hf; apply stepDown_le_start|].
      split; [exact (Hw _ Htxt) | exact Hh].
    + exists c', []. rewrite Hv. cbn [CalcLines.paint varLines List.length
                                        Nat.eqb].
      rewrite app_nil_r. auto.
Qed.

(** X8. The [calculateLines] revision paints exactly when some size of
    its scan [size, size - 1, ...] above 8 gives a block that fits the
    usable width and height, and then with the first such size. *)
Theorem X8_calcLines_first_fit (measure : Font -> jsstring -> Q)
    (rawText : jsstring) (boxWidth boxHeight size : Q) :
  (forall f,
     calcChosenSize measure rawText boxWidth boxHeight size = Some f ->
     exists k,
       f = stepDown k size /\ 8 < f /\
       calcFits measure (split_ws (captionText rawText))
                boxWidth boxHeight f /\
       forall j, (j < k)%nat ->
         ~ calcFits measure (split_ws (captionText rawText))
                    boxWidth boxHeight (stepDown j size)) /\
  (calcChosenSize measure rawText boxWidth boxHeight size = None ->
   captionText rawText = [] \/
   forall j, (j < scanFuel size 8)%nat ->
     ~ calcFits measure (split_ws (captionText rawText))
                boxWidth boxHeight (stepDown j size)).
Proof.
  split.
  - intros f H.
    destruct (calcChosenSize_scan _ _ _ _ _ _ H)
      as (_ & k & Hk & Hf & Hfit & Hmin).
    exists k. split; [exact Hf|]. split; [|split; assumption].
    rewrite Hf. now apply stepDown_below.
  - intro H.
    assert (Hd : captionText rawText = [] \/ captionText rawText <> []).
    { destruct (captionText rawText); [left | right]; congruence. }
    destruct Hd as [Ec|Hne]; [now left|].
    right. intros j Hj Hfit.
    destruct (calcChosenSize_found measure rawText boxWidth boxHeight size
                j Hne Hj Hfit) as (k' & _ & E).
    congruence.
Qed.

Lemma X8_calcLines_first_fit_witness :
  calcChosenSize monoMeasure alphabet 500 500 55 = Some (stepDown 29 55) /\
  exists k,
    stepDown 29 55 = stepDown k 55 /\ 8 < stepDown 29 55 /\
    calcFits monoMeasure (split_ws (captionText alphabet)) 500 500
             (stepDown 29 55) /\
    forall j, (j < k)%nat ->
      ~ calcFits monoMeasure (split_ws (captionText alphabet)) 500 500
                 (stepDown j 55).
Proof.
  assert (E : calcChosenSize monoMeasure alphabet 500 500 55
              = Some (stepDown 29 55)) by (vm_compute; reflexivity).
  split; [exact E|].
  exact (proj1 (X8_calcLines_first_fit monoMeasure alphabet 500 500 55) _ E).
Defined.

(** X12. Below the floor nothing is painted, whatever the caption: the
    [calculateLines] revision returns the context untouched when the
    initial size is at most 8, and the [findBestFit] revision adds no
    line when it is at most 6. *)
Theorem X12_at_floor_nothing_painted (measure : Font -> jsstring -> Q)
    (context : Canvas) (rawText : jsstring)
    (centerX centerY boxWidth boxHeight size : Q) :
  (size <= 8 ->
   CalcLines.wrapText measure context rawText centerX centerY
                      boxWidth boxHeight size = Some context) /\
  (size <= 6 ->
   exists c,
     BestFit.wrapText measure context rawText centerX centerY
                      boxWidth boxHeight size = Some c /\
     painted c = painted context).
Proof.
  split.
  - intro H. unfold CalcLines.wrapText, CalcLines.fit.
    destruct (negb (truthy (toUpperCase (trim rawText)))); [reflexivity|].
    rewrite (scanFuel_floor _ _ H). cbn [CalcLines.shrink].
    apply Qgtb_false in H.
    change (currentFontSize (initVars size)) with size. rewrite H.
    reflexivity.
  - intro H. unfold BestFit.wrapText, BestFit.fit.
    destruct (Nat.eqb _ 0 || negb (truthy (toUpperCase (trim rawText)))).
    + exists context. auto.
    + rewrite (scanFuel_floor _ _ H).
      cbn [BestFit.retry BestFit.findBestFit initVars currentFontSize].
      rewrite (scanFuel_floor _ _ H). cbn [BestFit.findBestFit].
      apply Qgtb_false in H.
      change (currentFontSize (initVars size)) with size. rewrite H.
      eexists. split; [reflexivity|].
      rewrite bestFit_paint_eq. cbn [painted varLines lineOps].
      now rewrite app_nil_r.
Qed.

Lemma X12_at_floor_nothing_painted_witness :
  (8 <= 8 /\
   CalcLines.wrapText monoMeasure freshCanvas sampleCaption 750 250 500 500 8
     = Some freshCanvas) /\
  (6 <= 6 /\
   exists c,
     BestFit.wrapText monoMeasure freshCanvas sampleCaption 750 250 500 500 6
       = Some c /\
     painted c = painted freshCanvas).
Proof.
  assert (H8 : 8 <= 8) by (vm_compute; discriminate).
  assert (H6 : 6 <= 6) by (vm_compute; discriminate).
  split.
  - split; [exact H8|].
    exact (proj1 (X12_at_floor_nothing_painted monoMeasure freshCanvas
                    sampleCaption 750 250 500 500 8) H8).
  - split; [exact H6|].
    exact (proj2 (X12_at_floor_nothing_painted monoMeasure freshCanvas
                    sampleCaption 750 250 500 500 6) H6).
Defined.

(** ** part_000, [findBestFit]: what is painted *)

(** X13. For a caption that is not blank and an initial size above 6,
    the [findBestFit] revision always paints at least one line, and every
    line it paints is in a font of a size above 6 and not above the
    initial size. *)
Theorem X13_bestFit_always_paints (measure : Font -> jsstring -> Q)
    (context : Canvas) (rawText : jsstring)
    (centerX centerY boxWidth boxHeight size : Q) :
  captionText rawText <> [] -> 6 < size ->
  exists c op ops,
    BestFit.wrapText measure context rawText centerX centerY
                     boxWidth boxHeight size = Some c /\
    painted c = painted context ++ op :: ops /\
    Forall (fun o => exists f,
              font (ftState o) = fontStringUI f /\ 6 < f /\ f <= size)
           (op :: ops).
Proof.
  intros Hne H6.
  destruct (bestFit_fit_some measure context rawText boxWidth boxHeight
              size Hne) as (c' & v & p & E & _ & _ & _ & Hpa).
  destruct (bestFit_fit_inv measure _ _ _ _ _ _ _ _ E) as [_ Hr].
  destruct (retry_pass measure _ boxWidth boxHeight size _ _ _ _ _ _ _ Hr
              (Qle_refl _)) as [_ [(_ & _ & Hle)|(Hl & f & Hf & Hf6 & Hfs)]].
  { cbn [initVars currentFontSize] in Hle.
    exfalso. exact (Qlt_not_le _ _ H6 Hle). }
  unfold BestFit.wrapText. rewrite E. rewrite bestFit_paint_eq.
  cbn [painted]. rewrite Hpa.
  destruct (lineOps _ (varLines v) 0 centerX _ _) as [|op ops] eqn:L.
  { apply (f_equal (@List.length FillText)) in L.
    rewrite lineOps_length in L. destruct (varLines v); [congruence|].
    discriminate. }
  eexists _, op, ops. split; [reflexivity|]. split; [reflexivity|].
  apply Forall_forall. intros o Hin. rewrite <- L in Hin.
  apply lineOps_In in Hin. destruct Hin as (Hst & _).
  exists f. rewrite Hst. cbn [paintState font]. auto.
Qed.

Lemma X13_bestFit_always_paints_witness :
  captionText sampleCaption <> [] /\ 6 < 40 /\
  exists c op ops,
    BestFit.wrapText monoMeasure freshCanvas sampleCaption
                     750 250 500 500 40 = Some c /\
    painted c = painted freshCanvas ++ op :: ops /\
    Forall (fun o => exists f,
              font (ftState o) = fontStringUI f /\ 6 < f /\ f <= 40)
           (op :: ops).
Proof.
  assert (Hne : captionText sampleCaption <> [])
    by (vm_compute; discriminate).
  assert (H6 : 6 < 40) by (vm_compute; reflexivity).
  split; [exact Hne|]. split; [exact H6|].
  exact (X13_bestFit_always_paints monoMeasure freshCanvas sampleCaption
           750 250 500 500 40 Hne H6).
Defined.

(** ** The drawing context after a caption *)

Lemma findBestFit_stack (measure : Font -> jsstring -> Q)
    (words : list jsstring) (boxWidth boxHeight : Q) (fuel : nat) :
  forall context v passes b context' v' passes',
  BestFit.findBestFit measure fuel words boxWidth boxHeight context v passes
    = Some (b, context', v', passes') ->
  stack context' = stack context /\ painted context' = painted context.
Proof.
  induction fuel as [|fuel IH];
    intros context v passes b context' v' passes' E;
    cbn [BestFit.findBestFit] in E.
  - destruct (Qgtb (currentFontSize v) 6); [discriminate|].
    injection E as _ <- _ _. auto.
  - destruct (Qgtb (currentFontSize v) 6).
    + destruct (BestFit.forWords _ _ 0 words [] []) as [ls [cur|]].
      * destruct (Qle_bool _ _).
        -- injection E as _ <- _ _. auto.
        -- apply IH in E. exact E.
      * injection E as _ <- _ _. auto.
    + injection E as _ <- _ _. auto.
Qed.

Lemma retry_stack (measure : Font -> jsstring -> Q)
    (words : list jsstring) (boxWidth boxHeight : Q) (fuel : nat) :
  forall context v passes context' v' passes',
  BestFit.retry measure fuel words boxWidth boxHeight context v passes
    = Some (context', v', passes') ->
  stack context' = stack context /\ painted context' = painted context.
Proof.
  induction fuel as [|fuel IH];
    intros context v passes context' v' passes' E;
    cbn [BestFit.retry] in E; [discriminate|].
  destruct (BestFit.findBestFit measure _ words boxWidth boxHeight
              context v passes) as [[[[b c1] v1] p1]|] eqn:F;
    [|discriminate].
  destruct (findBestFit_stack _ _ _ _ _ _ _ _ _ _ _ _ F) as [A B].
  destruct b.
  - injection E as <- _ _. auto.
  - apply IH in E. destruct E as [A' B']. split; congruence.
Qed.

(** What one call of [wrapText] does to the context, whatever the
    revision: it adds [fillText] calls, all issued in one drawing state,
    and gives back the save stack and the clip it found. *)
Lemma appTsx_wrapText_shape (measure : Font -> jsstring -> Q)
    (context : Canvas) (rawText : jsstring)
    (centerX centerY boxWidth boxHeight size : Q) :
  exists ops,
    painted (AppTsx.wrapText measure context rawText centerX centerY
                             boxWidth boxHeight size)
      = painted context ++ ops /\
    stack (AppTsx.wrapText measure context rawText centerX centerY
                           boxWidth boxHeight size) = stack context /\
    clipRegion (state (AppTsx.wrapText measure context rawText centerX
                                       centerY boxWidth boxHeight size))
      = clipRegion (state context) /\
    Forall (fun op =>
              ftState op
                = paintState (state context) (AppTsx.fontString size)
                    BaseMiddle
                    (insetRect centerX centerY boxWidth boxHeight) /\
              ftX op = centerX) ops.
Proof.
  destruct (AppTsx.layout measure context rawText boxWidth size)
    as [c' [r|]] eqn:E.
  - rewrite (appTsx_wrapText_eq measure context c' rawText centerX centerY
               boxWidth boxHeight size r E).
    eexists. split; [reflexivity|]. split; [reflexivity|].
    split; [reflexivity|].
    apply Forall_forall. intros op Hin. apply lineOps_In in Hin.
    destruct Hin as (A & B & _). auto.
  - unfold AppTsx.wrapText. rewrite E.
    assert (Hc : c' = context).
    { unfold AppTsx.layout in E.
      destruct (negb (truthy (toUpperCase (trim rawText))));
        [now injection E as <- | discriminate]. }
    subst c'. exists []. rewrite app_nil_r. auto.
Qed.

Lemma calcLines_wrapText_shape (measure : Font -> jsstring -> Q)
    (context : Canvas) (rawText : jsstring)
    (centerX centerY boxWidth boxHeight size : Q) :
  exists c ops f,
    CalcLines.wrapText measure context rawText centerX centerY
                       boxWidth boxHeight size = Some c /\
    painted c = painted context ++ ops /\
    stack c = stack context /\
    clipRegion (state c) = clipRegion (state context) /\
    Forall (fun op =>
              ftState op
                = paintState (state context) f BaseTop
                    (boxRect centerX centerY boxWidth boxHeight) /\
              ftX op = centerX) ops.
Proof.
  unfold CalcLines.wrapText.
  assert (Hd : captionText rawText = [] \/ captionText rawText <> []).
  { destruct (captionText rawText); [left | right]; congruence. }
  destruct Hd as [Ec|Hne].
  - rewrite (calcLines_fit_blank measure context rawText boxWidth boxHeight
               size Ec).
    exists context, [], (font (state context)). rewrite app_nil_r. auto.
  - destruct (calcLines_fit_some measure context rawText boxWidth boxHeight
                size Hne) as (c' & v & t & E & _ & Hpa & Hst).
    destruct (calcLines_fit_inv measure _ _ _ _ _ _ _ _ E) as [_ Hs].
    destruct (shrink_state measure _ _ _ _ _ _ _ _ _ _ Hs) as [Hclip _].
    rewrite E.
    destruct (varLines v) as [|l rest] eqn:L.
    + exists c', [], (font (state context)).
      unfold CalcLines.paint. rewrite L. cbn [List.length Nat.eqb].
      rewrite app_nil_r. auto.
    + assert (Hl : varLines v <> []) by (rewrite L; discriminate).
      rewrite (calcLines_paint_eq c' v _ _ _ _ Hl).
      eexists _, _, (font (state c')). split; [reflexivity|].
      cbn [painted stack state afterState clipRegion].
      rewrite Hpa. split; [reflexivity|]. split; [exact Hst|].
      split; [exact Hclip|].
      apply Forall_forall. intros op Hin. apply lineOps_In in Hin.
      destruct Hin as (A & B & _). split; [|exact B].
      rewrite A. unfold paintState. now rewrite Hclip.
Qed.

Lemma bestFit_wrapText_shape (measure : Font -> jsstring -> Q)
    (context : Canvas) (rawText : jsstring)
    (centerX centerY boxWidth boxHeight size : Q) :
  exists c ops f,
    BestFit.wrapText measure context rawText centerX centerY
                     boxWidth boxHeight size = Some c /\
    painted c = painted context ++ ops /\
    stack c = stack context /\
    clipRegion (state c) = clipRegion (state context) /\
    Forall (fun op =>
              ftState op
                = paintState (state context) f BaseTop
                    (boxRect centerX centerY boxWidth boxHeight) /\
              ftX op = centerX) ops.
Proof.
  unfold BestFit.wrapText.
  assert (Hd : captionText rawText = [] \/ captionText rawText <> []).
  { destruct (captionText rawText); [left | right]; congruence. }
  destruct Hd as [Ec|Hne].
  - rewrite (bestFit_fit_blank measure context rawText boxWidth boxHeight
               size Ec).
    exists context, [], (font (state context)). rewrite app_nil_r. auto.
  - destruct (bestFit_fit_some measure context rawText boxWidth boxHeight
                size Hne) as (c' & v & p & E & _).
    destruct (bestFit_fit_inv measure _ _ _ _ _ _ _ _ E) as [_ Hr].
    destruct (retry_pass measure _ boxWidth boxHeight size _ _ _ _ _ _ _ Hr
                (Qle_refl _)) as [Hclip _].
    destruct (retry_stack measure _ _ _ _ _ _ _ _ _ _ Hr) as [Hst Hpa].
    rewrite E. rewrite bestFit_paint_eq.
    eexists _, _, (font (state c')). split; [reflexivity|].
    cbn [painted stack state afterState clipRegion].
    rewrite Hpa. split; [reflexivity|]. split; [exact Hst|].
    split; [exact Hclip|].
    apply Forall_forall. intros op Hin. apply lineOps_In in Hin.
    destruct Hin as (A & B & _). split; [|exact B].
    rewrite A. unfold paintState. now rewrite Hclip.
Qed.

(** X10. The clip does not leak: in all three revisions a call of
    [wrapText] only adds to what is painted, and returns with the save
    stack and the clip region of the context as it found them, so a
    caption is never clipped by the box of the caption painted before
    it. *)
Theorem X10_clip_restored (measure : Font -> jsstring -> Q)
    (context : Canvas) (rawText : jsstring)
    (centerX centerY boxWidth boxHeight size : Q) :
  (exists ops,
     painted (AppTsx.wrapText measure context rawText centerX centerY
                              boxWidth boxHeight size)
       = painted context ++ ops /\
     stack (AppTsx.wrapText measure context rawText centerX centerY
                            boxWidth boxHeight size) = stack context /\
     clipRegion (state (AppTsx.wrapText measure context rawText centerX
                                        centerY boxWidth boxHeight size))
       = clipRegion (state context)) /\
  (exists c ops,
     CalcLines.wrapText measure context rawText centerX centerY
                        boxWidth boxHeight size = Some c /\
     painted c = painted context ++ ops /\
     stack c = stack context /\
     clipRegion (state c) = clipRegion (state context)) /\
  (exists c ops,
     BestFit.wrapText measure context rawText centerX centerY
                      boxWidth boxHeight size = Some c /\
     painted c = painted context ++ ops /\
     stack c = stack context /\
     clipRegion (state c) = clipRegion (state context)).
Proof.
  split; [|split].
  - destruct (appTsx_wrapText_shape measure context rawText centerX centerY
                boxWidth boxHeight size) as (ops & A & B & C & _).
    exists ops. auto.
  - destruct (calcLines_wrapText_shape measure context rawText centerX
                centerY boxWidth boxHeight size)
      as (c & ops & f & A & B & C & D & _).
    exists c, ops. auto.
  - destruct (bestFit_wrapText_shape measure context rawText centerX
                centerY boxWidth boxHeight size)
      as (c & ops & f & A & B & C & D & _).
    exists c, ops. auto.
Qed.

(** X11. Every line is painted centre-aligned at [centerX], in black, and
    under a clip made of the caption's box on top of the clip found: the
    box itself in the revisions of part_000, the box 5 units in on each
    side in App.tsx. *)
Theorem X11_painted_under_box_clip (measure : Font -> jsstring -> Q)
    (context : Canvas) (rawText : jsstring)
    (centerX centerY boxWidth boxHeight size : Q) :
  (exists ops,
     painted (AppTsx.wrapText measure context rawText centerX centerY
                              boxWidth boxHeight size)
       = painted context ++ ops /\
     Forall (fun op =>
               clipRegion (ftState op)
                 = insetRect centerX centerY boxWidth boxHeight
                   :: clipRegion (state context) /\
               textAlign (ftState op) = AlignCenter /\
               fillStyle (ftState op) = "#000000"%string /\
               ftX op = centerX) ops) /\
  (exists c ops,
     CalcLines.wrapText measure context rawText centerX centerY
                        boxWidth boxHeight size = Some c /\
     painted c = painted context ++ ops /\
     Forall (fun op =>
               clipRegion (ftState op)
                 = boxRect centerX centerY boxWidth boxHeight
                   :: clipRegion (state context) /\
               textAlign (ftState op) = AlignCenter /\
               fillStyle (ftState op) = "#000000"%string /\
               ftX op = centerX) ops) /\
  (exists c ops,
     BestFit.wrapText measure context rawText centerX centerY
                      boxWidth boxHeight size = Some c /\
     painted c = painted context ++ ops /\
     Forall (fun op =>
               clipRegion (ftState op)
                 = boxRect centerX centerY boxWidth boxHeight
                   :: clipRegion (state context) /\
               textAlign (ftState op) = AlignCenter /\
               fillStyle (ftState op) = "#000000"%string /\
               ftX op = centerX) ops).
Proof.
  split; [|split].
  - destruct (appTsx_wrapText_shape measure context rawText centerX centerY
                boxWidth boxHeight size) as (ops & A & _ & _ & F).
    exists ops. split; [exact A|].
    eapply Forall_impl; [|exact F]. intros op [-> ->]. cbn. auto.
  - destruct (calcLines_wrapText_shape measure context rawText centerX
                centerY boxWidth boxHeight size)
      as (c & ops & f & A & B & _ & _ & F).
    exists c, ops. split; [exact A|]. split; [exact B|].
    eapply Forall_impl; [|exact F]. intros op [-> ->]. cbn. auto.
  - destruct (bestFit_wrapText_shape measure context rawText centerX
                centerY boxWidth boxHeight size)
      as (c & ops & f & A & B & _ & _ & F).
    exists c, ops. split; [exact A|]. split; [exact B|].
    eapply Forall_impl; [|exact F]. intros op [-> ->]. cbn. auto.
Qed.

(** ** [drawMeme]: the two captions *)

Lemma paintState_clip (s : DrawState) (f : Font) (b : Baseline) (r : Rect) :
  clipRegion (paintState s f b r) = r :: clipRegion s.
Proof. reflexivity. Qed.

(** [findBestFit] pins the font before it measures: its result does not
    depend on the context it is entered with, and after a pass the two
    contexts carry the same font. *)
Lemma findBestFit_context (measure : Font -> jsstring -> Q)
    (words : list jsstring) (boxWidth boxHeight : Q) (fuel : nat) :
  forall c1 c2 v passes b1 c1' v1 p1 b2 c2' v2 p2,
  BestFit.findBestFit measure fuel words boxWidth boxHeight c1 v passes
    = Some (b1, c1', v1, p1) ->
  BestFit.findBestFit measure fuel words boxWidth boxHeight c2 v passes
    = Some (b2, c2', v2, p2) ->
  b1 = b2 /\ v1 = v2 /\ p1 = p2 /\
  ((c1' = c1 /\ c2' = c2 /\ v1 = v) \/
   font (state c1') = font (state c2')).
Proof.
  induction fuel as [|fuel IH];
    intros c1 c2 v passes b1 c1' v1 p1 b2 c2' v2 p2 E1 E2;
    cbn [BestFit.findBestFit] in E1, E2.
  - destruct (Qgtb (currentFontSize v) 6); [discriminate|].
    injection E1 as <- <- <- <-. injection E2 as <- <- <- <-.
    repeat split. left. auto.
  - destruct (Qgtb (currentFontSize v) 6).
    + change (BestFit.measureText measure
                (setFont c1 (fontStringUI (currentFontSize v))))
        with (fun s => measure (fontStringUI (currentFontSize v)) s) in E1.
      change (BestFit.measureText measure
                (setFont c2 (fontStringUI (currentFontSize v))))
        with (fun s => measure (fontStringUI (currentFontSize v)) s) in E2.
      destruct (BestFit.forWords _ _ 0 words [] []) as [ls [cur|]].
      * destruct (Qle_bool _ _).
        -- injection E1 as <- <- <- <-. injection E2 as <- <- <- <-.
           repeat split. right. reflexivity.
        -- destruct (IH _ _ _ _ _ _ _ _ _ _ _ _ E1 E2)
             as (A & B & C & [(-> & -> & _)|D]).
           ++ repeat split; try assumption. right. reflexivity.
           ++ repeat split; try assumption. right. exact D.
      * injection E1 as <- <- <- <-. injection E2 as <- <- <- <-.
        repeat split. right. reflexivity.
    + injection E1 as <- <- <- <-. injection E2 as <- <- <- <-.
      repeat split. left. auto.
Qed.

Lemma retry_context (measure : Font -> jsstring -> Q)
    (words : list jsstring) (boxWidth boxHeight : Q) (fuel : nat) :
  forall c1 c2 v passes c1' v1 p1 c2' v2 p2,
  BestFit.retry measure fuel words boxWidth boxHeight c1 v passes
    = Some (c1', v1, p1) ->
  BestFit.retry measure fuel words boxWidth boxHeight c2 v passes
    = Some (c2', v2, p2) ->
  v1 = v2 /\ p1 = p2 /\
  ((c1' = c1 /\ c2' = c2 /\ v1 = v) \/
   font (state c1') = font (state c2')).
Proof.
  induction fuel as [|fuel IH];
    intros c1 c2 v passes c1' v1 p1 c2' v2 p2 E1 E2;
    cbn [BestFit.retry] in E1, E2; [discriminate|].
  destruct (BestFit.findBestFit measure _ words boxWidth boxHeight
              c1 v passes) as [[[[b1 d1] w1] q1]|] eqn:F1; [|discriminate].
  destruct (BestFit.findBestFit measure _ words boxWidth boxHeight
              c2 v passes) as [[[[b2 d2] w2] q2]|] eqn:F2; [|discriminate].
  destruct (findBestFit_context _ _ _ _ _ _ _ _ _ _ _ _ _ _ _ _ _ F1 F2)
    as (Hb & Hv & Hp & D).
  subst b2 w2 q2. destruct b1.
  - injection E1 as <- <- <-. injection E2 as <- <- <-.
    split; [reflexivity|]. split; [reflexivity | exact D].
  - destruct (IH _ _ _ _ _ _ _ _ _ _ E1 E2) as (A & B & [(-> & -> & ->)|D']).
    + split; [exact A|]. split; [exact B|].
      destruct D as [(-> & -> & ->)|D]; [left; auto | right; exact D].
    + split; [exact A|]. split; [exact B|]. right. exact D'.
Qed.

(** What [wrapText] paints does not depend on the context it is entered
    with, but for the clip: font, alignment, baseline and colour are set
    anew before they are used. *)
Lemma appTsx_wrapText_indep (measure : Font -> jsstring -> Q)
    (c1 c2 : Canvas) (rawText : jsstring)
    (centerX centerY boxWidth boxHeight size : Q) :
  clipRegion (state c1) = clipRegion (state c2) ->
  exists ops,
    painted (AppTsx.wrapText measure c1 rawText centerX centerY
                             boxWidth boxHeight size) = painted c1 ++ ops /\
    painted (AppTsx.wrapText measure c2 rawText centerX centerY
                             boxWidth boxHeight size) = painted c2 ++ ops.
Proof.
  intro Hclip.
  assert (Hd : captionText rawText = [] \/ captionText rawText <> []).
  { destruct (captionText rawText); [left | right]; congruence. }
  destruct Hd as [Hb|Hne].
  - exists []. unfold AppTsx.wrapText.
    rewrite !(appTsx_layout_blank measure _ rawText boxWidth size Hb).
    now rewrite !app_nil_r.
  - pose proof (appTsx_layout_some measure c1 rawText boxWidth size Hne)
      as E1.
    pose proof (appTsx_layout_some measure c2 rawText boxWidth size Hne)
      as E2.
    rewrite (appTsx_wrapText_eq measure c1 _ rawText centerX centerY
               boxWidth boxHeight size _ E1).
    rewrite (appTsx_wrapText_eq measure c2 _ rawText centerX centerY
               boxWidth boxHeight size _ E2).
    cbn [painted]. unfold paintState. rewrite Hclip.
    eexists. split; reflexivity.
Qed.

Lemma calcLines_wrapText_indep (measure : Font -> jsstring -> Q)
    (c1 c2 : Canvas) (rawText : jsstring)
    (centerX centerY boxWidth boxHeight size : Q) :
  clipRegion (state c1) = clipRegion (state c2) ->
  exists r1 r2 ops,
    CalcLines.wrapText measure c1 rawText centerX centerY
                       boxWidth boxHeight size = Some r1 /\
    CalcLines.wrapText measure c2 rawText centerX centerY
                       boxWidth boxHeight size = Some r2 /\
    painted r1 = painted c1 ++ ops /\ painted r2 = painted c2 ++ ops.
Proof.
  intro Hclip. unfold CalcLines.wrapText.
  assert (Hd : captionText rawText = [] \/ captionText rawText <> []).
  { destruct (captionText rawText); [left | right]; congruence. }
  destruct Hd as [Hb|Hne].
  - rewrite !(calcLines_fit_blank measure _ rawText boxWidth boxHeight
                size Hb).
    exists c1, c2, []. now rewrite !app_nil_r.
  - destruct (calcLines_fit_some measure c1 rawText boxWidth boxHeight
                size Hne) as (d1 & v1 & t1 & E1 & Post & Hpa1 & _).
    destruct (calcLines_fit_some measure c2 rawText boxWidth boxHeight
                size Hne) as (d2 & v2 & t2 & E2 & _ & Hpa2 & _).
    destruct (calcLines_fit_inv measure _ _ _ _ _ _ _ _ E1) as [_ S1].
    destruct (calcLines_fit_inv measure _ _ _ _ _ _ _ _ E2) as [_ S2].
    pose proof (shrink_context measure (split_ws (captionText rawText))
                  boxWidth boxHeight (scanFuel size 8) c1 c2
                  (initVars size) 0) as Hctx.
    rewrite S1, S2 in Hctx. cbn in Hctx. injection Hctx as <- <-.
    destruct (shrink_state measure _ _ _ _ _ _ _ _ _ _ S1) as [K1 F1].
    destruct (shrink_state measure _ _ _ _ _ _ _ _ _ _ S2) as [K2 F2].
    rewrite E1, E2.
    destruct (varLines v1) as [|l rest] eqn:L.
    + exists d1, d2, []. unfold CalcLines.paint. rewrite L.
      cbn [List.length Nat.eqb]. rewrite !app_nil_r. auto.
    + assert (Hl : varLines v1 <> []) by (rewrite L; discriminate).
      assert (H8 : 8 < currentFontSize v1).
      { unfold ShrinkPost in Post.
        destruct Post as [(k & ls & _ & _ & H8 & _)|(_ & Hv & _)];
          [exact H8|].
        rewrite Hv in L. cbn [varLines initVars] in L. discriminate. }
      rewrite !(calcLines_paint_eq _ v1 _ _ _ _ Hl).
      eexists _, _, _. split; [reflexivity|]. split; [reflexivity|].
      cbn [painted]. rewrite Hpa1, Hpa2.
      unfold paintState. rewrite (F1 H8), (F2 H8), K1, K2, Hclip.
      split; reflexivity.
Qed.

Lemma bestFit_wrapText_indep (measure : Font -> jsstring -> Q)
    (c1 c2 : Canvas) (rawText : jsstring)
    (centerX centerY boxWidth boxHeight size : Q) :
  clipRegion (state c1) = clipRegion (state c2) ->
  exists r1 r2 ops,
    BestFit.wrapText measure c1 rawText centerX centerY
                     boxWidth boxHeight size = Some r1 /\
    BestFit.wrapText measure c2 rawText centerX centerY
                     boxWidth boxHeight size = Some r2 /\
    painted r1 = painted c1 ++ ops /\ painted r2 = painted c2 ++ ops.
Proof.
  intro Hclip. unfold BestFit.wrapText.
  assert (Hd : captionText rawText = [] \/ captionText rawText <> []).
  { destruct (captionText rawText); [left | right]; congruence. }
  destruct Hd as [Hb|Hne].
  - rewrite !(bestFit_fit_blank measure _ rawText boxWidth boxHeight
                size Hb).
    exists c1, c2, []. now rewrite !app_nil_r.
  - destruct (bestFit_fit_some measure c1 rawText boxWidth boxHeight
                size Hne) as (d1 & v1 & p1 & E1 & _ & _ & _ & Hpa1).
    destruct (bestFit_fit_some measure c2 rawText boxWidth boxHeight
                size Hne) as (d2 & v2 & p2 & E2 & _ & _ & _ & Hpa2).
    destruct (bestFit_fit_inv measure _ _ _ _ _ _ _ _ E1) as [_ R1].
    destruct (bestFit_fit_inv measure _ _ _ _ _ _ _ _ E2) as [_ R2].
    destruct (retry_context measure _ _ _ _ _ _ _ _ _ _ _ _ _ _ R1 R2)
      as (Hv & _ & D).
    subst v2.
    destruct (retry_pass measure _ boxWidth boxHeight size _ _ _ _ _ _ _ R1
                (Qle_refl _)) as [K1 _].
    destruct (retry_pass measure _ boxWidth boxHeight size _ _ _ _ _ _ _ R2
                (Qle_refl _)) as [K2 _].
    rewrite E1, E2, !bestFit_paint_eq.
    destruct D as [(_ & _ & ->)|D].
    + eexists _, _, []. split; [reflexivity|]. split; [reflexivity|].
      cbn [painted varLines initVars lineOps]. rewrite Hpa1, Hpa2.
      split; reflexivity.
    + eexists _, _, _. split; [reflexivity|]. split; [reflexivity|].
      cbn [painted]. rewrite Hpa1, Hpa2.
      unfold paintState. rewrite D, K1, K2, Hclip. split; reflexivity.
Qed.

(** Two captions painted one after the other on a fresh context, by a
    [wrapText] that gives the clip back and paints the same whatever the
    context. *)
Section TwoCaptions.
Variable wt : Canvas -> jsstring -> Q -> Q -> Q -> Q -> Q -> option Canvas.
Variable clipOf : Q -> Q -> Q -> Q -> Rect.
Hypothesis wt_blank :
  forall c cx cy bw bh size, wt c [] cx cy bw bh size = Some c.
Hypothesis wt_shape :
  forall c text cx cy bw bh size,
  exists c' ops,
    wt c text cx cy bw bh size = Some c' /\
    painted c' = painted c ++ ops /\
    stack c' = stack c /\
    clipRegion (state c') = clipRegion (state c) /\
    Forall (fun op => clipRegion (ftState op)
                      = clipOf cx cy bw bh :: clipRegion (state c)) ops.
Hypothesis wt_indep :
  forall c1 c2 text cx cy bw bh size,
  clipRegion (state c1) = clipRegion (state c2) ->
  exists r1 r2 ops,
    wt c1 text cx cy bw bh size = Some r1 /\
    wt c2 text cx cy bw bh size = Some r2 /\
    painted r1 = painted c1 ++ ops /\ painted r2 = painted c2 ++ ops.

Lemma wt_fresh (text : jsstring) (cx cy bw bh size : Q) :
  exists c,
    wt freshCanvas text cx cy bw bh size = Some c /\
    Forall (clippedBy (clipOf cx cy bw bh)) (painted c) /\
    clipRegion (state c) = [] /\ stack c = [].
Proof.
  destruct (wt_shape freshCanvas text cx cy bw bh size)
    as (c & ops & E & Hp & Hs & Hk & HF).
  exists c. split; [exact E|]. cbn in Hp. rewrite Hp.
  split; [exact HF|]. split; [exact Hk | exact Hs].
Qed.

Lemma two_captions (topText bottomText : jsstring)
                   (cx topY bottomY bw bh size : Q) :
  exists c cT cB,
    match (if truthy topText
           then wt freshCanvas topText cx topY bw bh size
           else Some freshCanvas) with
    | None => None
    | Some ctx =>
        if truthy bottomText
        then wt ctx bottomText cx bottomY bw bh size
        else Some ctx
    end = Some c /\
    wt freshCanvas topText cx topY bw bh size = Some cT /\
    wt freshCanvas bottomText cx bottomY bw bh size = Some cB /\
    painted c = painted cT ++ painted cB /\
    Forall (clippedBy (clipOf cx topY bw bh)) (painted cT) /\
    Forall (clippedBy (clipOf cx bottomY bw bh)) (painted cB) /\
    clipRegion (state c) = [] /\ stack c = [].
Proof.
  destruct (wt_fresh topText cx topY bw bh size) as (cT & ET & FT & KT & ST).
  destruct (wt_fresh bottomText cx bottomY bw bh size)
    as (cB & EB & FB & KB & SB).
  assert (H1 : (if truthy topText
                then wt freshCanvas topText cx topY bw bh size
                else Some freshCanvas) = Some cT).
  { destruct topText as [|a r]; cbn [truthy]; [|exact ET].
    rewrite wt_blank in ET. exact ET. }
  rewrite H1.
  destruct (wt_indep cT freshCanvas bottomText cx bottomY bw bh size)
    as (r1 & r2 & ops & E1 & E2 & P1 & P2).
  { rewrite KT. reflexivity. }
  rewrite EB in E2. injection E2 as <-. cbn in P2.
  destruct (wt_shape cT bottomText cx bottomY bw bh size)
    as (c' & ops' & E' & _ & Hs & Hk & _).
  rewrite E1 in E'. injection E' as <-.
  assert (H2 : (if truthy bottomText
                then wt cT bottomText cx bottomY bw bh size
                else Some cT) = Some r1).
  { destruct bottomText as [|a r]; cbn [truthy]; [|exact E1].
    rewrite wt_blank in E1. exact E1. }
  exists r1, cT, cB. split; [exact H2|].
  split; [exact ET|]. split; [exact EB|].
  split; [now rewrite P1, P2|]. split; [exact FT|]. split; [exact FB|].
  split; [now rewrite Hk, KT | now rewrite Hs, ST].
Qed.
End TwoCaptions.

(** X16. [drawMeme], in the three revisions: what it paints is what
    [wrapText] paints on a fresh context for the top caption
    ([memeText.top], in the box centred at three quarters of the width and
    one quarter of the height), followed by what [wrapText] paints on a
    fresh context for the bottom caption ([memeText.bottom], centred at
    three quarters of the height): the second caption is painted as if
    it were alone.  Each call is under one clip only, the upper right
    quadrant of the image for the top caption and the lower right one for
    the bottom caption (in App.tsx the quadrant 5 units in); the two
    quadrants meet at half height, and the drawing context ends with no
    clip and no saved state. *)
Theorem X16_drawMeme_quadrants (measure : Font -> jsstring -> Q)
    (canvasWidth canvasHeight : Z) (memeText : MemeText)
    (fontSizeScale : Q) :
  (exists cT cB,
     AppTsx.wrapText measure freshCanvas (top memeText)
       (inject_Z canvasWidth * 0.75) (inject_Z canvasHeight * 0.25)
       (inject_Z canvasWidth / 2) (inject_Z canvasHeight / 2)
       (AppTsx.currentFontSize canvasHeight fontSizeScale) = cT /\
     AppTsx.wrapText measure freshCanvas (bottom memeText)
       (inject_Z canvasWidth * 0.75) (inject_Z canvasHeight * 0.75)
       (inject_Z canvasWidth / 2) (inject_Z canvasHeight / 2)
       (AppTsx.currentFontSize canvasHeight fontSizeScale) = cB /\
     painted (AppTsx.drawMeme measure canvasWidth canvasHeight memeText
                              fontSizeScale)
       = painted cT ++ painted cB /\
     Forall (clippedBy (topInset canvasWidth canvasHeight)) (painted cT) /\
     Forall (clippedBy (bottomInset canvasWidth canvasHeight)) (painted cB) /\
     clipRegion (state (AppTsx.drawMeme measure canvasWidth canvasHeight
                                        memeText fontSizeScale)) = [] /\
     stack (AppTsx.drawMeme measure canvasWidth canvasHeight memeText
                            fontSizeScale) = []) /\
  (exists c cT cB,
     CalcLines.drawMeme measure canvasWidth canvasHeight memeText
                        fontSizeScale = Some c /\
     CalcLines.wrapText measure freshCanvas (top memeText)
       (inject_Z canvasWidth * 0.75) (inject_Z canvasHeight * 0.25)
       (inject_Z canvasWidth / 2) (inject_Z canvasHeight / 2)
       (CalcLines.scaledFontSize canvasHeight fontSizeScale) = Some cT /\
     CalcLines.wrapText measure freshCanvas (bottom memeText)
       (inject_Z canvasWidth * 0.75) (inject_Z canvasHeight * 0.75)
       (inject_Z canvasWidth / 2) (inject_Z canvasHeight / 2)
       (CalcLines.scaledFontSize canvasHeight fontSizeScale) = Some cB /\
     painted c = painted cT ++ painted cB /\
     Forall (clippedBy (topBox canvasWidth canvasHeight)) (painted cT) /\
     Forall (clippedBy (bottomBox canvasWidth canvasHeight)) (painted cB) /\
     clipRegion (state c) = [] /\ stack c = []) /\
  (exists c cT cB,
     BestFit.drawMeme measure canvasWidth canvasHeight memeText
                      fontSizeScale = Some c /\
     BestFit.wrapText measure freshCanvas (top memeText)
       (inject_Z canvasWidth * 0.75) (inject_Z canvasHeight * 0.25)
       (inject_Z canvasWidth / 2) (inject_Z canvasHeight / 2)
       (BestFit.scaledFontSize canvasHeight fontSizeScale) = Some cT /\
     BestFit.wrapText measure freshCanvas (bottom memeText)
       (inject_Z canvasWidth * 0.75) (inject_Z canvasHeight * 0.75)
       (inject_Z canvasWidth / 2) (inject_Z canvasHeight / 2)
       (BestFit.scaledFontSize canvasHeight fontSizeScale) = Some cB /\
     painted c = painted cT ++ painted cB /\
     Forall (clippedBy (topBox canvasWidth canvasHeight)) (painted cT) /\
     Forall (clippedBy (bottomBox canvasWidth canvasHeight)) (painted cB) /\
     clipRegion (state c) = [] /\ stack c = []) /\
  (rectX (topBox canvasWidth canvasHeight) == inject_Z canvasWidth / 2 /\
   rectY (topBox canvasWidth canvasHeight) == 0 /\
   rectRight (topBox canvasWidth canvasHeight) == inject_Z canvasWidth /\
   rectBottom (topBox canvasWidth canvasHeight)
     == rectY (bottomBox canvasWidth canvasHeight) /\
   rectX (bottomBox canvasWidth canvasHeight) == inject_Z canvasWidth / 2 /\
   rectRight (bottomBox canvasWidth canvasHeight) == inject_Z canvasWidth /\
   rectBottom (bottomBox canvasWidth canvasHeight)
     == inject_Z canvasHeight) /\
  (rectX (topInset canvasWidth canvasHeight)
     == rectX (topBox canvasWidth canvasHeight) + 5 /\
   rectY (topInset canvasWidth canvasHeight)
     == rectY (topBox canvasWidth canvasHeight) + 5 /\
   rectRight (topInset canvasWidth canvasHeight)
     == rectRight (topBox canvasWidth canvasHeight) - 5 /\
   rectBottom (topInset canvasWidth canvasHeight)
     == rectBottom (topBox canvasWidth canvasHeight) - 5 /\
   rectX (bottomInset canvasWidth canvasHeight)
     == rectX (bottomBox canvasWidth canvasHeight) + 5 /\
   rectY (bottomInset canvasWidth canvasHeight)
     == rectY (bottomBox canvasWidth canvasHeight) + 5 /\
   rectRight (bottomInset canvasWidth canvasHeight)
     == rectRight (bottomBox canvasWidth canvasHeight) - 5 /\
   rectBottom (bottomInset canvasWidth canvasHeight)
     == rectBottom (bottomBox canvasWidth canvasHeight) - 5).
Proof.
  split; [|split; [|split; [|split]]].
  - destruct (two_captions
                (fun c t cx cy bw bh sz =>
                   Some (AppTsx.wrapText measure c t cx cy bw bh sz))
                insetRect) with
      (topText := top memeText) (bottomText := bottom memeText)
      (cx := inject_Z canvasWidth * 0.75)
      (topY := inject_Z canvasHeight * 0.25)
      (bottomY := inject_Z canvasHeight * 0.75)
      (bw := inject_Z canvasWidth / 2) (bh := inject_Z canvasHeight / 2)
      (size := AppTsx.currentFontSize canvasHeight fontSizeScale)
      as (c & cT & cB & E & ET & EB & Hp & FT & FB & Hk & Hs).
    + intros c cx cy bw bh size. unfold AppTsx.wrapText.
      now rewrite (appTsx_layout_blank measure c [] bw size eq_refl).
    + intros c text cx cy bw bh size.
      destruct (appTsx_wrapText_shape measure c text cx cy bw bh size)
        as (ops & A & B & C & F).
      eexists _, ops. split; [reflexivity|]. split; [exact A|].
      split; [exact B|]. split; [exact C|].
      eapply Forall_impl; [|exact F]. intros op [-> _]. reflexivity.
    + intros c1 c2 text cx cy bw bh size Hclip.
      destruct (appTsx_wrapText_indep measure c1 c2 text cx cy bw bh size
                  Hclip) as (ops & A & B).
      eexists _, _, ops. split; [reflexivity|]. split; [reflexivity|].
      split; [exact A | exact B].
    + injection ET as ET. injection EB as EB.
      assert (Ed : AppTsx.drawMeme measure canvasWidth canvasHeight memeText
                                   fontSizeScale = c).
      { unfold AppTsx.drawMeme. cbv zeta.
        destruct (truthy (top memeText)); destruct (truthy (bottom memeText));
          now injection E as <-. }
      rewrite Ed. exists cT, cB.
      split; [exact ET|]. split; [exact EB|]. split; [exact Hp|].
      split; [exact FT|]. split; [exact FB|]. split; [exact Hk | exact Hs].
  - unfold CalcLines.drawMeme. cbv zeta.
    apply (two_captions (CalcLines.wrapText measure) boxRect).
    + intros c cx cy bw bh size. unfold CalcLines.wrapText.
      now rewrite (calcLines_fit_blank measure c [] bw bh size eq_refl).
    + intros c text cx cy bw bh size.
      destruct (calcLines_wrapText_shape measure c text cx cy bw bh size)
        as (c' & ops & f & E & A & B & C & F).
      exists c', ops. split; [exact E|]. split; [exact A|].
      split; [exact B|]. split; [exact C|].
      eapply Forall_impl; [|exact F]. intros op [-> _]. reflexivity.
    + intros c1 c2 text cx cy bw bh size.
      apply calcLines_wrapText_indep.
  - unfold BestFit.drawMeme. cbv zeta.
    apply (two_captions (BestFit.wrapText measure) boxRect).
    + intros c cx cy bw bh size. unfold BestFit.wrapText.
      now rewrite (bestFit_fit_blank measure c [] bw bh size eq_refl).
    + intros c text cx cy bw bh size.
      destruct (bestFit_wrapText_shape measure c text cx cy bw bh size)
        as (c' & ops & f & E & A & B & C & F).
      exists c', ops. split; [exact E|]. split; [exact A|].
      split; [exact B|]. split; [exact C|].
      eapply Forall_impl; [|exact F]. intros op [-> _]. reflexivity.
    + intros c1 c2 text cx cy bw bh size.
      apply bestFit_wrapText_indep.
  - unfold topBox, bottomBox, boxRect, rectRight, rectBottom.
    cbn [rectX rectY rectW rectH].
    repeat split; field.
  - unfold topInset, bottomInset, insetRect, topBox, bottomBox, boxRect,
      rectRight, rectBottom.
    cbn [rectX rectY rectW rectH].
    repeat split; ring.
Qed.

(** ** The three line breakers side by side *)

Section BestFitAgrees.
Variable width : jsstring -> Q.
Variable W : Q.
Local Abbreviation fits := (fun s : jsstring => width s <= W).

(** On words that fit, the loop of [findBestFit] walks in step with the
    loop of [calculateLines]: same lines pushed, and a current line that
    is the other one followed by a SPACE. *)
Lemma bestFit_forWords_calcLines (words : list jsstring) :
  Forall wordOk words -> Forall fits words ->
  forall n lines currentLine onLine,
  Pending n currentLine onLine ->
  exists ls c c',
    CalcLines.forWords width W words lines (joinSp onLine) = Some (ls, c) /\
    BestFit.forWords width W n words lines currentLine = (ls, Some c') /\
    trim c' = c /\
    (onLine ++ words <> [] -> c <> []).
Proof.
  induction words as [|w rest IH];
    intros Hw Hf n lines cl onLine Hp.
  - cbn [CalcLines.forWords BestFit.forWords].
    exists lines, (joinSp onLine), cl.
    split; [reflexivity|]. split; [reflexivity|].
    rewrite app_nil_r.
    destruct Hp as [(_ & -> & ->)|(_ & Ho & HF & ->)].
    + split; [reflexivity | congruence].
    + split; [now apply trim_joinSp_space|].
      intros _. now apply joinSp_tight.
  - inversion Hw as [|? ? Hww Hrest]; subst.
    inversion Hf as [|? ? Hfw Hfrest]; subst.
    assert (Gw : Qgtb (width w) W = false) by now apply Qgtb_false.
    assert (Hsingle : forall m, Pending (S m) (w ++ space) [w]).
    { intro m. right. repeat split; [lia | discriminate | now constructor]. }
    destruct Hp as [(-> & -> & ->)|(Hn & Ho & HF & ->)].
    + cbn [CalcLines.forWords BestFit.forWords joinSp truthy app].
      rewrite andb_false_r, Gw.
      destruct (IH Hrest Hfrest 1%nat lines _ _ (Hsingle 0%nat))
        as (ls & c & c' & A & B & C & D).
      exists ls, c, c'. split; [exact A|]. split; [exact B|].
      split; [exact C|]. intros _. apply D. discriminate.
    + destruct (joinSp_tight onLine Ho HF) as (Jne & Jh & Jl).
      assert (HF' : Forall wordOk (onLine ++ [w])).
      { apply Forall_app. split; [exact HF | now constructor]. }
      assert (Ho' : onLine ++ [w] <> []) by (destruct onLine; discriminate).
      assert (Hs : joinSp (onLine ++ [w]) = joinSp onLine ++ space ++ w)
        by now apply joinSp_snoc.
      assert (Ht : trim ((joinSp onLine ++ space) ++ w ++ space)
                   = joinSp onLine ++ space ++ w).
      { rewrite <- Hs. rewrite <- (trim_joinSp_space _ Ho' HF').
        rewrite Hs. now rewrite <- !app_assoc. }
      assert (Hj : truthy (joinSp onLine) = true) by now apply truthy_true.
      assert (Hlt : Nat.ltb 0 n = true) by now apply Nat.ltb_lt.
      cbn [CalcLines.forWords BestFit.forWords].
      rewrite Ht, Hj, Hlt, andb_true_r, Gw.
      destruct (Qgtb (width (joinSp onLine ++ space ++ w)) W) eqn:G.
      * rewrite (trim_joinSp_space _ Ho HF).
        destruct (IH Hrest Hfrest (S n) (lines ++ [joinSp onLine]) _ _
                    (Hsingle n))
          as (ls & c & c' & A & B & C & D).
        exists ls, c, c'. split; [exact A|]. split; [exact B|].
        split; [exact C|]. intros _. apply D. discriminate.
      * assert (Hp' : Pending (S n) ((joinSp onLine ++ space) ++ w ++ space)
                                (onLine ++ [w])).
        { right. split; [lia|]. split; [exact Ho'|]. split; [exact HF'|].
          rewrite Hs. now rewrite <- !app_assoc. }
        destruct (IH Hrest Hfrest (S n) lines _ _ Hp')
          as (ls & c & c' & A & B & C & D).
        rewrite Hs in A.
        exists ls, c, c'. split; [exact A|]. split; [exact B|].
        split; [exact C|]. intros _. apply D.
        destruct onLine; discriminate.
Qed.
End BestFitAgrees.

(** X14. On the words of a caption, when every word fits the width, the
    three line breakers agree: the loop of [findBestFit] runs to its end
    (no [return false]), and the lines it has pushed followed by its
    trimmed last line are the lines of [calculateLines] and the lines of
    App.tsx. *)
Theorem X14_breakers_agree (width : jsstring -> Q) (W : Q)
    (words : list jsstring) :
  words <> [] ->
  Forall wordOk words ->
  Forall (fun w => width w <= W) words ->
  exists ls c,
    BestFit.forWords width W 0 words [] [] = (ls, Some c) /\
    CalcLines.breakLines width W words = Some (ls ++ [trim c]) /\
    AppTsx.breakLines width W words = ls ++ [trim c].
Proof.
  intros Hne Hw Hf.
  destruct (bestFit_forWords_calcLines width W words Hw Hf 0%nat [] [] [])
    as (ls & c & c' & A & B & C & D).
  { left. auto. }
  cbn [joinSp] in A.
  assert (Hc : c <> []) by (apply D; exact Hne).
  assert (Hcalc : CalcLines.breakLines width W words = Some (ls ++ [trim c'])).
  { unfold CalcLines.breakLines. rewrite A, C.
    now rewrite pushIf_cons by exact Hc. }
  exists ls, c'. split; [exact B|]. split; [exact Hcalc|].
  destruct (wrapWords_greedy width W words Hf [] [] false)
    as (l1 & c1 & E1 & H1).
  destruct (forWords_greedy width W words Hf [] []) as (l2 & c2 & E2 & H2).
  unfold AppTsx.breakLines, AppTsx.breakLinesFlag. rewrite E1.
  cbn [fst]. rewrite H1.
  unfold CalcLines.breakLines in Hcalc. rewrite E2 in Hcalc.
  injection Hcalc as <-. rewrite H2. reflexivity.
Qed.

Lemma X14_breakers_agree_witness :
  sampleWords <> [] /\
  Forall wordOk sampleWords /\
  Forall (fun w => sampleWidth w <= 100) sampleWords /\
  exists ls c,
    BestFit.forWords sampleWidth 100 0 sampleWords [] [] = (ls, Some c) /\
    CalcLines.breakLines sampleWidth 100 sampleWords
      = Some (ls ++ [trim c]) /\
    AppTsx.breakLines sampleWidth 100 sampleWords = ls ++ [trim c].
Proof.
  assert (Hne : sampleWords <> []) by discriminate.
  assert (Hw : Forall wordOk sampleWords).
  { repeat (constructor;
            [split; [discriminate | repeat constructor]|]).
    constructor. }
  assert (Hf : Forall (fun w => sampleWidth w <= 100) sampleWords).
  { repeat (constructor; [vm_compute; discriminate|]). constructor. }
  split; [exact Hne|]. split; [exact Hw|]. split; [exact Hf|].
  exact (X14_breakers_agree sampleWidth 100 sampleWords Hne Hw Hf).
Defined.

(** ** part_000, [findBestFit]: a search that ends above the floor *)

(** A search that ends above the floor ends in [findBestFit]'s own
    [return true] after a pass, with the font of that pass still set. *)
Lemma findBestFit_font (measure : Font -> jsstring -> Q)
    (words : list jsstring) (boxWidth boxHeight : Q) (fuel : nat) :
  forall context v passes context' v' passes',
  BestFit.findBestFit measure fuel words boxWidth boxHeight context v passes
    = Some (true, context', v', passes') ->
  6 < currentFontSize v' ->
  font (state context') = fontStringUI (currentFontSize v').
Proof.
  induction fuel as [|fuel IH];
    intros context v passes context' v' passes' E H6;
    cbn [BestFit.findBestFit] in E.
  - destruct (Qgtb (currentFontSize v) 6) eqn:G; [discriminate|].
    injection E as _ <- _. apply Qgtb_false in G.
    exfalso. exact (Qlt_not_le _ _ H6 G).
  - destruct (Qgtb (currentFontSize v) 6) eqn:G.
    + destruct (BestFit.forWords _ _ 0 words [] []) as [ls [cur|]].
      * destruct (Qle_bool _ _).
        -- injection E as <- <- _. reflexivity.
        -- eapply IH; [exact E | exact H6].
      * discriminate.
    + injection E as _ <- _. apply Qgtb_false in G.
      exfalso. exact (Qlt_not_le _ _ H6 G).
Qed.

Lemma retry_font (measure : Font -> jsstring -> Q)
    (words : list jsstring) (boxWidth boxHeight : Q) (fuel : nat) :
  forall context v passes context' v' passes',
  BestFit.retry measure fuel words boxWidth boxHeight context v passes
    = Some (context', v', passes') ->
  6 < currentFontSize v' ->
  font (state context') = fontStringUI (currentFontSize v').
Proof.
  induction fuel as [|fuel IH];
    intros context v passes context' v' passes' E H6;
    cbn [BestFit.retry] in E; [discriminate|].
  destruct (BestFit.findBestFit measure _ words boxWidth boxHeight
              context v passes) as [[[[b c1] v1] p1]|] eqn:F;
    [|discriminate].
  destruct b.
  - injection E as <- <- <-.
    exact (findBestFit_font _ _ _ _ _ _ _ _ _ _ _ F H6).
  - eapply IH; [exact E | exact H6].
Qed.

(** X15. The [findBestFit] revision, when its search ends at a size above
    the floor of 6: the lines hold the caption, one SPACE between words;
    they are painted in the font of that size, [lineHeight] apart with
    [lineHeight = size * 1.15]; the block is not higher than the usable
    height, and it is centred on the centre of the box. *)
Theorem X15_bestFit_above_floor (measure : Font -> jsstring -> Q)
    (context context' : Canvas) (rawText : jsstring)
    (centerX centerY boxWidth boxHeight size : Q)
    (v : FitVars) (passes : nat) :
  BestFit.fit measure context rawText boxWidth boxHeight size
    = Some (context', Some (v, passes)) ->
  6 < currentFontSize v ->
  joinSp (varLines v) = normalize rawText /\
  ofNat (List.length (varLines v)) * (currentFontSize v * 1.15)
    <= BestFit.maxHeight boxHeight /\
  exists c ops,
    BestFit.wrapText measure context rawText centerX centerY
                     boxWidth boxHeight size = Some c /\
    painted c = painted context ++ ops /\
    Forall (fun op =>
              font (ftState op) = fontStringUI (currentFontSize v)) ops /\
    Centered ops (varLines v) centerX centerY
      (centerY
       - ofNat (List.length (varLines v)) * (currentFontSize v * 1.15) / 2)
      (currentFontSize v * 1.15).
Proof.
  intros E H6.
  destruct (bestFit_fit_inv measure _ _ _ _ _ _ _ _ E) as [Hne Hr].
  destruct (bestFit_fit_some measure context rawText boxWidth boxHeight
              size Hne) as (c0 & v0 & p0 & E0 & _ & _ & Hd & Hpa).
  rewrite E in E0. injection E0 as <- <- <-.
  destruct (Hd H6) as (J & LH & TB & MH).
  pose proof (retry_font measure _ _ _ _ _ _ _ _ _ _ Hr H6) as Hfont.
  split; [rewrite J; apply joinSp_split_ws|].
  split; [rewrite <- LH, <- TB; exact MH|].
  unfold BestFit.wrapText. rewrite E. rewrite bestFit_paint_eq.
  cbn [painted]. rewrite Hpa, TB, LH.
  eexists _, _. split; [reflexivity|]. split; [reflexivity|]. split.
  - apply Forall_forall. intros op Hin. apply lineOps_In in Hin.
    destruct Hin as (Hst & _). rewrite Hst. cbn [paintState font].
    exact Hfont.
  - apply (lineOps_centered _ (varLines v) centerX centerY _ _
             (ofNat (List.length (varLines v))
              * (currentFontSize v * 1.15))).
    + reflexivity.
    + reflexivity.
    + left. split; reflexivity.
Qed.

Lemma X15_bestFit_above_floor_witness :
  exists context' v passes,
    BestFit.fit monoMeasure freshCanvas sampleCaption 500 500 40
      = Some (context', Some (v, passes)) /\
    6 < currentFontSize v /\
    joinSp (varLines v) = normalize sampleCaption /\
    ofNat (List.length (varLines v)) * (currentFontSize v * 1.15)
      <= BestFit.maxHeight 500 /\
    exists c ops,
      BestFit.wrapText monoMeasure freshCanvas sampleCaption
                       750 250 500 500 40 = Some c /\
      painted c = painted freshCanvas ++ ops /\
      Forall (fun op =>
                font (ftState op) = fontStringUI (currentFontSize v)) ops /\
      Centered ops (varLines v) 750 250
        (250
         - ofNat (List.length (varLines v)) * (currentFontSize v * 1.15) / 2)
        (currentFontSize v * 1.15).
Proof.
  eexists _, _, _.
  assert (E : BestFit.fit monoMeasure freshCanvas sampleCaption 500 500 40
              = Some (_, Some (_, _))) by (vm_compute; reflexivity).
  split; [exact E|].
  assert (H6 : 6 < 40) by (vm_compute; reflexivity).
  split; [exact H6|].
  exact (X15_bestFit_above_floor monoMeasure freshCanvas _ sampleCaption
           750 250 500 500 40 _ _ E H6).
Defined.
